(** * Relativistic asteroids: particle kinematics, collisions and pools

    A shallow embedding of the simulation core of the game
    (vector.go, utils.go, particle.go, pool.go) and the properties of its
    specification.

    Numbers.  A Go [float64] is modelled by [float64] below: a real number
    with exact arithmetic, or [NaN].  Rounding, overflow and the sign of
    zero are outside this model.  An operation that binary64 answers with
    NaN or with an infinity (a division by zero, the square root of a
    negative number) is [NaN] here, and [NaN] propagates and compares
    false, as in Go.  Where binary64 returns an infinity (a number other
    than zero divided by zero) the program and the model differ under
    [math.IsNaN] and under [<]; and the library's [Tanh] returns exactly
    1 or -1 for a large argument, where the real function stays strictly
    between the two.

    Time.  What [time.Now] and [time.Since] read on the clock is an
    argument of the function that calls them.

    Pointers.  A [*Particle] is a location of a heap of particle records,
    or nil; a slice of pointers is a list of them, so that two slots that
    hold the same pointer share one record.  A Go run-time panic (index out
    of range, nil dereference) is the result [None]. *)

From Stdlib Require Import Reals Lra ZArith.
From stdpp Require Import base option list gmap.

(** ** float64 *)

Inductive float64 : Type :=
| Fin (r : R)
| NaN.

Declare Scope f64_scope.
Delimit Scope f64_scope with f64.
Bind Scope f64_scope with float64.

Definition fadd (a b : float64) : float64 :=
  match a, b with
  | Fin x, Fin y => Fin (x + y)
  | _, _ => NaN
  end.

Definition fsub (a b : float64) : float64 :=
  match a, b with
  | Fin x, Fin y => Fin (x - y)
  | _, _ => NaN
  end.

Definition fmul (a b : float64) : float64 :=
  match a, b with
  | Fin x, Fin y => Fin (x * y)
  | _, _ => NaN
  end.

Definition fdiv (a b : float64) : float64 :=
  match a, b with
  | Fin x, Fin y => if Req_dec_T y 0 then NaN else Fin (x / y)
  | _, _ => NaN
  end.

Definition fneg (a : float64) : float64 :=
  match a with
  | Fin x => Fin (- x)
  | NaN => NaN
  end.

(** [a < b] and [a == b] of Go: false as soon as one side is NaN. *)
Definition fltb (a b : float64) : bool :=
  match a, b with
  | Fin x, Fin y => if Rlt_dec x y then true else false
  | _, _ => false
  end.

Definition feqb (a b : float64) : bool :=
  match a, b with
  | Fin x, Fin y => if Req_dec_T x y then true else false
  | _, _ => false
  end.

Infix "+" := fadd : f64_scope.
Infix "-" := fsub : f64_scope.
Infix "*" := fmul : f64_scope.
Infix "/" := fdiv : f64_scope.
Notation "- x" := (fneg x) : f64_scope.
Infix "<?" := fltb : f64_scope.
Infix "=?" := feqb : f64_scope.

(** The functions of Go's package math that the code calls. *)
Module math.

Definition Sqrt (a : float64) : float64 :=
  match a with
  | Fin x => if Rlt_dec x 0 then NaN else Fin (sqrt x)
  | NaN => NaN
  end.

(** The real hyperbolic tangent, strictly between -1 and 1; the library
    function rounds, and returns exactly 1 or -1 for a large argument. *)
Definition Tanh (a : float64) : float64 :=
  match a with
  | Fin x => Fin (tanh x)
  | NaN => NaN
  end.

Definition IsNaN (a : float64) : bool :=
  match a with
  | Fin _ => false
  | NaN => true
  end.

(** The angle of the point (x, y), with the special cases of the library:
    [Atan2(0, x) = 0] for [x >= 0] and [Pi] for [x < 0];
    [Atan2(y, 0) = ±Pi/2] for [y <> 0]. *)
Definition atan2 (y x : R) : R :=
  if Req_dec_T y 0 then (if Rle_dec 0 x then 0 else PI)%R
  else if Req_dec_T x 0 then (if Rlt_dec 0 y then PI / 2 else - (PI / 2))%R
  else
    let q := atan (y / x) in
    if Rlt_dec x 0 then (if Rle_dec q 0 then q + PI else q - PI)%R else q.

Definition Atan2 (y x : float64) : float64 :=
  match y, x with
  | Fin b, Fin a => Fin (atan2 b a)
  | _, _ => NaN
  end.

Definition Cos (a : float64) : float64 :=
  match a with
  | Fin x => Fin (cos x)
  | NaN => NaN
  end.

Definition Sin (a : float64) : float64 :=
  match a with
  | Fin x => Fin (sin x)
  | NaN => NaN
  end.

(** [Acos(x)] is NaN for [x < -1] and for [x > 1]. *)
Definition Acos (a : float64) : float64 :=
  match a with
  | Fin x =>
      if Rlt_dec x (-1) then NaN else if Rlt_dec 1 x then NaN else Fin (acos x)
  | NaN => NaN
  end.

Definition Pi : float64 := Fin PI.

(** The largest finite binary64 number, [(2^53 - 1) * 2^971]. *)
Definition MaxFloat64 : float64 := Fin (IZR (2 ^ 1024 - 2 ^ 971)).

End math.

(** ** vector.go *)

Record Vector : Type := mkVector { X : float64; Y : float64 }.

(** [Vector{}] *)
Definition Vector0 : Vector := mkVector (Fin 0) (Fin 0).

Definition Add (v w : Vector) : Vector := mkVector (X v + X w) (Y v + Y w).
Definition Sub (v w : Vector) : Vector := mkVector (X v - X w) (Y v - Y w).
Definition Neg (v : Vector) : Vector := mkVector (- X v) (- Y v).
Definition Dot (v w : Vector) : float64 := (X v * X w + Y v * Y w)%f64.
Definition Scl (v : Vector) (s : float64) : Vector := mkVector (X v * s) (Y v * s).
Definition Mag (v : Vector) : float64 := math.Sqrt (X v * X v + Y v * Y v).
Definition SqrMag (v : Vector) : float64 := (X v * X v + Y v * Y v)%f64.
Definition Unit (v : Vector) : Vector := Scl v (Fin 1 / Mag v).
Definition Angle (v : Vector) : float64 := math.Atan2 (Y v) (X v).

Definition SetMag (v : Vector) (s : float64) : Vector :=
  if (Mag v =? Fin 0)%f64 then v else Scl v (s / Mag v).

Definition Dist (v w : Vector) : float64 := Mag (Sub v w).
Definition SqrDist (v w : Vector) : float64 := SqrMag (Sub v w).

Definition Rotate (v : Vector) (theta : float64) : Vector :=
  mkVector (X v * math.Cos theta - Y v * math.Sin theta)
           (X v * math.Sin theta + Y v * math.Cos theta).

Definition AngleBetween (v w : Vector) : float64 :=
  if (X v <? X w)%f64
  then (- math.Acos (Dot (mkVector (Fin 0) (Fin (-1))) (Unit (Sub w v))))%f64
  else math.Acos (Dot (mkVector (Fin 0) (Fin (-1))) (Unit (Sub w v))).

(** [randUnit()] when [rand.Float64()] returns [r]. *)
Definition randUnit (r : float64) : Vector :=
  let a := (r * Fin 2 * math.Pi)%f64 in
  mkVector (math.Cos a) (math.Sin a).

(** ** utils.go and the constants of game.go *)

(** [physScale float64 = 0.3] *)
Definition physScale : float64 := Fin (3 / 10).

Module Kinematics.

(** [Gamma(v, c)]: the Lorentz factor. *)
Definition Gamma (v c : float64) : float64 :=
  (Fin 1 / math.Sqrt (Fin 1 - (v * v) / (c * c)))%f64.

Definition getDrag (v : Vector) (k : float64) : Vector :=
  SetMag v (- k * SqrMag v).

Definition mapRange (v minIn maxIn minOut maxOut : float64) : float64 :=
  ((v - minIn) / (maxIn - minIn) * (maxOut - minOut) + minOut)%f64.

End Kinematics.

(** ** particle.go *)

Record Particle : Type := mkParticle {
  Pos : Vector;
  Rap : Vector;
  Vel : Vector;
  Acc : Vector;
  AngPos : float64;
  AngVel : float64;
  Mass : float64;
  Radius : float64;
  Gamma : float64;
  Clock : float64
}.

Definition set_Pos (p : Particle) (v : Vector) : Particle :=
  mkParticle v (Rap p) (Vel p) (Acc p) (AngPos p) (AngVel p)
    (Mass p) (Radius p) (Gamma p) (Clock p).

Definition set_Rap (p : Particle) (v : Vector) : Particle :=
  mkParticle (Pos p) v (Vel p) (Acc p) (AngPos p) (AngVel p)
    (Mass p) (Radius p) (Gamma p) (Clock p).

Definition set_Vel (p : Particle) (v : Vector) : Particle :=
  mkParticle (Pos p) (Rap p) v (Acc p) (AngPos p) (AngVel p)
    (Mass p) (Radius p) (Gamma p) (Clock p).

Module Particle.

(** [p.Update(force, frame, c, dt)] on the record [p] points to. *)
Definition Update (p : Particle) (force frame : Vector) (c dt : float64)
  : Particle :=
  let relativeVelocity := Sub (Vel p) frame in
  let gamma := Kinematics.Gamma (Mag relativeVelocity) c in
  let dtr := (dt * gamma)%f64 in
  let clock := (Clock p + dtr)%f64 in
  let angPos := (AngPos p + AngVel p * dtr)%f64 in
  let acc := Scl force (Fin 1 / Mass p) in
  let rap := Add (Rap p) (Scl (Add (Acc p) acc) (dtr / Fin 2)) in
  let vel := SetMag (Rap p) (c * math.Tanh (Mag (Rap p) / c)) in
  let pos :=
    Add (Add (Pos p) (Scl (Rap p) dtr)) (Scl (Acc p) (dtr * dtr / Fin 2)) in
  {| Pos := pos; Rap := rap; Vel := vel; Acc := acc;
     AngPos := angPos; AngVel := AngVel p;
     Mass := Mass p; Radius := Radius p;
     Gamma := gamma; Clock := clock |}.

Definition ScaledRadius (p : Particle) : float64 := (Radius p * physScale)%f64.

Definition CheckCollision (p q : Particle) (frame : Vector) : bool :=
  let axis := Unit (Sub (Pos p) (Pos q)) in
  let pRadius :=
    (ScaledRadius p *
     (Fin 1 - Dot (Unit (Sub (Vel p) frame)) axis * (Fin 1 - Fin 1 / Gamma p)))%f64 in
  let qRadius :=
    (ScaledRadius q *
     (Fin 1 - Dot (Unit (Sub (Vel q) frame)) axis * (Fin 1 - Fin 1 / Gamma q)))%f64 in
  let pRadius := if math.IsNaN pRadius then ScaledRadius p else pRadius in
  let qRadius := if math.IsNaN qRadius then ScaledRadius q else qRadius in
  let distance := Mag (Sub (Pos p) (Pos q)) in
  (distance <? pRadius + qRadius)%f64.

Definition Momentum (p : Particle) : Vector := Scl (Vel p) (Mass p * Gamma p).

Definition MassRel (p : Particle) : float64 := (Mass p * Gamma p)%f64.

(** The reference axis of [p.Draw]: [axis := p.Vel.Sub(frame).Angle()]. *)
Definition axis (p : Particle) (frame : Vector) : float64 :=
  Angle (Sub (Vel p) frame).

End Particle.

(** ** The heap of particles *)

(** A [*Particle] is [Some l], a location of the heap, or [None], nil. *)
Abbreviation loc := nat (only parsing).
Abbreviation ptr := (option nat) (only parsing).
Abbreviation heap := (gmap nat Particle) (only parsing).

(** Reading and writing through a pointer; nil panics. *)
Definition load (p : ptr) (h : heap) : option Particle :=
  l ← p; h !! l.

Definition modify (p : ptr) (f : Particle → Particle) (h : heap) : option heap :=
  l ← p; x ← h !! l; Some (<[l := f x]> h).

(** [&Particle{...}]: a record at a location that is not in use. *)
Definition alloc (x : Particle) (h : heap) : nat * heap :=
  let l := fresh (dom h) in (l, <[l := x]> h).

(** A [for] loop over the values of [l], threading the state [s]. *)
Fixpoint forM {A S : Type} (body : A → S → option S) (l : list A) (s : S)
  : option S :=
  match l with
  | [] => Some s
  | x :: l' => s' ← body x s; forM body l' s'
  end.

(** [a[i] = x] on a slice: out of range panics. *)
Definition store_at {A : Type} (l : list A) (i : nat) (x : A) : option (list A) :=
  if decide (i < length l) then Some (<[i := x]> l) else None.

(** ** particle.go: the batch functions *)

Definition UpdatePositions (particles : list ptr) (frame : Vector)
  (c dt : float64) (h : heap) : option heap :=
  forM (fun particle h =>
          modify particle (fun p => Particle.Update p Vector0 frame c dt) h)
       particles h.

(** The body of the inner loop of [SolveCollisions] for the pointers
    [pi = particles[i]] and [pj = particles[j]], statement by statement. *)
Definition resolve (pi pj : ptr) (frame : Vector) (c : float64) (h : heap)
  : option heap :=
  a ← load pi h;
  b ← load pj h;
  if Particle.CheckCollision a b frame then
    let distance := Mag (Sub (Pos a) (Pos b)) in
    let axis := Unit (Sub (Pos a) (Pos b)) in
    let stepSize :=
      (Particle.ScaledRadius a + Particle.ScaledRadius b - distance)%f64 in
    h ← modify pi (fun p =>
           set_Pos p (Add (Pos p) (Scl axis (Fin (1 / 2) * stepSize)))) h;
    h ← modify pj (fun p =>
           set_Pos p (Sub (Pos p) (Scl axis (Fin (1 / 2) * stepSize)))) h;
    a ← load pi h;
    b ← load pj h;
    let momentum := Add (Particle.Momentum a) (Particle.Momentum b) in
    let CoM := Scl momentum (Fin 1 / (Particle.MassRel a + Particle.MassRel b)) in
    let iVCoM :=
      Scl (Sub (Vel a) CoM) (Fin 1 / (Fin 1 - Dot (Vel a) CoM / (c * c))) in
    let jVCoM :=
      Scl (Sub (Vel b) CoM) (Fin 1 / (Fin 1 - Dot (Vel b) CoM / (c * c))) in
    let iv :=
      Scl (Add (Neg iVCoM) CoM) (Fin 1 / (Fin 1 - Dot iVCoM CoM / (c * c))) in
    let jv :=
      Scl (Add (Neg jVCoM) CoM) (Fin 1 / (Fin 1 - Dot jVCoM CoM / (c * c))) in
    h ← modify pi (fun p => set_Rap p (SetMag iv (c * math.Tanh (Mag iv / c)))) h;
    h ← modify pj (fun p => set_Rap p (SetMag jv (c * math.Tanh (Mag jv / c)))) h;
    h ← modify pi (fun p => set_Vel p iv) h;
    modify pj (fun p => set_Vel p jv) h
  else Some h.

Definition SolveCollisions (particles : list ptr) (frame : Vector)
  (c : float64) (h : heap) : option heap :=
  let n := length particles in
  forM (fun i h =>
          forM (fun j h =>
                  pi ← particles !! i;
                  pj ← particles !! j;
                  resolve pi pj frame c h)
               (seq (S i) (n - S i)) h)
       (seq 0 (n - 1)) h.

(** ** pool.go *)

(** A [time.Time] is the zero value [time.Time{}] or a reading of the
    process clock, in nanoseconds; a [time.Duration] is a 64-bit count of
    nanoseconds. *)
Inductive Time : Type :=
| ZeroTime
| At (ns : Z).

Definition maxDuration : Z := 2 ^ 63 - 1.
Definition minDuration : Z := - 2 ^ 63.

(** [time.Since(t)] when the clock reads [now]: the difference, kept inside
    the range of a Duration; the zero time is further back than that. *)
Definition Since (now : Z) (t : Time) : Z :=
  match t with
  | ZeroTime => maxDuration
  | At ns => Z.max minDuration (Z.min maxDuration (now - ns))
  end.

(** The slices and the policy fields of [Pool]; the two drawing fields
    (spriteSheet, drawScale) are read and written by the drawing code only. *)
Record Pool : Type := mkPool {
  particles : list ptr;
  active : list bool;
  lifetimes : list Time;
  sprites : list Z;
  maxLifetime : Z;
  enforceLifetime : bool;
  fadeOverLifetime : bool;
  disableCollision : bool
}.

(** [NewPool(n)]; a length is a natural number. *)
Definition NewPool (n : nat) : Pool :=
  {| particles := replicate n None;
     active := replicate n false;
     lifetimes := replicate n ZeroTime;
     sprites := replicate n 0%Z;
     maxLifetime := 0;
     enforceLifetime := false;
     fadeOverLifetime := false;
     disableCollision := false |}.

(** The pool with its four slices replaced. *)
Definition with_slices (p : Pool) (ps : list ptr) (act : list bool)
  (lts : list Time) (sps : list Z) : Pool :=
  {| particles := ps; active := act; lifetimes := lts; sprites := sps;
     maxLifetime := maxLifetime p;
     enforceLifetime := enforceLifetime p;
     fadeOverLifetime := fadeOverLifetime p;
     disableCollision := disableCollision p |}.

(** The particle literal of [Activate] and [appendNew]. *)
Definition newParticle (pos rap : Vector) (angPos angVel mass radius : float64)
  : Particle :=
  {| Pos := pos; Rap := rap; Vel := Vector0; Acc := Vector0;
     AngPos := angPos; AngVel := angVel; Mass := mass; Radius := radius;
     Gamma := Fin 1; Clock := Fin 0 |}.

Module Pool.

Definition DisableCollision (p : Pool) : Pool :=
  {| particles := particles p; active := active p;
     lifetimes := lifetimes p; sprites := sprites p;
     maxLifetime := maxLifetime p;
     enforceLifetime := enforceLifetime p;
     fadeOverLifetime := fadeOverLifetime p;
     disableCollision := true |}.

Definition EnforceLifetime (p : Pool) (lifetime : Z) : Pool :=
  {| particles := particles p; active := active p;
     lifetimes := lifetimes p; sprites := sprites p;
     maxLifetime := lifetime;
     enforceLifetime := true;
     fadeOverLifetime := fadeOverLifetime p;
     disableCollision := disableCollision p |}.

Definition FadeOverLifetime (p : Pool) : Pool :=
  {| particles := particles p; active := active p;
     lifetimes := lifetimes p; sprites := sprites p;
     maxLifetime := maxLifetime p;
     enforceLifetime := enforceLifetime p;
     fadeOverLifetime := true;
     disableCollision := disableCollision p |}.

(** [p.Deactivate(i)]: the pool afterwards and the boolean returned. *)
Definition Deactivate (p : Pool) (i : nat) : option (Pool * bool) :=
  a ← active p !! i;
  if a : bool then
    act ← store_at (active p) i false;
    ps ← store_at (particles p) i None;
    Some (with_slices p ps act (lifetimes p) (sprites p), true)
  else Some (p, false).

Definition appendNew (p : Pool) (pos rap : Vector)
  (angPos angVel mass radius : float64) (sprite : Z) (now : Z) (h : heap)
  : Pool * heap :=
  let act := active p ++ [true] in
  let lts := lifetimes p ++ [At now] in
  let sps := sprites p ++ [sprite] in
  let '(l, h') := alloc (newParticle pos rap angPos angVel mass radius) h in
  (with_slices p (particles p ++ [Some l]) act lts sps, h').

(** The search loop of [Activate] over the indices [idxs] still to visit,
    then the call of [appendNew]. *)
Fixpoint Activate_from (idxs : list nat) (p : Pool) (pos rap : Vector)
  (angPos angVel mass radius : float64) (sprite : Z) (now : Z) (h : heap)
  : option (Pool * heap) :=
  match idxs with
  | [] => Some (appendNew p pos rap angPos angVel mass radius sprite now h)
  | i :: rest =>
      a ← active p !! i;
      if negb a then
        act ← store_at (active p) i true;
        lts ← store_at (lifetimes p) i (At now);
        sps ← store_at (sprites p) i sprite;
        let '(l, h') := alloc (newParticle pos rap angPos angVel mass radius) h in
        ps ← store_at (particles p) i (Some l);
        Some (with_slices p ps act lts sps, h')
      else Activate_from rest p pos rap angPos angVel mass radius sprite now h
  end.

(** [p.Activate(...)] when [time.Now()] reads [now]. *)
Definition Activate (p : Pool) (pos rap : Vector)
  (angPos angVel mass radius : float64) (sprite : Z) (now : Z) (h : heap)
  : option (Pool * heap) :=
  Activate_from (seq 0 (length (particles p)))
    p pos rap angPos angVel mass radius sprite now h.

(** One turn of the selection loop of [Update] and [UpdateWith] for slot
    [i]; [clock i] is what the clock reads when [time.Since] is called
    for that slot. *)
Definition select_step (clock : nat → Z) (i : nat) (st : Pool * list ptr)
  : option (Pool * list ptr) :=
  let '(p, activeParticles) := st in
  enforce ← (if enforceLifetime p then active p !! i else Some false);
  expired ← (if enforce : bool then
               t ← lifetimes p !! i;
               Some (maxLifetime p <? Since (clock i) t)%Z
             else Some false);
  if expired : bool then
    '(p', _) ← Deactivate p i;
    Some (p', activeParticles)
  else
    a ← active p !! i;
    if a : bool then
      q ← particles p !! i;
      Some (p, activeParticles ++ [q])
    else Some (p, activeParticles).

Definition select (p : Pool) (clock : nat → Z) : option (Pool * list ptr) :=
  forM (select_step clock) (seq 0 (length (particles p))) (p, []).

Definition Update (p : Pool) (frame : Vector) (c dt : float64)
  (clock : nat → Z) (h : heap) : option (Pool * heap) :=
  '(p', activeParticles) ← select p clock;
  h ← UpdatePositions activeParticles frame c dt h;
  h ← (if disableCollision p' then Some h
       else SolveCollisions activeParticles frame c h);
  Some (p', h).

Definition UpdateWith (p : Pool) (frame : Vector) (c dt : float64)
  (others : list ptr) (clock : nat → Z) (h : heap) : option (Pool * heap) :=
  '(p', activeParticles) ← select p clock;
  h ← UpdatePositions activeParticles frame c dt h;
  let activeParticles := activeParticles ++ others in
  h ← (if disableCollision p' then Some h
       else SolveCollisions activeParticles frame c h);
  Some (p', h).

Definition Reset_step (i : nat) (p : Pool) : option Pool :=
  a ← active p !! i;
  if a : bool then
    ps ← store_at (particles p) i None;
    act ← store_at (active p) i false;
    lts ← store_at (lifetimes p) i ZeroTime;
    sps ← store_at (sprites p) i 0%Z;
    Some (with_slices p ps act lts sps)
  else Some p.

Definition Reset (p : Pool) : option Pool :=
  forM Reset_step (seq 0 (length (particles p))) p.

(** One turn of the inner loop of [PoolCollisions] for the slots [i] of
    [p] and [j] of [other]. *)
Definition PoolCollisions_step (p other : Pool) (frame : Vector) (h : heap)
  (i j : nat) (out : list (nat * nat)) : option (list (nat * nat)) :=
  b ← active other !! j;
  if b : bool then
    pi ← particles p !! i;
    pj ← particles other !! j;
    x ← load pi h;
    y ← load pj h;
    Some (if Particle.CheckCollision x y frame then out ++ [(i, j)] else out)
  else Some out.

Definition PoolCollisions (p other : Pool) (frame : Vector) (h : heap)
  : option (list (nat * nat)) :=
  forM (fun i out =>
          a ← active p !! i;
          if a : bool then
            forM (PoolCollisions_step p other frame h i)
                 (seq 0 (length (particles other))) out
          else Some out)
       (seq 0 (length (particles p))) [].

Definition Collisions_step (p : Pool) (particle : ptr) (frame : Vector)
  (h : heap) (i : nat) (out : list nat) : option (list nat) :=
  a ← active p !! i;
  if a : bool then
    pi ← particles p !! i;
    x ← load pi h;
    y ← load particle h;
    Some (if Particle.CheckCollision x y frame then out ++ [i] else out)
  else Some out.

Definition Collisions (p : Pool) (particle : ptr) (frame : Vector) (h : heap)
  : option (list nat) :=
  forM (Collisions_step p particle frame h) (seq 0 (length (particles p))) [].

Definition Active_step (p : Pool) (i : nat) (out : list ptr)
  : option (list ptr) :=
  a ← active p !! i;
  if a : bool then
    q ← particles p !! i;
    Some (out ++ [q])
  else Some out.

Definition Active (p : Pool) : option (list ptr) :=
  forM (Active_step p) (seq 0 (length (particles p))) [].

(** One turn of the loop of [Closest]; the state is the pair of [cPos]
    and [minSqrDist]. *)
Definition Closest_step (p : Pool) (pos : Vector) (h : heap) (i : nat)
  (st : Vector * float64) : option (Vector * float64) :=
  let '(cPos, minSqrDist) := st in
  a ← active p !! i;
  if a : bool then
    q ← particles p !! i;
    x ← load q h;
    let sqrDist := SqrDist (Pos x) pos in
    if (sqrDist <? minSqrDist)%f64 then Some (Pos x, sqrDist)
    else Some (cPos, minSqrDist)
  else Some (cPos, minSqrDist).

Definition Closest (p : Pool) (pos : Vector) (h : heap) : option Vector :=
  st ← forM (Closest_step p pos h) (seq 0 (length (particles p)))
         (Vector0, math.MaxFloat64);
  Some st.1.

End Pool.

(** ** game.go: the speed of light *)

(** [time.Second], in nanoseconds, and [d.Seconds()] of a Duration:
    [float64(d / Second) + float64(d % Second) / 1e9]. *)
Definition Second : Z := 1000000000.

Definition Seconds (d : Z) : float64 :=
  (Fin (IZR (Z.quot d Second)) + Fin (IZR (Z.rem d Second)) / Fin 1e9)%f64.

Module Game.

(** The fields of [Game] that the speed of light depends on. *)
Record Game : Type := mkGame {
  c : float64;
  cLerpInitial : float64;
  cLerpTarget : float64;
  cLerpStart : Time;
  cLerpTime : Z;
  cLerp : bool
}.

(** [new(Game)]: every field has its zero value. *)
Definition zero : Game :=
  {| c := Fin 0; cLerpInitial := Fin 0; cLerpTarget := Fin 0;
     cLerpStart := ZeroTime; cLerpTime := 0; cLerp := false |}.

Definition Init (g : Game) : Game :=
  {| c := Fin 299792458; cLerpInitial := cLerpInitial g;
     cLerpTarget := cLerpTarget g; cLerpStart := cLerpStart g;
     cLerpTime := Second * 2; cLerp := cLerp g |}.

Definition startGame (g : Game) : Game :=
  {| c := Fin 299792458; cLerpInitial := cLerpInitial g;
     cLerpTarget := cLerpTarget g; cLerpStart := cLerpStart g;
     cLerpTime := cLerpTime g; cLerp := cLerp g |}.

(** [g.beginCLerp(target)] when [time.Now()] reads [now]. *)
Definition beginCLerp (g : Game) (target : float64) (now : Z) : Game :=
  {| c := c g; cLerpInitial := c g; cLerpTarget := target;
     cLerpStart := At now; cLerpTime := cLerpTime g; cLerp := true |}.

(** What [gameUpdate] does to the speed of light for one bullet that hit
    an asteroid: [g.beginCLerp(g.c/8 + 10.0)]. *)
Definition hit (g : Game) (now : Z) : Game :=
  beginCLerp g (c g / Fin 8 + Fin 10) now.

(** The interpolation at the end of [gameUpdate]; [now1] and [now2] are
    what the clock reads at the two calls of [time.Since]. *)
Definition interpolate (g : Game) (now1 now2 : Z) : Game :=
  if cLerp g then
    let c1 :=
      Kinematics.mapRange (Seconds (Since now1 (cLerpStart g))) (Fin 0)
        (Seconds (cLerpTime g)) (cLerpInitial g) (cLerpTarget g) in
    if (Seconds (cLerpTime g) <? Seconds (Since now2 (cLerpStart g)))%f64 then
      {| c := cLerpTarget g; cLerpInitial := cLerpInitial g;
         cLerpTarget := cLerpTarget g; cLerpStart := cLerpStart g;
         cLerpTime := cLerpTime g; cLerp := false |}
    else
      {| c := c1; cLerpInitial := cLerpInitial g;
         cLerpTarget := cLerpTarget g; cLerpStart := cLerpStart g;
         cLerpTime := cLerpTime g; cLerp := cLerp g |}
  else g.

End Game.

(** * The vocabulary of the properties *)

(** [v == w] on two vectors: both coordinates compare equal. *)
Definition Vector_eqb (v w : Vector) : bool :=
  (X v =? X w)%f64 && (Y v =? Y w)%f64.

(** A vector whose two coordinates are numbers. *)
Definition finiteV (v : Vector) : Prop :=
  ∃ x y : R, v = mkVector (Fin x) (Fin y).

(** The four slices of a pool have one length. *)
Definition same_length (p : Pool) : Prop :=
  length (active p) = length (particles p) ∧
  length (lifetimes p) = length (particles p) ∧
  length (sprites p) = length (particles p).

(** Slot [k] is the lowest-indexed inactive slot. *)
Definition lowest_inactive (p : Pool) (k : nat) : Prop :=
  active p !! k = Some false ∧ ∀ j, j < k → active p !! j = Some true.

(** No slot is inactive. *)
Definition full (p : Pool) : Prop :=
  ∀ j, j < length (particles p) → active p !! j = Some true.

(** Slot [k] filled by an activation: the pointer [l], active, stamped
    [now], tagged [sprite]; every other slot as it was. *)
Definition fill_slot (p : Pool) (k l : nat) (now sprite : Z) : Pool :=
  with_slices p
    (<[k := Some l]> (particles p))
    (<[k := true]> (active p))
    (<[k := At now]> (lifetimes p))
    (<[k := sprite]> (sprites p)).

(** One more slot at the end, all four slices grown by one. *)
Definition grow_slot (p : Pool) (l : nat) (now sprite : Z) : Pool :=
  with_slices p
    (particles p ++ [Some l])
    (active p ++ [true])
    (lifetimes p ++ [At now])
    (sprites p ++ [sprite]).

(** A pointer that is not nil and points into the heap. *)
Definition valid_ptr (h : gmap nat Particle) (q : option nat) : Prop :=
  ∃ l, q = Some l ∧ l ∈ dom h.

Definition active_at (p : Pool) (i : nat) : bool := default false (active p !! i).

Definition ptr_at (p : Pool) (i : nat) : option nat := default None (particles p !! i).

(** Slot [i] is active and, in a pool that enforces a lifetime, the time
    since its activation exceeds the maximum when the slot is examined. *)
Definition expired (p : Pool) (clock : nat → Z) (i : nat) : bool :=
  enforceLifetime p && active_at p i &&
  match lifetimes p !! i with
  | Some t => (maxLifetime p <? Since (clock i) t)%Z
  | None => false
  end.

(** Slot [i] is active and stays so. *)
Definition kept (p : Pool) (clock : nat → Z) (i : nat) : bool :=
  active_at p i && negb (expired p clock i).

(** The pointers of the kept slots among [idxs], in that order. *)
Definition working_set_from (p : Pool) (clock : nat → Z) (idxs : list nat)
  : list (option nat) :=
  flat_map (λ i, if kept p clock i then [ptr_at p i] else []) idxs.

Definition working_set (p : Pool) (clock : nat → Z) : list (option nat) :=
  working_set_from p clock (seq 0 (length (particles p))).

(** Slot [i] marked inactive and its pointer cleared. *)
Definition deact (p : Pool) (i : nat) : Pool :=
  with_slices p (<[i := None]> (particles p)) (<[i := false]> (active p))
    (lifetimes p) (sprites p).

(** [q'] is [q] with the expired slots among [a, a+m) deactivated. *)
Definition expiry_of (q : Pool) (clock : nat → Z) (a m : nat) (q' : Pool) : Prop :=
  lifetimes q' = lifetimes q ∧ sprites q' = sprites q ∧
  maxLifetime q' = maxLifetime q ∧ enforceLifetime q' = enforceLifetime q ∧
  fadeOverLifetime q' = fadeOverLifetime q ∧
  disableCollision q' = disableCollision q ∧
  length (particles q') = length (particles q) ∧
  length (active q') = length (active q) ∧
  ∀ i,
    (a ≤ i < a + m →
       active q' !! i = (λ b, b && negb (expired q clock i)) <$> active q !! i ∧
       particles q' !! i
       = (λ x, if expired q clock i then None else x) <$> particles q !! i) ∧
    (¬ a ≤ i < a + m →
       active q' !! i = active q !! i ∧ particles q' !! i = particles q !! i).

(** One call on a pool and the heap it shares with the rest of the game. *)
Inductive step : Pool * gmap nat Particle → Pool * gmap nat Particle → Prop :=
| step_Activate p h pos rap angPos angVel mass radius sprite now p' h' :
    Pool.Activate p pos rap angPos angVel mass radius sprite now h = Some (p', h') →
    step (p, h) (p', h')
| step_Deactivate p h i p' b :
    i < length (particles p) →
    Pool.Deactivate p i = Some (p', b) →
    step (p, h) (p', h)
| step_Update p h frame c dt clock p' h' :
    Pool.Update p frame c dt clock h = Some (p', h') →
    step (p, h) (p', h')
| step_UpdateWith p h frame c dt others clock p' h' :
    Pool.UpdateWith p frame c dt others clock h = Some (p', h') →
    step (p, h) (p', h')
| step_Reset p h p' :
    Pool.Reset p = Some p' →
    step (p, h) (p', h)
| step_DisableCollision p h :
    step (p, h) (Pool.DisableCollision p, h)
| step_EnforceLifetime p h lifetime :
    step (p, h) (Pool.EnforceLifetime p lifetime, h)
| step_FadeOverLifetime p h :
    step (p, h) (Pool.FadeOverLifetime p, h)
| step_other p h l x :
    (* the rest of the game allocates or writes a particle *)
    step (p, h) (p, <[l := x]> h).

Inductive reachable : Pool * gmap nat Particle → Prop :=
| reach_NewPool n h : reachable (NewPool n, h)
| reach_step s s' : reachable s → step s s' → reachable s'.

(** An active slot holds a pointer. *)
Definition active_non_nil (p : Pool) : Prop :=
  ∀ i, active p !! i = Some true → ∃ l, particles p !! i = Some (Some l).

(** Every pointer of the pool points into the heap. *)
Definition ptrs_valid (p : Pool) (h : gmap nat Particle) : Prop :=
  ∀ i l, particles p !! i = Some (Some l) → l ∈ dom h.

Definition pool_ok (s : Pool * gmap nat Particle) : Prop :=
  same_length s.1 ∧ active_non_nil s.1 ∧ ptrs_valid s.1 s.2.

(** No two slots hold the same pointer. *)
Definition ptrs_distinct (p : Pool) : Prop :=
  ∀ i j l, particles p !! i = Some (Some l) → particles p !! j = Some (Some l) → i = j.

(** Every pointer of [p'] is the pointer [p] holds in the same slot. *)
Definition thinned (p p' : Pool) : Prop :=
  ∀ i l, particles p' !! i = Some (Some l) → particles p !! i = Some (Some l).

(** The tanh mapping of a rapidity to a velocity: magnitude
    [c*tanh(|rap|/c)] in the direction of [rap]. *)
Definition velocity_of_rapidity (c : float64) (rap : Vector) : Vector :=
  SetMag rap (c * math.Tanh (Mag rap / c)).

(** The radius of [p] along [axis] that [CheckCollision] uses. *)
Definition effective_radius (p : Particle) (axis frame : Vector) : float64 :=
  let r :=
    (Particle.ScaledRadius p *
     (Fin 1 - Dot (Unit (Sub (Vel p) frame)) axis * (Fin 1 - Fin 1 / Gamma p)))%f64 in
  if math.IsNaN r then Particle.ScaledRadius p else r.

(** What the body of [SolveCollisions] makes of two records held at
    different locations. *)
Definition bounce (a b : Particle) (c : float64) : Particle * Particle :=
  let distance := Mag (Sub (Pos a) (Pos b)) in
  let axis := Unit (Sub (Pos a) (Pos b)) in
  let stepSize :=
    (Particle.ScaledRadius a + Particle.ScaledRadius b - distance)%f64 in
  let a1 := set_Pos a (Add (Pos a) (Scl axis (Fin (1 / 2) * stepSize))) in
  let b1 := set_Pos b (Sub (Pos b) (Scl axis (Fin (1 / 2) * stepSize))) in
  let momentum := Add (Particle.Momentum a1) (Particle.Momentum b1) in
  let CoM := Scl momentum (Fin 1 / (Particle.MassRel a1 + Particle.MassRel b1)) in
  let iVCoM :=
    Scl (Sub (Vel a1) CoM) (Fin 1 / (Fin 1 - Dot (Vel a1) CoM / (c * c))) in
  let jVCoM :=
    Scl (Sub (Vel b1) CoM) (Fin 1 / (Fin 1 - Dot (Vel b1) CoM / (c * c))) in
  let iv :=
    Scl (Add (Neg iVCoM) CoM) (Fin 1 / (Fin 1 - Dot iVCoM CoM / (c * c))) in
  let jv :=
    Scl (Add (Neg jVCoM) CoM) (Fin 1 / (Fin 1 - Dot jVCoM CoM / (c * c))) in
  (set_Vel (set_Rap a1 (SetMag iv (c * math.Tanh (Mag iv / c)))) iv,
   set_Vel (set_Rap b1 (SetMag jv (c * math.Tanh (Mag jv / c)))) jv).

(** The velocity of the centre of momentum of two particles, and the two
    frame changes of [SolveCollisions]: into that frame, and back from it
    with the velocity negated. *)
Definition center_of_momentum (x y : Particle) : Vector :=
  Scl (Add (Particle.Momentum x) (Particle.Momentum y))
      (Fin 1 / (Particle.MassRel x + Particle.MassRel y)).

Definition to_frame (v CoM : Vector) (c : float64) : Vector :=
  Scl (Sub v CoM) (Fin 1 / (Fin 1 - Dot v CoM / (c * c))).

Definition from_frame (w CoM : Vector) (c : float64) : Vector :=
  Scl (Add (Neg w) CoM) (Fin 1 / (Fin 1 - Dot w CoM / (c * c))).

(** The ship at the start of a game: [new(Particle)] with mass and radius 1. *)
Definition ship : Particle :=
  mkParticle Vector0 Vector0 Vector0 Vector0
    (Fin 0) (Fin 0) (Fin 1) (Fin 1) (Fin 0) (Fin 0).

(** Two particles of speed 24 under [c = 25] (gamma 25/7 in the frame at
    rest), half a unit apart, moving side by side and towards each other.
    The collision code does not read the rapidity fields. *)
Definition fastA : Particle :=
  mkParticle (mkVector (Fin 0) (Fin 0)) (mkVector (Fin (96 / 5)) (Fin (72 / 5)))
    (mkVector (Fin (96 / 5)) (Fin (72 / 5))) Vector0
    (Fin 0) (Fin 0) (Fin 1) (Fin 1) (Fin (25 / 7)) (Fin 0).

Definition fastB : Particle :=
  mkParticle (mkVector (Fin 0) (Fin (1 / 2)))
    (mkVector (Fin (96 / 5)) (Fin (- (72 / 5))))
    (mkVector (Fin (96 / 5)) (Fin (- (72 / 5)))) Vector0
    (Fin 0) (Fin 0) (Fin 1) (Fin 1) (Fin (25 / 7)) (Fin 0).

(** A particle of speed 6 under [c = 10] (gamma 5/4) moving away from a
    particle at rest, 0.6 apart. *)
Definition movingP : Particle :=
  mkParticle (mkVector (Fin (3 / 5)) (Fin 0)) (mkVector (Fin 6) (Fin 0))
    (mkVector (Fin 6) (Fin 0)) Vector0
    (Fin 0) (Fin 0) (Fin 1) (Fin 1) (Fin (5 / 4)) (Fin 0).

Definition restingQ : Particle :=
  mkParticle Vector0 Vector0 Vector0 Vector0
    (Fin 0) (Fin 0) (Fin 1) (Fin 1) (Fin 1) (Fin 0).

(** Two particles of equal mass and of radius 1 and 2 meeting head-on at
    speed 6 under [c = 10] (gamma 5/4), 0.8 apart. *)
Definition headP : Particle :=
  mkParticle (mkVector (Fin (4 / 5)) (Fin 0)) (mkVector (Fin (- 6)) (Fin 0))
    (mkVector (Fin (- 6)) (Fin 0)) Vector0
    (Fin 0) (Fin 0) (Fin 1) (Fin 1) (Fin (5 / 4)) (Fin 0).

Definition headQ : Particle :=
  mkParticle (mkVector (Fin 0) (Fin 0)) (mkVector (Fin 6) (Fin 0))
    (mkVector (Fin 6) (Fin 0)) Vector0
    (Fin 0) (Fin 0) (Fin 1) (Fin 2) (Fin (5 / 4)) (Fin 0).


(** The fields of a record that no collision writes. *)
Definition same_but_motion (x x' : Particle) : Prop :=
  Acc x' = Acc x ∧ AngPos x' = AngPos x ∧ AngVel x' = AngVel x ∧
  Mass x' = Mass x ∧ Radius x' = Radius x ∧ Gamma x' = Gamma x ∧
  Clock x' = Clock x.

(** How often the pointer to [l] is listed in [ps]. *)
Definition listed (l : nat) (ps : list (option nat)) : nat :=
  length (filter (λ q, q = Some l) ps).

(** Slot [i] of [q'] is slot [i] of [q] after [Reset]: inactive, and
    cleared when it was active. *)
Definition reset_slot_of (q q' : Pool) (i : nat) : Prop :=
  active q' !! i = (λ _, false) <$> active q !! i ∧
  particles q' !! i = (λ x, if active_at q i then None else x) <$> particles q !! i ∧
  lifetimes q' !! i = (λ t, if active_at q i then ZeroTime else t) <$> lifetimes q !! i ∧
  sprites q' !! i = (λ s, if active_at q i then 0%Z else s) <$> sprites q !! i.

(** Slot [i] is the same in [q] and [q']. *)
Definition same_slot (q q' : Pool) (i : nat) : Prop :=
  active q' !! i = active q !! i ∧ particles q' !! i = particles q !! i ∧
  lifetimes q' !! i = lifetimes q !! i ∧ sprites q' !! i = sprites q !! i.

(** The policy fields and the capacity are the same in [q] and [q']. *)
Definition same_policy (q q' : Pool) : Prop :=
  maxLifetime q' = maxLifetime q ∧ enforceLifetime q' = enforceLifetime q ∧
  fadeOverLifetime q' = fadeOverLifetime q ∧
  disableCollision q' = disableCollision q ∧
  length (particles q') = length (particles q).

(** An inactive slot holds nil. *)
Definition inactive_nil (p : Pool) : Prop :=
  ∀ i, active p !! i = Some false → particles p !! i = Some None.

(** The record that slot [i] of [p] points to. *)
Definition record_at (p : Pool) (h : gmap nat Particle) (i : nat) : option Particle :=
  l ← ptr_at p i; h !! l.

(** Slot [i] of [p] is active and its particle collides with [y]. *)
Definition hits (p : Pool) (h : gmap nat Particle) (frame : Vector) (y : Particle)
  (i : nat) : bool :=
  active_at p i &&
  match record_at p h i with
  | Some x => Particle.CheckCollision x y frame
  | None => false
  end.

(** Slot [ij.1] of [p] and slot [ij.2] of [other] are active and the
    particle of the first collides with the particle of the second. *)
Definition pool_hits (p other : Pool) (h : gmap nat Particle) (frame : Vector)
  (ij : nat * nat) : bool :=
  active_at other ij.2 &&
  match record_at other h ij.2 with
  | Some y => hits p h frame y ij.1
  | None => false
  end.

(** The pointers of the active slots, in slot order. *)
Definition active_ptrs (p : Pool) : list (option nat) :=
  flat_map (λ i, if active_at p i then [ptr_at p i] else [])
    (seq 0 (length (particles p))).

(** The squared distance from [pos] to the particle of slot [i]. *)
Definition sqr_dist_at (p : Pool) (h : gmap nat Particle) (pos : Vector) (i : nat)
  : float64 :=
  match record_at p h i with
  | Some x => SqrDist (Pos x) pos
  | None => NaN
  end.

(** What [Closest] holds after the slots below [k]: nothing yet, or the
    position and squared distance of slot [i], the first of the nearest. *)
Definition nearest_below (p : Pool) (h : gmap nat Particle) (pos : Vector)
  (k : nat) (st : Vector * float64) : Prop :=
  (st = (Vector0, math.MaxFloat64) ∧
   ∀ j, j < k → active p !! j = Some true →
     (sqr_dist_at p h pos j <? math.MaxFloat64)%f64 = false) ∨
  (∃ i x, i < k ∧ active p !! i = Some true ∧ record_at p h i = Some x ∧
     st = (Pos x, sqr_dist_at p h pos i) ∧
     (sqr_dist_at p h pos i <? math.MaxFloat64)%f64 = true ∧
     (∀ j, j < k → active p !! j = Some true →
        (sqr_dist_at p h pos j <? sqr_dist_at p h pos i)%f64 = false) ∧
     (∀ j, j < i → active p !! j = Some true →
        (sqr_dist_at p h pos j =? sqr_dist_at p h pos i)%f64 = false)).

(** The calls that write the speed of light, with the last reading of the
    monotonic clock: a later reading is never smaller. *)
Inductive game_step : Game.Game * Z → Game.Game * Z → Prop :=
| game_startGame g t : game_step (g, t) (Game.startGame g, t)
| game_hit g t now : (t ≤ now)%Z → game_step (g, t) (Game.hit g now, now)
| game_interpolate g t now1 now2 :
    (t ≤ now1)%Z → (now1 ≤ now2)%Z →
    game_step (g, t) (Game.interpolate g now1 now2, now2).

Inductive game_reachable : Game.Game * Z → Prop :=
| game_Init t : game_reachable (Game.Init Game.zero, t)
| game_next s s' : game_reachable s → game_step s s' → game_reachable s'.

(** The speed of light and, while an interpolation runs, its two ends lie
    in the interval (11, 299792458], and the interpolation started at a
    reading of the clock. *)
Definition light_ok (s : Game.Game * Z) : Prop :=
  Game.cLerpTime s.1 = (Second * 2)%Z ∧
  (∃ x : R, Game.c s.1 = Fin x ∧ (11 < x <= 299792458)%R) ∧
  (Game.cLerp s.1 = true →
   ∃ (t0 : Z) (a b : R),
     Game.cLerpStart s.1 = At t0 ∧ (t0 ≤ s.2)%Z ∧
     Game.cLerpInitial s.1 = Fin a ∧ Game.cLerpTarget s.1 = Fin b ∧
     (11 < a <= 299792458)%R ∧ (11 < b <= 299792458)%R).

(** A pool of one slot, active, whose particle is the record at location 0. *)
Definition one_slot : Pool :=
  with_slices (NewPool 1) [Some 0] [true] [At 0] [0%Z].

(** A pool of one slot in use, on a heap that is empty at first: the
    record [shot] is activated at time 7 into the only slot
    ([one_active]) and once more at time 8, which appends a slot
    ([two_active]); then slot 0 is deactivated ([one_left]). *)
Definition shot : Particle :=
  newParticle Vector0 (mkVector (Fin 5) (Fin 0)) (Fin 0) (Fin 0) (Fin 1) (Fin 1).

Definition first_shot : nat := fresh (dom (∅ : gmap nat Particle)).

Definition one_active : Pool * gmap nat Particle :=
  (fill_slot (NewPool 1) 0 first_shot 7 0, <[first_shot := shot]> ∅).

Definition second_shot : nat := fresh (dom one_active.2).

Definition two_active : Pool * gmap nat Particle :=
  (grow_slot one_active.1 second_shot 8 0, <[second_shot := shot]> one_active.2).

Definition one_left : Pool * gmap nat Particle :=
  (with_slices two_active.1 (<[0 := None]> (particles two_active.1))
     (<[0 := false]> (active two_active.1)) (lifetimes two_active.1)
     (sprites two_active.1),
   two_active.2).

(** * Properties *)

Arguments fadd : simpl never.
Arguments fsub : simpl never.
Arguments fmul : simpl never.
Arguments fdiv : simpl never.
Arguments fneg : simpl never.
Arguments fltb : simpl never.
Arguments feqb : simpl never.
Arguments math.Sqrt : simpl never.
Arguments math.Tanh : simpl never.

(** ** Arithmetic of [float64] on numbers *)

Section Float64.

Local Open Scope R_scope.

Lemma fadd_Fin (x y : R) : fadd (Fin x) (Fin y) = Fin (x + y).
Proof. reflexivity. Qed.

Lemma fsub_Fin (x y : R) : fsub (Fin x) (Fin y) = Fin (x - y).
Proof. reflexivity. Qed.

Lemma fmul_Fin (x y : R) : fmul (Fin x) (Fin y) = Fin (x * y).
Proof. reflexivity. Qed.

Lemma fneg_Fin (x : R) : fneg (Fin x) = Fin (- x).
Proof. reflexivity. Qed.

Lemma Tanh_Fin (x : R) : math.Tanh (Fin x) = Fin (tanh x).
Proof. reflexivity. Qed.

Lemma fdiv_Fin (x y : R) : y ≠ 0 → fdiv (Fin x) (Fin y) = Fin (x / y).
Proof. intros Hy. unfold fdiv. destruct (Req_dec_T y 0); [contradiction | reflexivity]. Qed.

Lemma fdiv_zero (x : R) : fdiv (Fin x) (Fin 0) = NaN.
Proof. unfold fdiv. destruct (Req_dec_T 0 0); [reflexivity | contradiction]. Qed.

Lemma Sqrt_Fin (x : R) : 0 <= x → math.Sqrt (Fin x) = Fin (sqrt x).
Proof. intros Hx. unfold math.Sqrt. destruct (Rlt_dec x 0); [lra | reflexivity]. Qed.

Lemma fltb_Fin_true (x y : R) : x < y → fltb (Fin x) (Fin y) = true.
Proof. intros H. unfold fltb. destruct (Rlt_dec x y); [reflexivity | contradiction]. Qed.

Lemma fltb_Fin_false (x y : R) : y <= x → fltb (Fin x) (Fin y) = false.
Proof. intros H. unfold fltb. destruct (Rlt_dec x y); [lra | reflexivity]. Qed.

Lemma fltb_true_inv (a b : float64) :
  fltb a b = true → ∃ x y, a = Fin x ∧ b = Fin y ∧ x < y.
Proof.
  destruct a as [x|], b as [y|]; unfold fltb; try discriminate.
  destruct (Rlt_dec x y); [eauto | discriminate].
Qed.

Lemma feqb_Fin_true (x y : R) : x = y → feqb (Fin x) (Fin y) = true.
Proof. intros H. unfold feqb. destruct (Req_dec_T x y); [reflexivity | contradiction]. Qed.

Lemma feqb_Fin_false (x y : R) : x ≠ y → feqb (Fin x) (Fin y) = false.
Proof. intros H. unfold feqb. destruct (Req_dec_T x y); [contradiction | reflexivity]. Qed.

Lemma feqb_true_inv (a b : float64) :
  feqb a b = true → ∃ x, a = Fin x ∧ b = Fin x.
Proof.
  destruct a as [x|], b as [y|]; unfold feqb; try discriminate.
  destruct (Req_dec_T x y); [subst; eauto | discriminate].
Qed.

Lemma sumsq_nonneg (x y : R) : 0 <= x * x + y * y.
Proof. nra. Qed.

Lemma Mag_Fin (x y : R) : Mag (mkVector (Fin x) (Fin y)) = Fin (sqrt (x * x + y * y)).
Proof. unfold Mag. simpl. rewrite !fmul_Fin, fadd_Fin. apply Sqrt_Fin, sumsq_nonneg. Qed.

Lemma Mag_x (x : R) : Mag (mkVector (Fin x) (Fin 0)) = Fin (Rabs x).
Proof.
  rewrite Mag_Fin. f_equal.
  replace (x * x + 0 * 0) with (Rsqr x) by (unfold Rsqr; ring).
  apply sqrt_Rsqr_abs.
Qed.

Lemma Vector_eqb_inv (v w : Vector) :
  Vector_eqb v w = true → ∃ x y, v = mkVector (Fin x) (Fin y) ∧ w = v.
Proof.
  destruct v as [vx vy], w as [wx wy]. unfold Vector_eqb. simpl.
  intros H. apply andb_true_iff in H as [Hx Hy].
  apply feqb_true_inv in Hx as (x & -> & ->).
  apply feqb_true_inv in Hy as (y & -> & ->).
  eauto.
Qed.

Lemma Sub_self (x y : R) :
  Sub (mkVector (Fin x) (Fin y)) (mkVector (Fin x) (Fin y)) = Vector0.
Proof. unfold Sub, Vector0. simpl. rewrite !fsub_Fin. f_equal; f_equal; ring. Qed.

Lemma Mag_Vector0 : Mag Vector0 = Fin 0.
Proof. unfold Vector0. rewrite Mag_x. f_equal. apply Rabs_R0. Qed.

(** The Lorentz factor at speed zero. *)
Lemma Gamma_at_zero (c : R) : c ≠ 0 → Kinematics.Gamma (Fin 0) (Fin c) = Fin 1.
Proof.
  intros Hc. unfold Kinematics.Gamma.
  rewrite !fmul_Fin, fdiv_Fin by nra. rewrite fsub_Fin.
  replace (1 - 0 * 0 / (c * c)) with 1 by (field; exact Hc).
  rewrite Sqrt_Fin by lra. rewrite sqrt_1, fdiv_Fin by lra.
  f_equal. field.
Qed.

End Float64.

(** C10.  With a speed of light above zero and a particle velocity equal to
    the frame velocity, the relative speed is exactly 0, the Lorentz factor
    is exactly 1, the reference axis is 0, none of them NaN, and
    [Particle.Update] stores 1 in the Gamma field. *)
Theorem zero_relative_speed (p : Particle) (force frame : Vector) (c dt : float64) :
  (Fin 0 <? c)%f64 = true →
  Vector_eqb (Vel p) frame = true →
  Mag (Sub (Vel p) frame) = Fin 0 ∧
  Kinematics.Gamma (Mag (Sub (Vel p) frame)) c = Fin 1 ∧
  Particle.axis p frame = Fin 0 ∧
  Gamma (Particle.Update p force frame c dt) = Fin 1.
Proof.
  intros Hc Hv.
  apply fltb_true_inv in Hc as (z & cr & Hz & -> & Hlt).
  injection Hz as <-.
  apply Vector_eqb_inv in Hv as (x & y & Hvel & ->).
  assert (Hmag : Mag (Sub (Vel p) (Vel p)) = Fin 0).
  { rewrite Hvel, Sub_self. apply Mag_Vector0. }
  assert (Hg : Kinematics.Gamma (Mag (Sub (Vel p) (Vel p))) (Fin cr) = Fin 1).
  { rewrite Hmag. apply Gamma_at_zero. lra. }
  split; [exact Hmag |]. split; [exact Hg |]. split.
  - unfold Particle.axis, Angle. rewrite Hvel, Sub_self. simpl.
    unfold math.atan2.
    destruct (Req_dec_T 0 0) as [_|N]; [| contradiction].
    destruct (Rle_dec 0 0) as [_|N]; [reflexivity | lra].
  - unfold Particle.Update. simpl. exact Hg.
Qed.

Lemma zero_relative_speed_witness :
  let p := newParticle Vector0 (mkVector (Fin 5) (Fin 0)) (Fin 0) (Fin 0) (Fin 1) (Fin 1) in
  Kinematics.Gamma (Mag (Sub (Vel p) Vector0)) (Fin 10) = Fin 1 ∧
  Gamma (Particle.Update p Vector0 Vector0 (Fin 10) (Fin 1)) = Fin 1.
Proof.
  intros p.
  assert (Hc : (Fin 0 <? Fin 10)%f64 = true) by (apply fltb_Fin_true; lra).
  assert (Hv : Vector_eqb (Vel p) Vector0 = true).
  { unfold Vector_eqb; simpl. rewrite feqb_Fin_true by reflexivity. reflexivity. }
  destruct (zero_relative_speed p Vector0 Vector0 (Fin 10) (Fin 1) Hc Hv)
    as (_ & Hg & _ & Hu).
  split; [exact Hg | exact Hu].
Defined.

(** ** Pools: the slot policy *)

Lemma store_at_Some {A : Type} (l : list A) (i : nat) (x : A) :
  i < length l → store_at l i x = Some (<[i := x]> l).
Proof. intros H. unfold store_at. case_decide; [reflexivity | lia]. Qed.

Lemma fresh_not_in_heap (h : gmap nat Particle) : fresh (dom h) ∉ dom h.
Proof. apply is_fresh. Qed.

Lemma same_length_lookup_active (p : Pool) (i : nat) :
  same_length p → i < length (particles p) → ∃ a, active p !! i = Some a.
Proof.
  intros (Ha & _ & _) Hi.
  destruct (lookup_lt_is_Some_2 (active p) i) as [a E]; [lia | eauto].
Qed.

(** A pool has a lowest inactive slot or is full. *)
Lemma lowest_inactive_or_full (p : Pool) :
  same_length p → (∃ k, k < length (particles p) ∧ lowest_inactive p k) ∨ full p.
Proof.
  intros Hlen.
  assert (H : ∀ n, n ≤ length (particles p) →
    (∃ k, k < n ∧ lowest_inactive p k) ∨ (∀ j, j < n → active p !! j = Some true)).
  { induction n as [|n IH]; intros Hn.
    - right. intros j Hj. lia.
    - destruct IH as [(k & Hk & Hlow) | Hall]; [lia | |].
      + left. exists k. split; [lia | exact Hlow].
      + destruct (same_length_lookup_active p n Hlen) as [a Ea]; [lia |].
        destruct a.
        * right. intros j Hj. destruct (decide (j = n)) as [-> | Hne]; [exact Ea |].
          apply Hall. lia.
        * left. exists n. split; [lia |]. split; [exact Ea | exact Hall]. }
  destruct (H (length (particles p))) as [(k & Hk & Hlow) | Hall]; [lia | |].
  - left. eauto.
  - right. exact Hall.
Qed.

Section Activate.

Variables (pos rap : Vector) (angPos angVel mass radius : float64).
Variables (sprite now : Z).

Lemma Activate_from_fill (p : Pool) (h : gmap nat Particle) (k m a : nat) :
  same_length p → lowest_inactive p k → a ≤ k → k < a + m →
  a + m ≤ length (particles p) →
  Pool.Activate_from (seq a m) p pos rap angPos angVel mass radius sprite now h
  = Some (fill_slot p k (fresh (dom h)) now sprite,
          <[fresh (dom h) := newParticle pos rap angPos angVel mass radius]> h).
Proof.
  intros Hlen [Hk Hbelow]. revert a.
  induction m as [|m IH]; intros a Hak Hkm Hn; [lia |].
  destruct Hlen as (Ha & Hl & Hs).
  simpl. destruct (decide (a = k)) as [-> | Hne].
  - rewrite Hk. simpl.
    rewrite !store_at_Some by lia. simpl.
    rewrite ?store_at_Some by lia. reflexivity.
  - rewrite (Hbelow a) by lia. simpl.
    apply IH; lia.
Qed.

Lemma Activate_from_full (p : Pool) (h : gmap nat Particle) (m a : nat) :
  (∀ j, a ≤ j < a + m → active p !! j = Some true) →
  Pool.Activate_from (seq a m) p pos rap angPos angVel mass radius sprite now h
  = Some (grow_slot p (fresh (dom h)) now sprite,
          <[fresh (dom h) := newParticle pos rap angPos angVel mass radius]> h).
Proof.
  revert a. induction m as [|m IH]; intros a Hall.
  - reflexivity.
  - simpl. rewrite (Hall a) by lia. simpl. apply IH. intros j Hj. apply Hall. lia.
Qed.

Lemma Activate_lowest (p : Pool) (h : gmap nat Particle) (k : nat) :
  same_length p → lowest_inactive p k →
  Pool.Activate p pos rap angPos angVel mass radius sprite now h
  = Some (fill_slot p k (fresh (dom h)) now sprite,
          <[fresh (dom h) := newParticle pos rap angPos angVel mass radius]> h).
Proof.
  intros Hlen Hlow. unfold Pool.Activate.
  assert (Hk : k < length (particles p)).
  { destruct Hlow as [Hk _]. apply lookup_lt_Some in Hk.
    destruct Hlen as (Ha & _). lia. }
  apply Activate_from_fill; try assumption; lia.
Qed.

Lemma Activate_full (p : Pool) (h : gmap nat Particle) :
  full p →
  Pool.Activate p pos rap angPos angVel mass radius sprite now h
  = Some (grow_slot p (fresh (dom h)) now sprite,
          <[fresh (dom h) := newParticle pos rap angPos angVel mass radius]> h).
Proof.
  intros Hfull. unfold Pool.Activate. apply Activate_from_full.
  intros j Hj. apply Hfull. lia.
Qed.

End Activate.

Lemma Deactivate_active (p : Pool) (i : nat) :
  i < length (particles p) → active p !! i = Some true →
  Pool.Deactivate p i
  = Some (with_slices p (<[i := None]> (particles p)) (<[i := false]> (active p))
            (lifetimes p) (sprites p), true).
Proof.
  intros Hi Ha. unfold Pool.Deactivate. rewrite Ha. simpl.
  rewrite (store_at_Some (active p)) by (apply lookup_lt_Some in Ha; exact Ha).
  simpl. rewrite (store_at_Some (particles p)) by exact Hi. reflexivity.
Qed.

Lemma Deactivate_inactive (p : Pool) (i : nat) :
  active p !! i = Some false → Pool.Deactivate p i = Some (p, false).
Proof. intros Ha. unfold Pool.Deactivate. rewrite Ha. reflexivity. Qed.

Lemma same_length_Deactivated (p : Pool) (i : nat) :
  same_length p →
  same_length (with_slices p (<[i := None]> (particles p)) (<[i := false]> (active p))
                 (lifetimes p) (sprites p)).
Proof.
  intros (Ha & Hl & Hs). unfold same_length. simpl.
  rewrite !length_insert. auto.
Qed.

Lemma lowest_inactive_after_Deactivate (p : Pool) (k : nat) :
  same_length p → full p → k < length (particles p) →
  lowest_inactive
    (with_slices p (<[k := None]> (particles p)) (<[k := false]> (active p))
       (lifetimes p) (sprites p)) k.
Proof.
  intros (Ha & _) Hfull Hk. split; simpl.
  - apply list_lookup_insert_eq. lia.
  - intros j Hj. rewrite list_lookup_insert_ne by lia. apply Hfull. lia.
Qed.

(** C8.  For an index inside the slices, [Deactivate] on an active slot
    returns true, marks the slot inactive and clears its pointer, leaving
    everything else as it was; on an inactive slot it returns false and
    the pool is unchanged.  It does not panic. *)
Theorem Deactivate_reports (p : Pool) (i : nat) :
  i < length (active p) → i < length (particles p) →
  (active p !! i = Some true ∧
   ∃ p', Pool.Deactivate p i = Some (p', true) ∧
     active p' !! i = Some false ∧
     particles p' !! i = Some None ∧
     (∀ j, j ≠ i →
        active p' !! j = active p !! j ∧ particles p' !! j = particles p !! j) ∧
     lifetimes p' = lifetimes p ∧ sprites p' = sprites p ∧
     maxLifetime p' = maxLifetime p ∧ enforceLifetime p' = enforceLifetime p ∧
     fadeOverLifetime p' = fadeOverLifetime p ∧
     disableCollision p' = disableCollision p)
  ∨ (active p !! i = Some false ∧ Pool.Deactivate p i = Some (p, false)).
Proof.
  intros Hia Hip.
  destruct (lookup_lt_is_Some_2 (active p) i Hia) as [[|] Ea].
  - left. split; [exact Ea |].
    eexists. split; [apply Deactivate_active; assumption |]. simpl.
    split; [apply list_lookup_insert_eq; exact Hia |].
    split; [apply list_lookup_insert_eq; exact Hip |].
    split; [| repeat split].
    intros j Hj. rewrite !list_lookup_insert_ne by congruence. split; reflexivity.
  - right. split; [exact Ea | apply Deactivate_inactive; exact Ea].
Qed.

Lemma Deactivate_reports_witness :
  ∃ p', Pool.Deactivate (with_slices (NewPool 2) [Some 0; None] [true; false]
                           [At 0; ZeroTime] [0%Z; 0%Z]) 0 = Some (p', true) ∧
        active p' !! 0 = Some false ∧ particles p' !! 0 = Some None.
Proof.
  destruct (Deactivate_reports
              (with_slices (NewPool 2) [Some 0; None] [true; false]
                 [At 0; ZeroTime] [0%Z; 0%Z]) 0)
    as [(_ & p' & H1 & H2 & H3 & _) | (H & _)].
  - simpl. lia.
  - simpl. lia.
  - exists p'. auto.
  - simpl in H. discriminate H.
Defined.

(** C6.  In a pool whose slices have one length, [Activate] allocates a
    fresh record with zero velocity and acceleration, gamma 1 and clock 0,
    and never fails: it fills the lowest-indexed inactive slot, or, when
    every slot is active, appends one slot to each of the four slices and
    leaves the existing slots as they were.  After deactivating slot [k] of
    a full pool, the next activation fills slot [k] again and the length of
    the pool is unchanged. *)
Theorem Activate_policy (p : Pool) (pos rap : Vector)
  (angPos angVel mass radius : float64) (sprite now : Z) (h : gmap nat Particle) :
  same_length p →
  let l := fresh (dom h) in
  let q := newParticle pos rap angPos angVel mass radius in
  let run p := Pool.Activate p pos rap angPos angVel mass radius sprite now h in
  ((l ∉ dom h) ∧ Vel q = Vector0 ∧ Acc q = Vector0 ∧ Gamma q = Fin 1 ∧ Clock q = Fin 0 ∧
   Pos q = pos ∧ Rap q = rap ∧ AngPos q = angPos ∧ AngVel q = angVel ∧
   Mass q = mass ∧ Radius q = radius) ∧
  is_Some (run p) ∧
  (∀ k, lowest_inactive p k → run p = Some (fill_slot p k l now sprite, <[l := q]> h)) ∧
  (full p →
     run p = Some (grow_slot p l now sprite, <[l := q]> h) ∧
     same_length (grow_slot p l now sprite) ∧
     length (particles (grow_slot p l now sprite)) = S (length (particles p)) ∧
     ∀ j, j < length (particles p) →
       particles (grow_slot p l now sprite) !! j = particles p !! j ∧
       active (grow_slot p l now sprite) !! j = active p !! j ∧
       lifetimes (grow_slot p l now sprite) !! j = lifetimes p !! j ∧
       sprites (grow_slot p l now sprite) !! j = sprites p !! j) ∧
  (full p → ∀ k, k < length (particles p) →
     ∃ p1 p2, Pool.Deactivate p k = Some (p1, true) ∧
       run p1 = Some (p2, <[l := q]> h) ∧
       particles p2 !! k = Some (Some l) ∧ active p2 !! k = Some true ∧
       length (particles p2) = length (particles p)).
Proof.
  intros Hlen l q run.
  split; [| split; [| split; [| split]]].
  - repeat split. apply fresh_not_in_heap.
  - destruct (lowest_inactive_or_full p Hlen) as [(k & _ & Hlow) | Hfull].
    + unfold run. erewrite Activate_lowest by eassumption. eauto.
    + unfold run. rewrite Activate_full by assumption. eauto.
  - intros k Hlow. apply Activate_lowest; assumption.
  - intros Hfull. destruct Hlen as (Ha & Hl & Hs).
    split; [apply Activate_full; assumption |].
    split; [unfold same_length; simpl; rewrite !length_app; simpl; lia |].
    split; [simpl; rewrite length_app; simpl; lia |].
    intros j Hj. simpl. rewrite !lookup_app_l by lia. auto.
  - intros Hfull k Hk.
    destruct Hlen as (Ha & Hl & Hs).
    eexists. eexists. split.
    { apply Deactivate_active; [exact Hk | apply Hfull; exact Hk]. }
    split.
    { unfold run. apply Activate_lowest.
      - apply same_length_Deactivated. unfold same_length. auto.
      - apply lowest_inactive_after_Deactivate; [unfold same_length; auto | assumption..]. }
    simpl. rewrite !length_insert.
    split; [apply list_lookup_insert_eq; rewrite length_insert; lia |].
    split; [apply list_lookup_insert_eq; rewrite length_insert; lia | reflexivity].
Qed.

Lemma Activate_policy_witness :
  ∃ p2, Pool.Activate (NewPool 1) Vector0 (mkVector (Fin 5) (Fin 0))
          (Fin 0) (Fin 0) (Fin 1) (Fin 1) 0%Z 7%Z ∅
        = Some p2.
Proof.
  assert (Hlen : same_length (NewPool 1)) by (repeat split).
  destruct (Activate_policy (NewPool 1) Vector0 (mkVector (Fin 5) (Fin 0))
              (Fin 0) (Fin 0) (Fin 1) (Fin 1) 0%Z 7%Z ∅ Hlen)
    as (_ & _ & Hlow & _).
  eexists. apply (Hlow 0).
  split; [reflexivity | intros j Hj; lia].
Defined.

(** ** Loops and the heap *)

(** A loop whose body keeps [Q] and does not panic under [Q] does the same. *)
Lemma forM_inv {A S : Type} (body : A → S → option S) (Q : S → Prop)
  (P : A → Prop) (l : list A) (s : S) :
  (∀ x s, P x → Q s → ∃ s', body x s = Some s' ∧ Q s') →
  Forall P l → Q s → ∃ s', forM body l s = Some s' ∧ Q s'.
Proof.
  intros Hbody Hl. revert s.
  induction Hl as [|x l Hx Hl IH]; intros s HQ.
  - exists s. split; [reflexivity | exact HQ].
  - simpl. destruct (Hbody x s Hx HQ) as (s1 & E1 & HQ1). rewrite E1. simpl.
    apply IH. exact HQ1.
Qed.

Lemma valid_ptr_load (h : gmap nat Particle) (q : option nat) :
  valid_ptr h q → ∃ x, load q h = Some x.
Proof.
  intros (l & -> & Hl). destruct (proj1 (elem_of_dom h l) Hl) as [x Hx].
  exists x. exact Hx.
Qed.

Lemma modify_valid (h : gmap nat Particle) (q : option nat) (f : Particle → Particle) :
  valid_ptr h q → ∃ h', modify q f h = Some h' ∧ dom h' = dom h.
Proof.
  intros (l & -> & Hl). destruct (proj1 (elem_of_dom h l) Hl) as [x Hx].
  unfold modify. simpl. rewrite Hx. simpl.
  eexists. split; [reflexivity |].
  apply dom_insert_lookup_L. eauto.
Qed.

Lemma valid_ptr_dom (h h' : gmap nat Particle) (q : option nat) :
  dom h ⊆ dom h' → valid_ptr h q → valid_ptr h' q.
Proof.
  intros Hd (l & -> & Hl). exists l. split; [reflexivity | apply Hd, Hl].
Qed.

Lemma valid_ptr_eq (h h' : gmap nat Particle) (q : option nat) :
  dom h' = dom h → valid_ptr h q → valid_ptr h' q.
Proof. intros Hd. apply valid_ptr_dom. rewrite Hd. reflexivity. Qed.

Lemma UpdatePositions_total (ps : list (option nat)) (frame : Vector)
  (c dt : float64) (h : gmap nat Particle) :
  Forall (valid_ptr h) ps →
  ∃ h', UpdatePositions ps frame c dt h = Some h' ∧ dom h' = dom h.
Proof.
  intros Hps. unfold UpdatePositions.
  apply (forM_inv _ (λ h', dom h' = dom h) (valid_ptr h)); [| exact Hps | reflexivity].
  intros q h1 Hq Hd.
  destruct (modify_valid h1 q (λ p, Particle.Update p Vector0 frame c dt))
    as (h2 & E & Hd2).
  { eapply valid_ptr_dom; [| exact Hq]. rewrite Hd. reflexivity. }
  exists h2. split; [exact E | congruence].
Qed.

Lemma resolve_total (a b : option nat) (frame : Vector) (c : float64)
  (h : gmap nat Particle) :
  valid_ptr h a → valid_ptr h b →
  ∃ h', resolve a b frame c h = Some h' ∧ dom h' = dom h.
Proof.
  intros Ha Hb. unfold resolve.
  destruct (valid_ptr_load h a Ha) as [x ->].
  destruct (valid_ptr_load h b Hb) as [y ->]. simpl.
  destruct (Particle.CheckCollision x y frame); [| eauto].
  match goal with |- context [modify a ?f h] =>
    destruct (modify_valid h a f Ha) as (h1 & -> & D1) end. simpl.
  assert (Ha1 : valid_ptr h1 a) by (apply (valid_ptr_eq h); [congruence | exact Ha]).
  assert (Hb1 : valid_ptr h1 b) by (apply (valid_ptr_eq h); [congruence | exact Hb]).
  match goal with |- context [modify b ?f h1] =>
    destruct (modify_valid h1 b f Hb1) as (h2 & -> & D2) end. simpl.
  assert (Ha2 : valid_ptr h2 a) by (apply (valid_ptr_eq h); [congruence | exact Ha]).
  assert (Hb2 : valid_ptr h2 b) by (apply (valid_ptr_eq h); [congruence | exact Hb]).
  destruct (valid_ptr_load h2 a Ha2) as [x2 ->].
  destruct (valid_ptr_load h2 b Hb2) as [y2 ->]. simpl.
  match goal with |- context [modify a ?f h2] =>
    destruct (modify_valid h2 a f Ha2) as (h3 & -> & D3) end. simpl.
  assert (Hb3 : valid_ptr h3 b) by (apply (valid_ptr_eq h); [congruence | exact Hb]).
  match goal with |- context [modify b ?f h3] =>
    destruct (modify_valid h3 b f Hb3) as (h4 & -> & D4) end. simpl.
  assert (Ha4 : valid_ptr h4 a) by (apply (valid_ptr_eq h); [congruence | exact Ha]).
  match goal with |- context [modify a ?f h4] =>
    destruct (modify_valid h4 a f Ha4) as (h5 & -> & D5) end. simpl.
  assert (Hb5 : valid_ptr h5 b) by (apply (valid_ptr_eq h); [congruence | exact Hb]).
  match goal with |- context [modify b ?f h5] =>
    destruct (modify_valid h5 b f Hb5) as (h6 & -> & D6) end.
  exists h6. split; [reflexivity | congruence].
Qed.

Lemma SolveCollisions_total (ps : list (option nat)) (frame : Vector)
  (c : float64) (h : gmap nat Particle) :
  Forall (valid_ptr h) ps →
  ∃ h', SolveCollisions ps frame c h = Some h' ∧ dom h' = dom h.
Proof.
  intros Hps. unfold SolveCollisions.
  apply (forM_inv _ (λ h', dom h' = dom h) (λ i, i < length ps)).
  - intros i h1 Hi Hd.
    apply (forM_inv _ (λ h', dom h' = dom h) (λ j, j < length ps)).
    + intros j h2 Hj Hd2.
      destruct (lookup_lt_is_Some_2 ps i Hi) as [a Ea].
      destruct (lookup_lt_is_Some_2 ps j Hj) as [b Eb].
      rewrite Ea, Eb. simpl.
      destruct (resolve_total a b frame c h2) as (h3 & E & D3).
      * eapply valid_ptr_dom; [| eapply Forall_lookup_1; [exact Hps | exact Ea]].
        rewrite Hd2. reflexivity.
      * eapply valid_ptr_dom; [| eapply Forall_lookup_1; [exact Hps | exact Eb]].
        rewrite Hd2. reflexivity.
      * exists h3. split; [exact E | congruence].
    + apply Forall_forall. intros j Hj. apply elem_of_seq in Hj. lia.
    + exact Hd.
  - apply Forall_forall. intros i Hi. apply elem_of_seq in Hi. lia.
  - reflexivity.
Qed.

(** ** Pools: expiry and the working set of an update *)

Section Select.

Variable clock : nat → Z.

Lemma select_step_eq (q : Pool) (acts : list (option nat)) (i : nat) :
  same_length q → i < length (particles q) →
  Pool.select_step clock i (q, acts)
  = Some (if expired q clock i then deact q i else q,
          if kept q clock i then acts ++ [ptr_at q i] else acts).
Proof.
  intros (Ha & Hl & Hs) Hi.
  destruct (lookup_lt_is_Some_2 (active q) i) as [b Eb]; [lia |].
  destruct (lookup_lt_is_Some_2 (lifetimes q) i) as [t Et]; [lia |].
  destruct (lookup_lt_is_Some_2 (particles q) i) as [x Ex]; [lia |].
  pose proof (Deactivate_active q i Hi) as HD.
  unfold Pool.select_step, kept, expired, active_at, ptr_at.
  rewrite Eb, Et, Ex. simpl.
  destruct (enforceLifetime q), b; simpl;
    try destruct (maxLifetime q <? Since (clock i) t)%Z; simpl;
    rewrite ?HD by exact Eb; reflexivity.
Qed.

(** The state of slot [i] that [expired], [kept] and [ptr_at] read. *)
Lemma expired_ext (q q1 : Pool) (i : nat) :
  enforceLifetime q1 = enforceLifetime q → maxLifetime q1 = maxLifetime q →
  lifetimes q1 = lifetimes q → active q1 !! i = active q !! i →
  expired q1 clock i = expired q clock i.
Proof.
  intros He Hm Hl Ha. unfold expired, active_at. rewrite He, Hm, Hl, Ha. reflexivity.
Qed.

Lemma working_set_from_ext (q q1 : Pool) (idxs : list nat) :
  enforceLifetime q1 = enforceLifetime q → maxLifetime q1 = maxLifetime q →
  lifetimes q1 = lifetimes q →
  (∀ i, i ∈ idxs →
     active q1 !! i = active q !! i ∧ particles q1 !! i = particles q !! i) →
  working_set_from q1 clock idxs = working_set_from q clock idxs.
Proof.
  intros He Hm Hl. unfold working_set_from.
  induction idxs as [|i idxs IH]; intros Hsame; [reflexivity |].
  simpl. destruct (Hsame i) as [Ha Hp]; [left |].
  rewrite IH by (intros j Hj; apply Hsame; right; exact Hj).
  unfold kept, ptr_at, active_at. rewrite (expired_ext q q1 i He Hm Hl Ha), Ha, Hp.
  reflexivity.
Qed.

Lemma same_length_deact (q : Pool) (i : nat) : same_length q → same_length (deact q i).
Proof. apply same_length_Deactivated. Qed.

Lemma select_loop (m : nat) : ∀ (a : nat) (q : Pool) (acts : list (option nat)),
  same_length q → a + m ≤ length (particles q) →
  ∃ q', forM (Pool.select_step clock) (seq a m) (q, acts)
        = Some (q', acts ++ working_set_from q clock (seq a m)) ∧
        expiry_of q clock a m q'.
Proof.
  induction m as [|m IH]; intros a q acts Hlen Ham.
  - exists q. simpl. rewrite app_nil_r. split; [reflexivity |].
    repeat split; try reflexivity; lia.
  - change (seq a (S m)) with (a :: seq (S a) m). cbn [forM].
    rewrite select_step_eq by (assumption || lia). cbn [mbind option_bind].
    set (q1 := if expired q clock a then deact q a else q).
    assert (Hlen1 : same_length q1).
    { unfold q1. destruct (expired q clock a); [apply same_length_deact |]; exact Hlen. }
    assert (Hn1 : length (particles q1) = length (particles q)).
    { unfold q1. destruct (expired q clock a); simpl; [apply length_insert | reflexivity]. }
    assert (Hna1 : length (active q1) = length (active q)).
    { unfold q1. destruct (expired q clock a); simpl; [apply length_insert | reflexivity]. }
    assert (Hcfg : lifetimes q1 = lifetimes q ∧ sprites q1 = sprites q ∧
                   maxLifetime q1 = maxLifetime q ∧
                   enforceLifetime q1 = enforceLifetime q ∧
                   fadeOverLifetime q1 = fadeOverLifetime q ∧
                   disableCollision q1 = disableCollision q).
    { unfold q1. destruct (expired q clock a); repeat split. }
    destruct Hcfg as (C1 & C2 & C3 & C4 & C5 & C6).
    assert (Hoff : ∀ i, i ≠ a →
              active q1 !! i = active q !! i ∧ particles q1 !! i = particles q !! i).
    { intros i Hi. unfold q1. destruct (expired q clock a); simpl; [| auto].
      rewrite !list_lookup_insert_ne by congruence. auto. }
    assert (Hat : active q1 !! a = (λ b, b && negb (expired q clock a)) <$> active q !! a ∧
                  particles q1 !! a
                  = (λ x, if expired q clock a then None else x) <$> particles q !! a).
    { destruct Hlen as (La & _).
      destruct (lookup_lt_is_Some_2 (active q) a) as [b Eb]; [lia |].
      destruct (lookup_lt_is_Some_2 (particles q) a) as [x Ex]; [lia |].
      unfold q1. destruct (expired q clock a) eqn:Ee; simpl.
      - rewrite !list_lookup_insert_eq by lia. rewrite Eb, Ex. simpl.
        rewrite andb_false_r. auto.
      - rewrite Eb, Ex. simpl. rewrite andb_true_r. auto. }
    destruct (IH (S a) q1
                (if kept q clock a then acts ++ [ptr_at q a] else acts) Hlen1)
      as (q' & Eq & Hq'); [lia |].
    exists q'. split.
    + rewrite Eq. f_equal. f_equal.
      rewrite (working_set_from_ext q q1) by
        (try assumption; intros i Hi; apply Hoff; apply elem_of_seq in Hi; lia).
      unfold working_set_from at 2. simpl.
      destruct (kept q clock a); simpl; [rewrite <- app_assoc |]; reflexivity.
    + destruct Hq' as (E1 & E2 & E3 & E4 & E5 & E6 & E7 & E8 & Hpt).
      repeat split; try congruence.
      * destruct (decide (i = a)) as [-> | Hne].
        -- destruct (Hpt a) as [_ Hout]. destruct Hout as [-> _]; [lia |]. apply Hat.
        -- destruct (Hpt i) as [Hin _]. destruct Hin as [-> _]; [lia |].
           destruct (Hoff i Hne) as [-> _].
           rewrite (expired_ext q q1 i C4 C3 C1) by (apply Hoff; exact Hne).
           reflexivity.
      * destruct (decide (i = a)) as [-> | Hne].
        -- destruct (Hpt a) as [_ Hout]. destruct Hout as [_ ->]; [lia |]. apply Hat.
        -- destruct (Hpt i) as [Hin _]. destruct Hin as [_ ->]; [lia |].
           destruct (Hoff i Hne) as [_ ->].
           rewrite (expired_ext q q1 i C4 C3 C1) by (apply Hoff; exact Hne).
           reflexivity.
      * destruct (Hpt i) as [_ Hout]. destruct Hout as [-> _]; [lia |].
        apply Hoff. lia.
      * destruct (Hpt i) as [_ Hout]. destruct Hout as [_ ->]; [lia |].
        apply Hoff. lia.
Qed.

Lemma select_eq (p : Pool) :
  same_length p →
  ∃ p', Pool.select p clock = Some (p', working_set p clock) ∧
        expiry_of p clock 0 (length (particles p)) p'.
Proof.
  intros Hlen. unfold Pool.select, working_set.
  destruct (select_loop (length (particles p)) 0 p [] Hlen) as (p' & E & H); [lia |].
  exists p'. split; [exact E | exact H].
Qed.

End Select.

(** ** What the batch functions write *)

Lemma forM_preserves {A S : Type} (body : A → S → option S) (Q : S → Prop)
  (l : list A) (s s' : S) :
  (∀ x s s', x ∈ l → Q s → body x s = Some s' → Q s') →
  Q s → forM body l s = Some s' → Q s'.
Proof.
  revert s. induction l as [|x l IH]; intros s Hbody HQ E; simpl in E.
  - congruence.
  - destruct (body x s) as [s1|] eqn:E1; simpl in E; [| discriminate].
    apply (IH s1); [| | exact E].
    + intros y t t' Hy. apply Hbody. right. exact Hy.
    + apply (Hbody x s s1); [left | exact HQ | exact E1].
Qed.

Lemma modify_Some (q : option nat) (f : Particle → Particle)
  (h h' : gmap nat Particle) :
  modify q f h = Some h' →
  ∃ l x, q = Some l ∧ h !! l = Some x ∧ h' = <[l := f x]> h.
Proof.
  unfold modify. destruct q as [l|]; simpl; [| discriminate].
  destruct (h !! l) as [x|] eqn:E; simpl; [| discriminate].
  intros [= <-]. eauto.
Qed.

Lemma modify_frame (q : option nat) (f : Particle → Particle)
  (h h' : gmap nat Particle) (l : nat) :
  modify q f h = Some h' → Some l ≠ q → h' !! l = h !! l.
Proof.
  intros E Hne. apply modify_Some in E as (l0 & x & -> & _ & ->).
  apply lookup_insert_ne. congruence.
Qed.

Lemma resolve_frame (a b : option nat) (frame : Vector) (c : float64)
  (h h' : gmap nat Particle) (l : nat) :
  resolve a b frame c h = Some h' → Some l ≠ a → Some l ≠ b → h' !! l = h !! l.
Proof.
  unfold resolve. intros E Ha Hb.
  destruct (load a h) as [x|]; simpl in E; [| discriminate].
  destruct (load b h) as [y|]; simpl in E; [| discriminate].
  destruct (Particle.CheckCollision x y frame); [| congruence].
  repeat match type of E with
  | (mbind _ (modify ?q ?f ?h0)) = Some _ =>
      let h1 := fresh "h" in let E1 := fresh "E" in
      destruct (modify q f h0) as [h1|] eqn:E1; simpl in E; [| discriminate];
      apply (modify_frame _ _ _ _ l) in E1; [| assumption]
  | (mbind _ (load ?q ?h0)) = Some _ =>
      destruct (load q h0); simpl in E; [| discriminate]
  end.
  apply (modify_frame _ _ _ _ l) in E; [| assumption].
  congruence.
Qed.

Section Batch.

Variables (frame : Vector) (c dt : float64).

Lemma UpdatePositions_frame (ps : list (option nat)) (h h' : gmap nat Particle)
  (l : nat) :
  UpdatePositions ps frame c dt h = Some h' → Some l ∉ ps → h' !! l = h !! l.
Proof.
  intros E Hl.
  apply (forM_preserves _ (λ h1, h1 !! l = h !! l) _ _ _) in E; [exact E | | reflexivity].
  intros q h1 h2 Hq H1 E1. rewrite <- H1.
  apply (modify_frame _ _ _ _ l E1). intros Hc. subst q. contradiction.
Qed.

(** Over distinct pointers, [UpdatePositions] replaces every record of
    the list by its [Update] under zero force and writes nothing else. *)
Lemma UpdatePositions_lookup (ps : list (option nat)) :
  ∀ (h h' : gmap nat Particle), NoDup ps →
  UpdatePositions ps frame c dt h = Some h' →
  ∀ l, h' !! l
       = if decide (Some l ∈ ps)
         then (λ x, Particle.Update x Vector0 frame c dt) <$> h !! l
         else h !! l.
Proof.
  induction ps as [|q ps IH]; intros h h' Hnd E l.
  - simpl in E. injection E as <-. case_decide as H; [| reflexivity].
    apply elem_of_nil in H. contradiction.
  - apply NoDup_cons in Hnd as [Hq Hnd].
    unfold UpdatePositions in E. simpl in E.
    destruct (modify q (λ p, Particle.Update p Vector0 frame c dt) h)
      as [h1|] eqn:E1; simpl in E; [| discriminate].
    pose proof (IH h1 h' Hnd E l) as Hl.
    apply modify_Some in E1 as (l0 & x & -> & Hx & ->).
    rewrite Hl. destruct (decide (l = l0)) as [-> | Hne].
    + rewrite decide_False by exact Hq.
      rewrite decide_True by left.
      rewrite lookup_insert_eq, Hx. reflexivity.
    + rewrite lookup_insert_ne by congruence.
      destruct (decide (Some l ∈ ps)) as [Hin | Hnin].
      * rewrite decide_True by (right; exact Hin). reflexivity.
      * rewrite decide_False; [reflexivity |].
        intros Hc. apply elem_of_cons in Hc as [Hc | Hc]; [congruence | contradiction].
Qed.

Lemma SolveCollisions_frame (ps : list (option nat)) (h h' : gmap nat Particle)
  (l : nat) :
  SolveCollisions ps frame c h = Some h' → Some l ∉ ps → h' !! l = h !! l.
Proof.
  intros E Hl. unfold SolveCollisions in E.
  apply (forM_preserves _ (λ h1, h1 !! l = h !! l) _ _ _) in E; [exact E | | reflexivity].
  intros i h1 h2 _ H1 E1.
  apply (forM_preserves _ (λ h3, h3 !! l = h !! l) _ _ _) in E1; [exact E1 | | exact H1].
  intros j h3 h4 _ H3 E3.
  destruct (ps !! i) as [a|] eqn:Ea; simpl in E3; [| discriminate].
  destruct (ps !! j) as [b|] eqn:Eb; simpl in E3; [| discriminate].
  rewrite <- H3. apply (resolve_frame _ _ _ _ _ _ l E3).
  - intros Hc. subst a. apply Hl. eapply list_elem_of_lookup_2. exact Ea.
  - intros Hc. subst b. apply Hl. eapply list_elem_of_lookup_2. exact Eb.
Qed.

End Batch.

Lemma elem_of_working_set_from (p : Pool) (clock : nat → Z) (idxs : list nat)
  (q : option nat) :
  q ∈ working_set_from p clock idxs
  ↔ ∃ i, i ∈ idxs ∧ kept p clock i = true ∧ ptr_at p i = q.
Proof.
  unfold working_set_from. rewrite list_elem_of_In, in_flat_map. split.
  - intros (i & Hi & Hq). exists i. split; [apply list_elem_of_In; exact Hi |].
    destruct (kept p clock i); simpl in Hq; [| contradiction].
    destruct Hq as [Hq | []]. auto.
  - intros (i & Hi & Hk & Hq). exists i. split; [apply list_elem_of_In; exact Hi |].
    rewrite Hk. left. exact Hq.
Qed.

Lemma kept_ptr (p : Pool) (clock : nat → Z) (i : nat) :
  active_non_nil p → kept p clock i = true →
  ∃ l, particles p !! i = Some (Some l) ∧ ptr_at p i = Some l.
Proof.
  intros Hnn Hk. unfold kept in Hk. apply andb_true_iff in Hk as [Ha _].
  unfold active_at in Ha.
  destruct (active p !! i) as [[|]|] eqn:Ea; simpl in Ha; try discriminate.
  destruct (Hnn i Ea) as [l El]. exists l. split; [exact El |].
  unfold ptr_at. rewrite El. reflexivity.
Qed.

(** In a pool without shared pointers the working set has no repetition. *)
Lemma working_set_from_NoDup (p : Pool) (clock : nat → Z) (idxs : list nat) :
  NoDup idxs → active_non_nil p → ptrs_distinct p →
  NoDup (working_set_from p clock idxs).
Proof.
  intros Hnd Hnn Hdis. induction Hnd as [|i idxs Hi Hnd IH].
  - apply NoDup_nil_2.
  - unfold working_set_from. simpl. fold (working_set_from p clock idxs).
    destruct (kept p clock i) eqn:Hk; simpl; [| exact IH].
    apply NoDup_cons. split; [| exact IH].
    intros Hin. apply elem_of_working_set_from in Hin as (j & Hj & Hkj & Hpj).
    destruct (kept_ptr p clock i Hnn Hk) as (l & El & Pl).
    destruct (kept_ptr p clock j Hnn Hkj) as (l' & El' & Pl').
    assert (l' = l) by congruence. subst l'.
    assert (i = j) by (eapply Hdis; eassumption). subst j. contradiction.
Qed.

Lemma working_set_NoDup (p : Pool) (clock : nat → Z) :
  active_non_nil p → ptrs_distinct p → NoDup (working_set p clock).
Proof.
  intros Hnn Hdis. apply working_set_from_NoDup; [apply NoDup_seq | assumption..].
Qed.

(** C9.  In a pool configured with [EnforceLifetime(T)], [Update] and
    [UpdateWith] deactivate every active slot whose time since activation
    exceeds [T] and leave it out of the working set; every other active
    slot keeps its flag and pointer and is in the working set, in index
    order.  The integration pass runs over that working set, and the
    collision pass, unless the pool disables it, over the working set
    (followed by the particles of the caller for [UpdateWith]).  Over
    distinct pointers, as in every pool whose slots share no pointer, the
    integration pass replaces exactly the records of the working set by
    their [Particle.Update] under zero force, and a call writes no record
    outside the list its passes run over. *)
Theorem lifetime_expiry (p0 : Pool) (T : Z) (frame : Vector) (c dt : float64)
  (others : list (option nat)) (clock : nat → Z) (h : gmap nat Particle) :
  same_length p0 →
  ∃ p' : Pool,
    let p := Pool.EnforceLifetime p0 T in
    let ws := working_set p clock in
    Pool.Update p frame c dt clock h
    = (h1 ← UpdatePositions ws frame c dt h;
       h2 ← (if disableCollision p0 then Some h1
             else SolveCollisions ws frame c h1);
       Some (p', h2)) ∧
    Pool.UpdateWith p frame c dt others clock h
    = (h1 ← UpdatePositions ws frame c dt h;
       h2 ← (if disableCollision p0 then Some h1
             else SolveCollisions (ws ++ others) frame c h1);
       Some (p', h2)) ∧
    (∀ q, q ∈ ws ↔ ∃ i, kept p clock i = true ∧ particles p0 !! i = Some q) ∧
    (∀ i t, active p0 !! i = Some true → lifetimes p0 !! i = Some t →
       if (T <? Since (clock i) t)%Z
       then kept p clock i = false ∧
            active p' !! i = Some false ∧ particles p' !! i = Some None
       else kept p clock i = true ∧
            active p' !! i = Some true ∧ particles p' !! i = particles p0 !! i) ∧
    (∀ i, active p0 !! i = Some false →
       kept p clock i = false ∧
       active p' !! i = Some false ∧ particles p' !! i = particles p0 !! i) ∧
    (∀ h1, UpdatePositions ws frame c dt h = Some h1 → NoDup ws →
       ∀ l, h1 !! l
            = if decide (Some l ∈ ws)
              then (λ x, Particle.Update x Vector0 frame c dt) <$> h !! l
              else h !! l) ∧
    (active_non_nil p0 → ptrs_distinct p0 → NoDup ws) ∧
    (∀ p1 h1 l, Pool.Update p frame c dt clock h = Some (p1, h1) →
       Some l ∉ ws → h1 !! l = h !! l) ∧
    (∀ p1 h1 l, Pool.UpdateWith p frame c dt others clock h = Some (p1, h1) →
       Some l ∉ ws ++ others → h1 !! l = h !! l).
Proof.
  intros Hlen.
  assert (Hlen' : same_length (Pool.EnforceLifetime p0 T)) by exact Hlen.
  destruct (select_eq clock _ Hlen') as (p' & Esel & Hexp).
  destruct Hexp as (E1 & E2 & E3 & E4 & E5 & E6 & E7 & E8 & Hpt).
  simpl in E1, E2, E3, E4, E5, E6, E7, E8.
  exists p'. cbv zeta.
  assert (EU : Pool.Update (Pool.EnforceLifetime p0 T) frame c dt clock h
               = (h1 ← UpdatePositions (working_set (Pool.EnforceLifetime p0 T) clock)
                         frame c dt h;
                  h2 ← (if disableCollision p0 then Some h1
                        else SolveCollisions
                               (working_set (Pool.EnforceLifetime p0 T) clock)
                               frame c h1);
                  Some (p', h2))).
  { unfold Pool.Update. rewrite Esel. simpl. rewrite E6. reflexivity. }
  assert (EW : Pool.UpdateWith (Pool.EnforceLifetime p0 T) frame c dt others clock h
               = (h1 ← UpdatePositions (working_set (Pool.EnforceLifetime p0 T) clock)
                         frame c dt h;
                  h2 ← (if disableCollision p0 then Some h1
                        else SolveCollisions
                               (working_set (Pool.EnforceLifetime p0 T) clock ++ others)
                               frame c h1);
                  Some (p', h2))).
  { unfold Pool.UpdateWith. rewrite Esel. simpl. rewrite E6. reflexivity. }
  split; [exact EU |]. split; [exact EW |].
  split; [| split; [| split; [| split; [| split; [| split]]]]].
  - intros q. unfold working_set. rewrite elem_of_working_set_from. simpl. split.
    + intros (i & Hi & Hk & Hq). exists i. split; [exact Hk |].
      apply elem_of_seq in Hi.
      destruct (lookup_lt_is_Some_2 (particles p0) i) as [x Ex]; [lia |].
      unfold ptr_at in Hq. simpl in Hq. rewrite Ex in Hq. simpl in Hq. congruence.
    + intros (i & Hk & Hq). exists i. split; [| split; [exact Hk |]].
      * apply elem_of_seq. apply lookup_lt_Some in Hq. lia.
      * unfold ptr_at. simpl. rewrite Hq. reflexivity.
  - intros i t Ha Ht.
    assert (Hi : i < length (particles p0)).
    { destruct Hlen as (La & _). apply lookup_lt_Some in Ha. lia. }
    destruct (lookup_lt_is_Some_2 (particles p0) i Hi) as [x Ex].
    destruct (Hpt i) as [Hin _]. destruct Hin as [Hact Hptr]; [simpl; lia |].
    simpl in Hact, Hptr.
    assert (Hex : expired (Pool.EnforceLifetime p0 T) clock i
                  = (T <? Since (clock i) t)%Z).
    { unfold expired, active_at. simpl. rewrite Ha, Ht. reflexivity. }
    unfold kept, active_at. simpl. rewrite Hact, Hptr, Hex, Ha, Ex. simpl.
    destruct (T <? Since (clock i) t)%Z; simpl; auto.
  - intros i Ha.
    assert (Hi : i < length (particles p0)).
    { destruct Hlen as (La & _). apply lookup_lt_Some in Ha. lia. }
    destruct (lookup_lt_is_Some_2 (particles p0) i Hi) as [x Ex].
    destruct (Hpt i) as [Hin _]. destruct Hin as [Hact Hptr]; [simpl; lia |].
    simpl in Hact, Hptr.
    assert (Hex : expired (Pool.EnforceLifetime p0 T) clock i = false).
    { unfold expired, active_at. simpl. rewrite Ha. reflexivity. }
    unfold kept, active_at. simpl. rewrite Hact, Hptr, Hex, Ha, Ex. simpl. auto.
  - intros h1 E Hnd l. apply UpdatePositions_lookup; assumption.
  - intros Hnn Hdis. apply working_set_NoDup; assumption.
  - intros p1 h2 l E Hl. rewrite EU in E.
    destruct (UpdatePositions _ frame c dt h) as [h1|] eqn:EP; simpl in E;
      [| discriminate].
    rewrite <- (UpdatePositions_frame frame c dt _ h h1 l EP Hl).
    destruct (disableCollision p0); simpl in E.
    + injection E as _ <-. reflexivity.
    + destruct (SolveCollisions _ frame c h1) as [h3|] eqn:EC; simpl in E;
        [| discriminate].
      injection E as _ <-. apply (SolveCollisions_frame frame c _ h1 h3 l EC Hl).
  - intros p1 h2 l E Hl. rewrite EW in E.
    assert (Hl1 : Some l ∉ working_set (Pool.EnforceLifetime p0 T) clock).
    { intros Hin. apply Hl. apply elem_of_app. left. exact Hin. }
    destruct (UpdatePositions _ frame c dt h) as [h1|] eqn:EP; simpl in E;
      [| discriminate].
    rewrite <- (UpdatePositions_frame frame c dt _ h h1 l EP Hl1).
    destruct (disableCollision p0); simpl in E.
    + injection E as _ <-. reflexivity.
    + destruct (SolveCollisions _ frame c h1) as [h3|] eqn:EC; simpl in E;
        [| discriminate].
      injection E as _ <-. apply (SolveCollisions_frame frame c _ h1 h3 l EC Hl).
Qed.

Lemma lifetime_expiry_witness :
  let p0 := with_slices (NewPool 2) [Some 0; Some 1] [true; true]
              [At 0; At 100] [0%Z; 0%Z] in
  ∃ p', active p' !! 0 = Some false ∧ particles p' !! 0 = Some None ∧
        active p' !! 1 = Some true ∧ particles p' !! 1 = Some (Some 1).
Proof.
  intros p0.
  assert (Hlen : same_length p0) by (repeat split).
  destruct (lifetime_expiry p0 50 Vector0 (Fin 10) (Fin 1) [] (λ _, 120%Z) ∅ Hlen)
    as (p' & _ & _ & _ & H & _).
  exists p'.
  pose proof (H 0 (At 0) eq_refl eq_refl) as H0.
  pose proof (H 1 (At 100) eq_refl eq_refl) as H1.
  vm_compute in H0. vm_compute in H1.
  destruct H0 as (_ & A0 & P0). destruct H1 as (_ & A1 & P1).
  auto.
Defined.

(** ** Pools: the structural invariant *)

Lemma modify_dom (q : option nat) (f : Particle → Particle)
  (h h' : gmap nat Particle) :
  modify q f h = Some h' → dom h' = dom h.
Proof.
  intros E. apply modify_Some in E as (l & x & -> & Hx & ->).
  apply dom_insert_lookup_L. eauto.
Qed.

Lemma resolve_dom (a b : option nat) (frame : Vector) (c : float64)
  (h h' : gmap nat Particle) :
  resolve a b frame c h = Some h' → dom h' = dom h.
Proof.
  unfold resolve. intros E.
  destruct (load a h) as [x|]; simpl in E; [| discriminate].
  destruct (load b h) as [y|]; simpl in E; [| discriminate].
  destruct (Particle.CheckCollision x y frame); [| congruence].
  repeat match type of E with
  | (mbind _ (modify ?q ?f ?h0)) = Some _ =>
      let h1 := fresh "h" in let E1 := fresh "E" in
      destruct (modify q f h0) as [h1|] eqn:E1; simpl in E; [| discriminate];
      apply modify_dom in E1
  | (mbind _ (load ?q ?h0)) = Some _ =>
      destruct (load q h0); simpl in E; [| discriminate]
  end.
  apply modify_dom in E. congruence.
Qed.

Lemma UpdatePositions_dom (ps : list (option nat)) (frame : Vector)
  (c dt : float64) (h h' : gmap nat Particle) :
  UpdatePositions ps frame c dt h = Some h' → dom h' = dom h.
Proof.
  intros E.
  apply (forM_preserves _ (λ h1, dom h1 = dom h) _ _ _) in E; [exact E | | reflexivity].
  intros q h1 h2 _ H1 E1. apply modify_dom in E1. congruence.
Qed.

Lemma SolveCollisions_dom (ps : list (option nat)) (frame : Vector)
  (c : float64) (h h' : gmap nat Particle) :
  SolveCollisions ps frame c h = Some h' → dom h' = dom h.
Proof.
  intros E. unfold SolveCollisions in E.
  apply (forM_preserves _ (λ h1, dom h1 = dom h) _ _ _) in E; [exact E | | reflexivity].
  intros i h1 h2 _ H1 E1.
  apply (forM_preserves _ (λ h3, dom h3 = dom h) _ _ _) in E1; [exact E1 | | exact H1].
  intros j h3 h4 _ H3 E3.
  destruct (ps !! i) as [a|]; simpl in E3; [| discriminate].
  destruct (ps !! j) as [b|]; simpl in E3; [| discriminate].
  apply resolve_dom in E3. congruence.
Qed.

Lemma pool_ok_NewPool (n : nat) (h : gmap nat Particle) : pool_ok (NewPool n, h).
Proof.
  split; [| split].
  - unfold same_length. simpl. rewrite !length_replicate. auto.
  - intros i Hi. simpl in Hi. apply lookup_replicate in Hi as [Hi _]. discriminate.
  - intros i l Hi. simpl in Hi. apply lookup_replicate in Hi as [Hi _]. discriminate.
Qed.

Lemma pool_ok_fill_slot (p : Pool) (h : gmap nat Particle) (k l : nat)
  (now sprite : Z) (x : Particle) :
  pool_ok (p, h) → k < length (particles p) →
  pool_ok (fill_slot p k l now sprite, <[l := x]> h).
Proof.
  intros ((Ha & Hl & Hs) & Hnn & Hv) Hk. split; [| split]; simpl in *.
  - unfold same_length. simpl. rewrite !length_insert. auto.
  - intros i Hi. simpl in *. destruct (decide (i = k)) as [-> | Hne].
    + exists l. apply list_lookup_insert_eq. exact Hk.
    + rewrite list_lookup_insert_ne in Hi by congruence.
      rewrite list_lookup_insert_ne by congruence. apply Hnn. exact Hi.
  - intros i l' Hi. simpl in *. rewrite dom_insert_L.
    destruct (decide (i = k)) as [-> | Hne].
    + rewrite list_lookup_insert_eq in Hi by exact Hk.
      injection Hi as <-. apply elem_of_union_l, elem_of_singleton. reflexivity.
    + rewrite list_lookup_insert_ne in Hi by congruence.
      apply elem_of_union_r. eapply Hv. exact Hi.
Qed.

Lemma pool_ok_grow_slot (p : Pool) (h : gmap nat Particle) (l : nat)
  (now sprite : Z) (x : Particle) :
  pool_ok (p, h) → pool_ok (grow_slot p l now sprite, <[l := x]> h).
Proof.
  intros ((Ha & Hl & Hs) & Hnn & Hv). split; [| split]; simpl in *.
  - unfold same_length. simpl. rewrite !length_app. simpl. lia.
  - intros i Hi. simpl in *.
    destruct (decide (i < length (active p))) as [Hlt | Hge].
    + rewrite lookup_app_l in Hi by exact Hlt. rewrite lookup_app_l by lia.
      apply Hnn. exact Hi.
    + exists l. apply lookup_lt_Some in Hi as Hi'. rewrite length_app in Hi'. simpl in Hi'.
      replace i with (length (particles p) + 0) by lia.
      rewrite lookup_app_r by lia.
      replace (length (particles p) + 0 - length (particles p)) with 0 by lia.
      reflexivity.
  - intros i l' Hi. simpl in *. rewrite dom_insert_L.
    destruct (decide (i < length (particles p))) as [Hlt | Hge].
    + rewrite lookup_app_l in Hi by exact Hlt.
      apply elem_of_union_r. eapply Hv. exact Hi.
    + apply lookup_lt_Some in Hi as Hi'. rewrite length_app in Hi'. simpl in Hi'.
      assert (i = length (particles p)) as -> by lia.
      rewrite lookup_app_r in Hi by lia.
      rewrite Nat.sub_diag in Hi. injection Hi as <-.
      apply elem_of_union_l, elem_of_singleton. reflexivity.
Qed.

Lemma pool_ok_deact (p : Pool) (h : gmap nat Particle) (i : nat) :
  pool_ok (p, h) → pool_ok (deact p i, h).
Proof.
  intros (Hlen & Hnn & Hv). split; [| split]; simpl in *.
  - apply same_length_deact. exact Hlen.
  - intros j Hj. simpl in *. destruct (decide (j = i)) as [-> | Hne].
    + apply lookup_lt_Some in Hj as Hlt. rewrite length_insert in Hlt.
      rewrite list_lookup_insert_eq in Hj by exact Hlt. discriminate.
    + rewrite list_lookup_insert_ne in Hj by congruence.
      rewrite list_lookup_insert_ne by congruence. apply Hnn. exact Hj.
  - intros j l Hj. simpl in *. destruct (decide (j = i)) as [-> | Hne].
    + apply lookup_lt_Some in Hj as Hlt. rewrite length_insert in Hlt.
      rewrite list_lookup_insert_eq in Hj by exact Hlt. discriminate.
    + rewrite list_lookup_insert_ne in Hj by congruence. eapply Hv. exact Hj.
Qed.

Lemma pool_ok_dom (p : Pool) (h h' : gmap nat Particle) :
  dom h ⊆ dom h' → pool_ok (p, h) → pool_ok (p, h').
Proof.
  intros Hd (Hlen & Hnn & Hv). split; [exact Hlen | split; [exact Hnn |]].
  intros i l Hi. apply Hd. eapply Hv. exact Hi.
Qed.

Lemma pool_ok_expiry (p p' : Pool) (h : gmap nat Particle) (clock : nat → Z) :
  pool_ok (p, h) → expiry_of p clock 0 (length (particles p)) p' → pool_ok (p', h).
Proof.
  intros ((La & Ll & Ls) & Hnn & Hv) (E1 & E2 & _ & _ & _ & _ & E7 & E8 & Hpt).
  simpl in *. split; [| split]; simpl.
  - unfold same_length. rewrite E1, E2, E7, E8. auto.
  - intros i Hi.
    assert (Hlt : i < length (particles p)).
    { apply lookup_lt_Some in Hi. lia. }
    destruct (Hpt i) as [Hin _]. destruct Hin as [Hact Hptr]; [lia |].
    rewrite Hact in Hi. rewrite Hptr.
    destruct (active p !! i) as [b|] eqn:Eb; simpl in Hi; [| discriminate].
    injection Hi as Hi. apply andb_true_iff in Hi as [-> Hex].
    apply negb_true_iff in Hex. rewrite Hex.
    destruct (Hnn i Eb) as [l El]. exists l. rewrite El. reflexivity.
  - intros i l Hi.
    assert (Hlt : i < length (particles p)).
    { apply lookup_lt_Some in Hi. lia. }
    destruct (Hpt i) as [Hin _]. destruct Hin as [_ Hptr]; [lia |].
    rewrite Hptr in Hi.
    destruct (particles p !! i) as [x|] eqn:Ex; simpl in Hi; [| discriminate].
    destruct (expired p clock i); [discriminate |].
    injection Hi as ->. eapply Hv. exact Ex.
Qed.

Lemma pool_ok_reset_slot (p : Pool) (h : gmap nat Particle) (i : nat) :
  pool_ok (p, h) →
  pool_ok (with_slices p (<[i := None]> (particles p)) (<[i := false]> (active p))
             (<[i := ZeroTime]> (lifetimes p)) (<[i := 0%Z]> (sprites p)), h).
Proof.
  intros ((La & Ll & Ls) & Hnn & Hv). split; [| split]; simpl in *.
  - unfold same_length. simpl. rewrite !length_insert. auto.
  - intros j Hj. simpl in *. destruct (decide (j = i)) as [-> | Hne].
    + apply lookup_lt_Some in Hj as Hlt. rewrite length_insert in Hlt.
      rewrite list_lookup_insert_eq in Hj by exact Hlt. discriminate.
    + rewrite list_lookup_insert_ne in Hj by congruence.
      rewrite list_lookup_insert_ne by congruence. apply Hnn. exact Hj.
  - intros j l Hj. simpl in *. destruct (decide (j = i)) as [-> | Hne].
    + apply lookup_lt_Some in Hj as Hlt. rewrite length_insert in Hlt.
      rewrite list_lookup_insert_eq in Hj by exact Hlt. discriminate.
    + rewrite list_lookup_insert_ne in Hj by congruence. eapply Hv. exact Hj.
Qed.

Lemma Reset_step_ok (p : Pool) (h : gmap nat Particle) (i : nat) :
  pool_ok (p, h) → i < length (particles p) →
  ∃ p', Pool.Reset_step i p = Some p' ∧ pool_ok (p', h) ∧
        length (particles p') = length (particles p).
Proof.
  intros Hok Hi. pose proof Hok as ((La & Ll & Ls) & _). simpl in *.
  destruct (lookup_lt_is_Some_2 (active p) i) as [b Eb]; [lia |].
  unfold Pool.Reset_step. rewrite Eb. simpl. destruct b.
  - rewrite (store_at_Some (particles p)) by lia. simpl.
    rewrite (store_at_Some (active p)) by lia. simpl.
    rewrite (store_at_Some (lifetimes p)) by lia. simpl.
    rewrite (store_at_Some (sprites p)) by lia. simpl.
    eexists. split; [reflexivity |]. split; [apply pool_ok_reset_slot; exact Hok |].
    simpl. apply length_insert.
  - exists p. auto.
Qed.

Lemma Reset_ok (p : Pool) (h : gmap nat Particle) :
  pool_ok (p, h) → ∃ p', Pool.Reset p = Some p' ∧ pool_ok (p', h).
Proof.
  intros Hok. unfold Pool.Reset.
  destruct (forM_inv Pool.Reset_step
              (λ q, pool_ok (q, h) ∧ length (particles q) = length (particles p))
              (λ i, i < length (particles p))
              (seq 0 (length (particles p))) p) as (p' & E & Hok' & _).
  - intros i q Hi (Hq & Hn).
    destruct (Reset_step_ok q h i Hq) as (q' & E & Hq' & Hn'); [lia |].
    exists q'. split; [exact E |]. split; [exact Hq' | congruence].
  - apply Forall_forall. intros i Hi. apply elem_of_seq in Hi. lia.
  - split; [exact Hok | reflexivity].
  - exists p'. auto.
Qed.

Lemma working_set_valid (p : Pool) (h : gmap nat Particle) (clock : nat → Z) :
  pool_ok (p, h) → Forall (valid_ptr h) (working_set p clock).
Proof.
  intros (Hlen & Hnn & Hv). simpl in *. apply Forall_forall. intros q Hq.
  apply elem_of_working_set_from in Hq as (i & _ & Hk & Hp).
  unfold kept in Hk. apply andb_true_iff in Hk as [Ha _].
  unfold active_at in Ha.
  destruct (active p !! i) as [[|]|] eqn:Ea; simpl in Ha; try discriminate.
  destruct (Hnn i Ea) as [l El]. unfold ptr_at in Hp. rewrite El in Hp. simpl in Hp.
  exists l. split; [congruence | eapply Hv; exact El].
Qed.

Section Passes.

Variables (frame : Vector) (c dt : float64) (clock : nat → Z).

Lemma Update_ok (p : Pool) (h : gmap nat Particle) :
  pool_ok (p, h) →
  ∃ p' h', Pool.Update p frame c dt clock h = Some (p', h') ∧ pool_ok (p', h').
Proof.
  intros Hok. pose proof Hok as (Hlen & _). simpl in Hlen.
  destruct (select_eq clock p Hlen) as (p' & Esel & Hexp).
  pose proof (working_set_valid p h clock Hok) as Hws.
  destruct (UpdatePositions_total _ frame c dt h Hws) as (h1 & E1 & D1).
  unfold Pool.Update. rewrite Esel. simpl. rewrite E1. simpl.
  assert (Hok1 : pool_ok (p', h1)).
  { apply (pool_ok_dom p' h); [rewrite D1; reflexivity |].
    eapply pool_ok_expiry; eassumption. }
  destruct (disableCollision p'); simpl.
  - eauto.
  - destruct (SolveCollisions_total (working_set p clock) frame c h1) as (h2 & E2 & D2).
    { eapply Forall_impl; [exact Hws |]. intros q. apply valid_ptr_eq. exact D1. }
    rewrite E2. simpl. exists p', h2. split; [reflexivity |].
    apply (pool_ok_dom p' h1); [rewrite D2; reflexivity | exact Hok1].
Qed.

Lemma UpdateWith_ok (p : Pool) (h : gmap nat Particle) (others : list (option nat)) :
  pool_ok (p, h) → Forall (valid_ptr h) others →
  ∃ p' h', Pool.UpdateWith p frame c dt others clock h = Some (p', h') ∧
           pool_ok (p', h').
Proof.
  intros Hok Hothers. pose proof Hok as (Hlen & _). simpl in Hlen.
  destruct (select_eq clock p Hlen) as (p' & Esel & Hexp).
  pose proof (working_set_valid p h clock Hok) as Hws.
  destruct (UpdatePositions_total _ frame c dt h Hws) as (h1 & E1 & D1).
  unfold Pool.UpdateWith. rewrite Esel. simpl. rewrite E1. simpl.
  assert (Hok1 : pool_ok (p', h1)).
  { apply (pool_ok_dom p' h); [rewrite D1; reflexivity |].
    eapply pool_ok_expiry; eassumption. }
  destruct (disableCollision p'); simpl.
  - eauto.
  - destruct (SolveCollisions_total (working_set p clock ++ others) frame c h1)
      as (h2 & E2 & D2).
    { apply Forall_app. split.
      - eapply Forall_impl; [exact Hws |]. intros q. apply valid_ptr_eq. exact D1.
      - eapply Forall_impl; [exact Hothers |]. intros q. apply valid_ptr_eq. exact D1. }
    rewrite E2. simpl. exists p', h2. split; [reflexivity |].
    apply (pool_ok_dom p' h1); [rewrite D2; reflexivity | exact Hok1].
Qed.

(** A call of [UpdateWith] that returns keeps the invariant, whatever the
    pointers of the caller are. *)
Lemma UpdateWith_keeps (p p' : Pool) (h h' : gmap nat Particle)
  (others : list (option nat)) :
  pool_ok (p, h) →
  Pool.UpdateWith p frame c dt others clock h = Some (p', h') → pool_ok (p', h').
Proof.
  intros Hok E. pose proof Hok as (Hlen & _). simpl in Hlen.
  destruct (select_eq clock p Hlen) as (p1 & Esel & Hexp).
  unfold Pool.UpdateWith in E. rewrite Esel in E. simpl in E.
  destruct (UpdatePositions _ frame c dt h) as [h1|] eqn:E1; simpl in E; [| discriminate].
  apply UpdatePositions_dom in E1.
  assert (Hok1 : pool_ok (p1, h1)).
  { apply (pool_ok_dom p1 h); [rewrite E1; reflexivity |].
    eapply pool_ok_expiry; eassumption. }
  destruct (disableCollision p1); simpl in E.
  - injection E as <- <-. exact Hok1.
  - destruct (SolveCollisions _ frame c h1) as [h2|] eqn:E2; simpl in E; [| discriminate].
    injection E as <- <-. apply SolveCollisions_dom in E2.
    apply (pool_ok_dom p1 h1); [rewrite E2; reflexivity | exact Hok1].
Qed.

End Passes.

Lemma step_ok (s s' : Pool * gmap nat Particle) : pool_ok s → step s s' → pool_ok s'.
Proof.
  intros Hok Hstep. destruct Hstep.
  - pose proof Hok as (Hlen & _). simpl in Hlen.
    destruct (lowest_inactive_or_full p Hlen) as [(k & Hk & Hlow) | Hfull].
    + rewrite (Activate_lowest _ _ _ _ _ _ _ _ p h k Hlen Hlow) in H.
      injection H as <- <-. apply pool_ok_fill_slot; assumption.
    + rewrite (Activate_full _ _ _ _ _ _ _ _ p h Hfull) in H.
      injection H as <- <-. apply pool_ok_grow_slot; assumption.
  - pose proof Hok as ((La & _) & _). simpl in La.
    destruct (lookup_lt_is_Some_2 (active p) i) as [[|] Ea]; [lia | |].
    + rewrite (Deactivate_active p i H Ea) in H0. injection H0 as <- <-.
      apply (pool_ok_deact p h i Hok).
    + rewrite (Deactivate_inactive p i Ea) in H0. injection H0 as <- <-. exact Hok.
  - destruct (Update_ok frame c dt clock p h Hok) as (p1 & h1 & E & Hok1).
    rewrite E in H. injection H as <- <-. exact Hok1.
  - eapply UpdateWith_keeps; eassumption.
  - destruct (Reset_ok p h Hok) as (p1 & E & Hok1).
    rewrite E in H. injection H as <-. exact Hok1.
  - exact Hok.
  - exact Hok.
  - exact Hok.
  - apply (pool_ok_dom p h); [| exact Hok].
    rewrite dom_insert_L. apply union_subseteq_r.
Qed.

Lemma reachable_ok (s : Pool * gmap nat Particle) : reachable s → pool_ok s.
Proof.
  induction 1 as [n h | s s' _ IH Hstep].
  - apply pool_ok_NewPool.
  - eapply step_ok; eassumption.
Qed.

(** ** Pools: no pointer is shared *)

Lemma thinned_refl (p : Pool) : thinned p p.
Proof. intros i l H. exact H. Qed.

Lemma thinned_trans (p q r : Pool) : thinned p q → thinned q r → thinned p r.
Proof. intros H1 H2 i l H. apply H1, H2, H. Qed.

Lemma distinct_thinned (p p' : Pool) : thinned p p' → ptrs_distinct p → ptrs_distinct p'.
Proof. intros Ht Hd i j l Hi Hj. eapply Hd; apply Ht; eassumption. Qed.

Lemma thinned_clear (p : Pool) (i : nat) (act : list bool) (lts : list Time)
  (sps : list Z) :
  thinned p (with_slices p (<[i := None]> (particles p)) act lts sps).
Proof.
  intros j l Hj. simpl in Hj. destruct (decide (j = i)) as [-> | Hne].
  - apply lookup_lt_Some in Hj as Hlt. rewrite length_insert in Hlt.
    rewrite list_lookup_insert_eq in Hj by exact Hlt. discriminate.
  - rewrite list_lookup_insert_ne in Hj by congruence. exact Hj.
Qed.

Lemma thinned_expiry (p p' : Pool) (clock : nat → Z) :
  expiry_of p clock 0 (length (particles p)) p' → thinned p p'.
Proof.
  intros (_ & _ & _ & _ & _ & _ & E7 & _ & Hpt) i l Hi.
  assert (Hlt : i < length (particles p)).
  { apply lookup_lt_Some in Hi. lia. }
  destruct (Hpt i) as [Hin _]. destruct Hin as [_ Hptr]; [lia |].
  rewrite Hptr in Hi.
  destruct (particles p !! i) as [x|]; simpl in Hi; [| discriminate].
  destruct (expired p clock i); [discriminate |]. congruence.
Qed.

Lemma thinned_Reset (p p' : Pool) : Pool.Reset p = Some p' → thinned p p'.
Proof.
  unfold Pool.Reset. intros E.
  apply (forM_preserves _ (thinned p) _ _ _) in E; [exact E | | apply thinned_refl].
  intros i q q' _ Hq Eq. apply (thinned_trans p q q' Hq).
  unfold Pool.Reset_step in Eq.
  destruct (active q !! i) as [[|]|]; simpl in Eq; try discriminate.
  - destruct (store_at (particles q) i None) as [ps|] eqn:E1; simpl in Eq; [| discriminate].
    destruct (store_at (active q) i false) as [act|]; simpl in Eq; [| discriminate].
    destruct (store_at (lifetimes q) i ZeroTime) as [lts|]; simpl in Eq; [| discriminate].
    destruct (store_at (sprites q) i 0%Z) as [sps|]; simpl in Eq; [| discriminate].
    injection Eq as <-. unfold store_at in E1. case_decide; [| discriminate].
    injection E1 as <-. apply thinned_clear.
  - injection Eq as <-. apply thinned_refl.
Qed.

Lemma distinct_fill_slot (p : Pool) (h : gmap nat Particle) (k : nat) (now sprite : Z) :
  pool_ok (p, h) → ptrs_distinct p → k < length (particles p) →
  ptrs_distinct (fill_slot p k (fresh (dom h)) now sprite).
Proof.
  intros (_ & _ & Hv) Hd Hk i j l Hi Hj. simpl in *.
  assert (Hnew : ∀ n, n ≠ k → particles p !! n ≠ Some (Some (fresh (dom h)))).
  { intros n _ Hn. apply (fresh_not_in_heap h). eapply Hv. exact Hn. }
  destruct (decide (i = k)) as [-> | Hik], (decide (j = k)) as [-> | Hjk];
    try reflexivity.
  - rewrite list_lookup_insert_eq in Hi by exact Hk. injection Hi as <-.
    rewrite list_lookup_insert_ne in Hj by congruence.
    exfalso. eapply Hnew; eassumption.
  - rewrite list_lookup_insert_eq in Hj by exact Hk. injection Hj as <-.
    rewrite list_lookup_insert_ne in Hi by congruence.
    exfalso. eapply Hnew; eassumption.
  - rewrite list_lookup_insert_ne in Hi by congruence.
    rewrite list_lookup_insert_ne in Hj by congruence.
    eapply Hd; eassumption.
Qed.

Lemma distinct_grow_slot (p : Pool) (h : gmap nat Particle) (now sprite : Z) :
  pool_ok (p, h) → ptrs_distinct p →
  ptrs_distinct (grow_slot p (fresh (dom h)) now sprite).
Proof.
  intros (_ & _ & Hv) Hd i j l Hi Hj. simpl in *.
  assert (Hold : ∀ n x, n < length (particles p) →
            (particles p ++ [Some (fresh (dom h))]) !! n = Some (Some x) →
            particles p !! n = Some (Some x) ∧ x ≠ fresh (dom h)).
  { intros n x Hn H. rewrite lookup_app_l in H by exact Hn. split; [exact H |].
    intros ->. apply (fresh_not_in_heap h). eapply Hv. exact H. }
  assert (Hlast : ∀ n x, ¬ n < length (particles p) →
            (particles p ++ [Some (fresh (dom h))]) !! n = Some (Some x) →
            n = length (particles p) ∧ x = fresh (dom h)).
  { intros n x Hn H. apply lookup_lt_Some in H as Hlt.
    rewrite length_app in Hlt. simpl in Hlt.
    assert (n = length (particles p)) as -> by lia.
    rewrite lookup_app_r in H by lia. rewrite Nat.sub_diag in H.
    injection H as <-. auto. }
  destruct (decide (i < length (particles p))) as [Hil | Hil],
           (decide (j < length (particles p))) as [Hjl | Hjl].
  - destruct (Hold i l Hil Hi) as [Hi' _]. destruct (Hold j l Hjl Hj) as [Hj' _].
    eapply Hd; eassumption.
  - destruct (Hold i l Hil Hi) as [_ Hne]. destruct (Hlast j l Hjl Hj) as [_ He].
    contradiction.
  - destruct (Hold j l Hjl Hj) as [_ Hne]. destruct (Hlast i l Hil Hi) as [_ He].
    contradiction.
  - destruct (Hlast i l Hil Hi) as [-> _]. destruct (Hlast j l Hjl Hj) as [-> _].
    reflexivity.
Qed.

Lemma step_distinct (s s' : Pool * gmap nat Particle) :
  pool_ok s → ptrs_distinct s.1 → step s s' → ptrs_distinct s'.1.
Proof.
  intros Hok Hd Hstep. destruct Hstep; simpl in *.
  - pose proof Hok as (Hlen & _). simpl in Hlen.
    destruct (lowest_inactive_or_full p Hlen) as [(k & Hk & Hlow) | Hfull].
    + rewrite (Activate_lowest _ _ _ _ _ _ _ _ p h k Hlen Hlow) in H.
      injection H as <- <-. apply distinct_fill_slot; assumption.
    + rewrite (Activate_full _ _ _ _ _ _ _ _ p h Hfull) in H.
      injection H as <- <-. apply distinct_grow_slot; assumption.
  - pose proof Hok as ((La & _) & _). simpl in La.
    destruct (lookup_lt_is_Some_2 (active p) i) as [[|] Ea]; [lia | |].
    + rewrite (Deactivate_active p i H Ea) in H0. injection H0 as <- <-.
      eapply distinct_thinned; [apply thinned_clear | exact Hd].
    + rewrite (Deactivate_inactive p i Ea) in H0. injection H0 as <- <-. exact Hd.
  - pose proof Hok as (Hlen & _). simpl in Hlen.
    destruct (select_eq clock p Hlen) as (p1 & Esel & Hexp).
    unfold Pool.Update in H. rewrite Esel in H. simpl in H.
    destruct (UpdatePositions _ frame c dt h) as [h1|]; simpl in H; [| discriminate].
    destruct (if disableCollision p1 then Some h1
              else SolveCollisions (working_set p clock) frame c h1) as [h2|];
      simpl in H; [| discriminate].
    injection H as <- <-.
    eapply distinct_thinned; [eapply thinned_expiry; exact Hexp | exact Hd].
  - pose proof Hok as (Hlen & _). simpl in Hlen.
    destruct (select_eq clock p Hlen) as (p1 & Esel & Hexp).
    unfold Pool.UpdateWith in H. rewrite Esel in H. simpl in H.
    destruct (UpdatePositions _ frame c dt h) as [h1|]; simpl in H; [| discriminate].
    destruct (if disableCollision p1 then Some h1
              else SolveCollisions (working_set p clock ++ others) frame c h1)
      as [h2|]; simpl in H; [| discriminate].
    injection H as <- <-.
    eapply distinct_thinned; [eapply thinned_expiry; exact Hexp | exact Hd].
  - eapply distinct_thinned; [eapply thinned_Reset; exact H | exact Hd].
  - exact Hd.
  - exact Hd.
  - exact Hd.
  - exact Hd.
Qed.

(** In a reachable state no two slots of the pool hold the same pointer,
    so the working set of an update has no repetition. *)
Lemma reachable_distinct (s : Pool * gmap nat Particle) :
  reachable s → ptrs_distinct s.1.
Proof.
  induction 1 as [n h | s s' Hr IH Hstep].
  - intros i j l Hi _. simpl in Hi. apply lookup_replicate in Hi as [Hi _]. discriminate.
  - eapply step_distinct; [apply reachable_ok; exact Hr | exact IH | exact Hstep].
Qed.

Lemma reachable_working_set_NoDup (p : Pool) (h : gmap nat Particle)
  (clock : nat → Z) :
  reachable (p, h) → NoDup (working_set p clock).
Proof.
  intros Hr. apply working_set_NoDup.
  - apply (reachable_ok _ Hr).
  - apply (reachable_distinct _ Hr).
Qed.

(** From a reachable state no call panics: [Activate], [Deactivate] inside
    the pool, [Update], [Reset], and [UpdateWith] with pointers of the heap. *)
Lemma reachable_no_panic (p : Pool) (h : gmap nat Particle) :
  reachable (p, h) →
  (∀ pos rap angPos angVel mass radius sprite now,
     is_Some (Pool.Activate p pos rap angPos angVel mass radius sprite now h)) ∧
  (∀ i, i < length (particles p) → is_Some (Pool.Deactivate p i)) ∧
  (∀ frame c dt clock, is_Some (Pool.Update p frame c dt clock h)) ∧
  (∀ frame c dt clock others, Forall (valid_ptr h) others →
     is_Some (Pool.UpdateWith p frame c dt others clock h)) ∧
  is_Some (Pool.Reset p).
Proof.
  intros Hr. apply reachable_ok in Hr as Hok.
  pose proof Hok as (Hlen & _). simpl in Hlen.
  split; [| split; [| split; [| split]]].
  - intros pos rap angPos angVel mass radius sprite now.
    destruct (lowest_inactive_or_full p Hlen) as [(k & _ & Hlow) | Hfull].
    + erewrite Activate_lowest by eassumption. eauto.
    + rewrite Activate_full by assumption. eauto.
  - intros i Hi. destruct Hlen as (La & _).
    destruct (lookup_lt_is_Some_2 (active p) i) as [[|] Ea]; [lia | |].
    + rewrite (Deactivate_active p i Hi Ea). eauto.
    + rewrite (Deactivate_inactive p i Ea). eauto.
  - intros. destruct (Update_ok frame c dt clock p h Hok) as (p' & h' & E & _).
    rewrite E. eauto.
  - intros frame c dt clock others Ho.
    destruct (UpdateWith_ok frame c dt clock p h others Hok Ho) as (p' & h' & E & _).
    rewrite E. eauto.
  - destruct (Reset_ok p h Hok) as (p' & E & _). rewrite E. eauto.
Qed.

(** ** A pool in use *)

Lemma one_active_reachable : reachable one_active.
Proof.
  eapply reach_step; [apply (reach_NewPool 1 ∅) |].
  apply (step_Activate _ _ Vector0 (mkVector (Fin 5) (Fin 0)) (Fin 0) (Fin 0)
           (Fin 1) (Fin 1) 0%Z 7%Z).
  apply Activate_lowest; [repeat split |].
  split; [reflexivity | intros j Hj; lia].
Qed.

Lemma one_active_full : full one_active.1.
Proof. intros [| j] Hj; [reflexivity | simpl in Hj; lia]. Qed.

Lemma two_active_step : step one_active two_active.
Proof.
  apply (step_Activate _ _ Vector0 (mkVector (Fin 5) (Fin 0)) (Fin 0) (Fin 0)
           (Fin 1) (Fin 1) 0%Z 8%Z).
  apply Activate_full. exact one_active_full.
Qed.

Lemma two_active_reachable : reachable two_active.
Proof. exact (reach_step _ _ one_active_reachable two_active_step). Qed.

Lemma one_left_reachable : reachable one_left.
Proof.
  eapply reach_step; [exact two_active_reachable |].
  apply (step_Deactivate _ _ 0 _ true); [simpl; lia |].
  apply Deactivate_active; [simpl; lia | reflexivity].
Qed.

(** C7.  In every state reachable from [NewPool] by [Activate],
    [Deactivate] with an index inside the pool, [Update], [UpdateWith],
    [Reset], the three configuration calls and writes of the rest of the
    game to the heap, the four slices have one length and an active slot
    holds a pointer that is not nil. *)
Theorem pool_invariant (p : Pool) (h : gmap nat Particle) :
  reachable (p, h) →
  (length (active p) = length (particles p) ∧
   length (lifetimes p) = length (particles p) ∧
   length (sprites p) = length (particles p)) ∧
  (∀ i, active p !! i = Some true → ∃ l, particles p !! i = Some (Some l)).
Proof.
  intros Hr. apply reachable_ok in Hr as (Hlen & Hnn & _). split; [exact Hlen | exact Hnn].
Qed.

Lemma pool_invariant_witness :
  reachable one_left ∧
  length (active one_left.1) = length (particles one_left.1) ∧
  active one_left.1 !! 1 = Some true ∧
  ∃ l, particles one_left.1 !! 1 = Some (Some l).
Proof.
  destruct (pool_invariant one_left.1 one_left.2 one_left_reachable)
    as ((Ha & _) & Hnn).
  split; [exact one_left_reachable |]. split; [exact Ha |].
  split; [reflexivity |]. apply Hnn. reflexivity.
Defined.

(** ** The hyperbolic tangent *)

Section Tanh.

Local Open Scope R_scope.

Lemma div_lt_l (a b c : R) : 0 < b → a < c * b → a / b < c.
Proof.
  intros Hb H. apply (Rmult_lt_reg_r b); [exact Hb |].
  unfold Rdiv. rewrite Rmult_assoc, Rinv_l by lra. lra.
Qed.

Lemma div_gt_l (a b c : R) : 0 < b → c * b < a → c < a / b.
Proof.
  intros Hb H. apply (Rmult_lt_reg_r b); [exact Hb |].
  unfold Rdiv. rewrite Rmult_assoc, Rinv_l by lra. lra.
Qed.

Lemma cosh_pos (x : R) : 0 < cosh x.
Proof. unfold cosh. pose proof (exp_pos x). pose proof (exp_pos (- x)). lra. Qed.

Lemma sinh_pos (x : R) : 0 < x → 0 < sinh x.
Proof. intros H. rewrite <- sinh_0. apply sinh_lt. exact H. Qed.

Lemma tanh_pos (x : R) : 0 < x → 0 < tanh x.
Proof.
  intros H. unfold tanh.
  apply Rdiv_lt_0_compat; [apply sinh_pos; exact H | apply cosh_pos].
Qed.

Lemma tanh_lt_1 (x : R) : tanh x < 1.
Proof.
  unfold tanh. apply div_lt_l; [apply cosh_pos |].
  unfold sinh, cosh. pose proof (exp_pos (- x)). lra.
Qed.

Lemma tanh_gt_m1 (x : R) : -1 < tanh x.
Proof.
  unfold tanh. apply div_gt_l; [apply cosh_pos |].
  unfold sinh, cosh. pose proof (exp_pos x). lra.
Qed.

(** [x cosh x - sinh x] vanishes at 0 and has the derivative [x sinh x]. *)
Lemma sinh_lt_x_cosh (x : R) : 0 < x → sinh x < x * cosh x.
Proof.
  intros Hx.
  destruct (MVT_cor2 (fun t => t * cosh t - sinh t) (fun t => t * sinh t) 0 x Hx)
    as (t & Ht & Hin).
  - intros t _.
    replace (t * sinh t) with ((1 * cosh t + id t * sinh t) - cosh t)
      by (unfold id; ring).
    apply (derivable_pt_lim_minus (id * cosh)%F sinh).
    + apply derivable_pt_lim_mult;
        [apply derivable_pt_lim_id | apply derivable_pt_lim_cosh].
    + apply derivable_pt_lim_sinh.
  - rewrite sinh_0 in Ht.
    assert (0 < t * sinh t * (x - 0)).
    { apply Rmult_lt_0_compat; [| lra].
      apply Rmult_lt_0_compat; [lra | apply sinh_pos; lra]. }
    lra.
Qed.

Lemma tanh_lt_id (x : R) : 0 < x → tanh x < x.
Proof.
  intros Hx. unfold tanh. apply div_lt_l; [apply cosh_pos |].
  apply sinh_lt_x_cosh. exact Hx.
Qed.

(** ** Magnitudes *)

Lemma sqrt_scale (x y k : R) :
  sqrt (x * k * (x * k) + y * k * (y * k)) = Rabs k * sqrt (x * x + y * y).
Proof.
  replace (x * k * (x * k) + y * k * (y * k)) with (Rsqr k * (x * x + y * y))
    by (unfold Rsqr; ring).
  rewrite sqrt_mult; [| apply Rle_0_sqr | apply sumsq_nonneg].
  rewrite sqrt_Rsqr_abs. reflexivity.
Qed.

Lemma Mag_eq (x y m : R) :
  0 <= m → x * x + y * y = m * m → Mag (mkVector (Fin x) (Fin y)) = Fin m.
Proof.
  intros Hm E. rewrite Mag_Fin, E. f_equal. apply sqrt_square. exact Hm.
Qed.

Lemma SetMag_Fin (x y s : R) :
  sqrt (x * x + y * y) ≠ 0 →
  SetMag (mkVector (Fin x) (Fin y)) (Fin s)
  = mkVector (Fin (x * (s / sqrt (x * x + y * y))))
             (Fin (y * (s / sqrt (x * x + y * y)))).
Proof.
  intros Hm. unfold SetMag. rewrite Mag_Fin, feqb_Fin_false by exact Hm.
  unfold Scl. simpl. rewrite fdiv_Fin by exact Hm. rewrite !fmul_Fin. reflexivity.
Qed.

Lemma SetMag_null (x y : R) (s : float64) :
  sqrt (x * x + y * y) = 0 →
  SetMag (mkVector (Fin x) (Fin y)) s = mkVector (Fin x) (Fin y).
Proof.
  intros Hm. unfold SetMag. rewrite Mag_Fin, feqb_Fin_true by exact Hm. reflexivity.
Qed.

Lemma Mag_SetMag (x y s : R) :
  sqrt (x * x + y * y) ≠ 0 →
  Mag (SetMag (mkVector (Fin x) (Fin y)) (Fin s)) = Fin (Rabs s).
Proof.
  intros Hm. rewrite SetMag_Fin by exact Hm. rewrite Mag_Fin. f_equal.
  rewrite sqrt_scale.
  pose proof (sqrt_pos (x * x + y * y)) as Hpos.
  unfold Rdiv. rewrite Rabs_mult, Rabs_inv.
  rewrite (Rabs_pos_eq (sqrt (x * x + y * y))) by exact Hpos.
  field. exact Hm.
Qed.

End Tanh.

(** ** Collisions of two distinct particles *)

Lemma CheckCollision_eq (p q : Particle) (frame : Vector) :
  Particle.CheckCollision p q frame
  = (Mag (Sub (Pos p) (Pos q))
     <? effective_radius p (Unit (Sub (Pos p) (Pos q))) frame
        + effective_radius q (Unit (Sub (Pos p) (Pos q))) frame)%f64.
Proof. reflexivity. Qed.

Lemma resolve_distinct (a b : nat) (x y : Particle) (frame : Vector)
  (c : float64) (h : gmap nat Particle) :
  a ≠ b → h !! a = Some x → h !! b = Some y →
  resolve (Some a) (Some b) frame c h
  = Some (if Particle.CheckCollision x y frame
          then <[b := (bounce x y c).2]> (<[a := (bounce x y c).1]> h)
          else h).
Proof.
  intros Hab Ha Hb. unfold resolve, load, modify. simpl. rewrite Ha, Hb. simpl.
  destruct (Particle.CheckCollision x y frame); [| reflexivity].
  repeat (first [ rewrite lookup_insert_eq
                | rewrite lookup_insert_ne by congruence
                | rewrite Ha | rewrite Hb ]; simpl).
  f_equal. apply map_eq. intros l.
  destruct (decide (l = b)) as [-> | Hlb];
    [| destruct (decide (l = a)) as [-> | Hla]];
    repeat (first [ rewrite lookup_insert_eq
                  | rewrite lookup_insert_ne by congruence ]);
    reflexivity.
Qed.

Lemma SolveCollisions_pair (a b : nat) (x y : Particle) (frame : Vector)
  (c : float64) (h : gmap nat Particle) :
  a ≠ b → h !! a = Some x → h !! b = Some y →
  SolveCollisions [Some a; Some b] frame c h
  = Some (if Particle.CheckCollision x y frame
          then <[b := (bounce x y c).2]> (<[a := (bounce x y c).1]> h)
          else h).
Proof.
  intros Hab Ha Hb. unfold SolveCollisions. simpl.
  rewrite (resolve_distinct a b x y frame c h Hab Ha Hb). reflexivity.
Qed.

(** ** The velocity of an integration step *)

Lemma Update_zero_force_Rap (p : Particle) (frame : Vector) (c dt : float64)
  (m t g : R) :
  Acc p = Vector0 → finiteV (Rap p) → Mass p = Fin m → m ≠ 0%R → dt = Fin t →
  Kinematics.Gamma (Mag (Sub (Vel p) frame)) c = Fin g →
  Rap (Particle.Update p Vector0 frame c dt) = Rap p.
Proof.
  intros Hacc (x & y & Hrap) Hm Hm0 Hdt Hg.
  unfold Particle.Update. simpl. rewrite Hacc, Hrap, Hm, Hdt, Hg.
  unfold Add, Scl, Vector0. simpl.
  rewrite fdiv_Fin by exact Hm0. rewrite !fmul_Fin, !fadd_Fin.
  rewrite fdiv_Fin by lra. rewrite !fmul_Fin, !fadd_Fin.
  f_equal; f_equal; ring.
Qed.

(** C2 as amended.  After [Particle.Update] the stored velocity is the
    tanh image of the rapidity the particle had before the call, and the
    stored rapidity is [rapidity + (prevAcc + force/mass)*dtr/2]; the
    velocity is the image of the new rapidity when the two rapidities are
    equal, as they are under zero force and zero previous acceleration
    (every call of [UpdatePositions] on a particle that has only been
    integrated that way). *)
Theorem velocity_from_previous_rapidity (p : Particle) (force frame : Vector)
  (c dt : float64) :
  Vel (Particle.Update p force frame c dt) = velocity_of_rapidity c (Rap p) ∧
  Rap (Particle.Update p force frame c dt)
  = Add (Rap p)
      (Scl (Add (Acc p) (Scl force (Fin 1 / Mass p)))
         (dt * Kinematics.Gamma (Mag (Sub (Vel p) frame)) c / Fin 2)) ∧
  (Rap (Particle.Update p force frame c dt) = Rap p →
   Vel (Particle.Update p force frame c dt)
   = velocity_of_rapidity c (Rap (Particle.Update p force frame c dt))) ∧
  (∀ m t g : R,
     force = Vector0 → Acc p = Vector0 → finiteV (Rap p) →
     Mass p = Fin m → m ≠ 0%R → dt = Fin t →
     Kinematics.Gamma (Mag (Sub (Vel p) frame)) c = Fin g →
     Acc (Particle.Update p force frame c dt) = Vector0 ∧
     Rap (Particle.Update p force frame c dt) = Rap p ∧
     Vel (Particle.Update p force frame c dt)
     = velocity_of_rapidity c (Rap (Particle.Update p force frame c dt))).
Proof.
  split; [reflexivity |]. split; [reflexivity |]. split.
  - intros E. rewrite E. reflexivity.
  - intros m t g -> Hacc Hrap Hm Hm0 Hdt Hg.
    pose proof (Update_zero_force_Rap p frame c dt m t g Hacc Hrap Hm Hm0 Hdt Hg) as E.
    split; [| split; [exact E | rewrite E; reflexivity]].
    unfold Particle.Update. simpl. rewrite Hm. unfold Scl, Vector0. simpl.
    rewrite fdiv_Fin by exact Hm0. rewrite !fmul_Fin. f_equal; f_equal; ring.
Qed.

Ltac fin_calc :=
  repeat (first [ rewrite fadd_Fin | rewrite fsub_Fin | rewrite fmul_Fin
                | rewrite fneg_Fin | rewrite Tanh_Fin
                | rewrite fdiv_Fin by lra ]).

Lemma bounce_fields (x y : Particle) (c : float64) :
  let axis := Unit (Sub (Pos x) (Pos y)) in
  let step := (Fin (1 / 2) * (Particle.ScaledRadius x + Particle.ScaledRadius y
                              - Mag (Sub (Pos x) (Pos y))))%f64 in
  Pos (bounce x y c).1 = Add (Pos x) (Scl axis step) ∧
  Pos (bounce x y c).2 = Sub (Pos y) (Scl axis step) ∧
  Gamma (bounce x y c).1 = Gamma x ∧ Gamma (bounce x y c).2 = Gamma y ∧
  Radius (bounce x y c).1 = Radius x ∧ Radius (bounce x y c).2 = Radius y ∧
  Rap (bounce x y c).1 = velocity_of_rapidity c (Vel (bounce x y c).1) ∧
  Rap (bounce x y c).2 = velocity_of_rapidity c (Vel (bounce x y c).2).
Proof. repeat split. Qed.

Lemma bounce_Vel (x y : Particle) (c : float64) :
  Vel (bounce x y c).1
  = from_frame (to_frame (Vel x) (center_of_momentum x y) c)
      (center_of_momentum x y) c ∧
  Vel (bounce x y c).2
  = from_frame (to_frame (Vel y) (center_of_momentum x y) c)
      (center_of_momentum x y) c.
Proof. split; reflexivity. Qed.

Section Collisions.

Local Open Scope R_scope.

Lemma sqrt_x0 (x : R) : 0 <= x → sqrt (x * x + 0 * 0) = x.
Proof.
  intros Hx. replace (x * x + 0 * 0) with (x * x) by ring.
  apply sqrt_square. exact Hx.
Qed.

Lemma fadd_comm (a b : float64) : fadd a b = fadd b a.
Proof. destruct a, b; try reflexivity. rewrite !fadd_Fin. f_equal. ring. Qed.

Lemma Mag_Sub_sym (u v : Vector) : Mag (Sub u v) = Mag (Sub v u).
Proof.
  destruct u as [[ux|] [uy|]], v as [[vx|] [vy|]]; try reflexivity.
  unfold Sub. simpl. rewrite !fsub_Fin, !Mag_Fin. f_equal. f_equal. ring.
Qed.

(** With gamma 1 no contraction applies, whatever the directions are. *)
Lemma effective_radius_Gamma_1 (p : Particle) (axis frame : Vector) :
  Gamma p = Fin 1 → effective_radius p axis frame = Particle.ScaledRadius p.
Proof.
  intros Hg. unfold effective_radius. rewrite Hg.
  rewrite fdiv_Fin by lra. rewrite fsub_Fin.
  destruct (Particle.ScaledRadius p) as [s|]; [| reflexivity].
  destruct (Dot (Unit (Sub (Vel p) frame)) axis) as [d|]; [| reflexivity].
  rewrite !fmul_Fin, fsub_Fin, fmul_Fin. simpl. f_equal. field.
Qed.

Lemma Mag_Fin_inv (v : Vector) (d : R) :
  Mag v = Fin d →
  ∃ x y, v = mkVector (Fin x) (Fin y) ∧ 0 <= d ∧ d * d = x * x + y * y.
Proof.
  destruct v as [[x|] [y|]]; try discriminate.
  rewrite Mag_Fin. intros [= <-]. exists x, y.
  split; [reflexivity |]. split; [apply sqrt_pos |].
  apply sqrt_sqrt, sumsq_nonneg.
Qed.

(** The tanh image of the tanh image of a vector is shorter than it. *)
Lemma twice_tanh_image (x y c : R) :
  0 < c → sqrt (x * x + y * y) ≠ 0 →
  let v := mkVector (Fin x) (Fin y) in
  Mag (velocity_of_rapidity (Fin c) (velocity_of_rapidity (Fin c) v))
  = Fin (c * tanh (tanh (sqrt (x * x + y * y) / c))) ∧
  c * tanh (tanh (sqrt (x * x + y * y) / c)) < sqrt (x * x + y * y).
Proof.
  intros Hc Hm v.
  pose proof (sqrt_pos (x * x + y * y)) as Hm0.
  set (m := sqrt (x * x + y * y)) in *.
  assert (Hmc : 0 < m / c) by (apply Rdiv_lt_0_compat; lra).
  pose proof (tanh_pos (m / c) Hmc) as Ht.
  pose proof (tanh_lt_id (m / c) Hmc) as Hlt.
  pose proof (tanh_lt_id (tanh (m / c)) Ht) as Hlt2.
  split.
  - unfold velocity_of_rapidity at 2. unfold v.
    rewrite Mag_Fin, fdiv_Fin by lra. fold m. rewrite Tanh_Fin, fmul_Fin.
    rewrite SetMag_Fin by exact Hm. fold m.
    unfold velocity_of_rapidity.
    assert (Hs : sqrt (x * (c * tanh (m / c) / m) * (x * (c * tanh (m / c) / m)) +
                       y * (c * tanh (m / c) / m) * (y * (c * tanh (m / c) / m)))
                 = c * tanh (m / c)).
    { rewrite sqrt_scale. fold m.
      rewrite Rabs_pos_eq; [field; exact Hm |].
      apply Rlt_le, Rdiv_lt_0_compat; [| lra]. apply Rmult_lt_0_compat; lra. }
    rewrite Mag_Fin, Hs, fdiv_Fin by lra. rewrite Tanh_Fin, fmul_Fin.
    rewrite Mag_SetMag by (rewrite Hs; nra).
    f_equal. replace (c * tanh (m / c) / c) with (tanh (m / c)) by (field; lra).
    apply Rabs_pos_eq. apply Rlt_le, Rmult_lt_0_compat; [lra |].
    apply tanh_pos. exact Ht.
  - apply Rlt_trans with (c * tanh (m / c)); [nra |].
    apply Rlt_le_trans with (c * (m / c)); [nra |].
    right. field. lra.
Qed.

(** So a velocity that is not zero is not the image of its own image. *)
Lemma tanh_image_not_inverse (v : Vector) (c : float64) :
  (Fin 0 <? c)%f64 = true → finiteV v → Mag v ≠ Fin 0 →
  velocity_of_rapidity c (velocity_of_rapidity c v) ≠ v.
Proof.
  intros Hc (x & y & ->) Hm E.
  apply fltb_true_inv in Hc as (z & cr & Hz & -> & Hlt). injection Hz as <-.
  rewrite Mag_Fin in Hm.
  assert (Hm' : sqrt (x * x + y * y) ≠ 0) by congruence.
  destruct (twice_tanh_image x y cr Hlt Hm') as [HM Hless].
  rewrite E, Mag_Fin in HM. injection HM as HM. lra.
Qed.

End Collisions.

(** ** The integration step at the start of a game *)

Section Examples.

Local Open Scope R_scope.

(** C2, counterexample.  The ship at rest under a thrust of 10 along x,
    with [c = 10] and a tick of 1/60: the new rapidity is (1/12, 0), the
    stored velocity is still zero, and the tanh image of the new rapidity
    is not zero. *)
Lemma Update_uses_old_rapidity :
  let p' := Particle.Update ship (mkVector (Fin 10) (Fin 0)) Vector0
              (Fin 10) (Fin (1 / 60)) in
  Rap p' = mkVector (Fin (1 / 12)) (Fin 0) ∧
  Vel p' = Vector0 ∧
  (∃ vx, 0 < vx ∧ velocity_of_rapidity (Fin 10) (Rap p') = mkVector (Fin vx) (Fin 0)) ∧
  Vel p' ≠ velocity_of_rapidity (Fin 10) (Rap p').
Proof.
  intros p'.
  assert (Hg : Kinematics.Gamma (Mag (Sub Vector0 Vector0)) (Fin 10) = Fin 1).
  { unfold Vector0. rewrite Sub_self, Mag_Vector0. apply Gamma_at_zero. lra. }
  assert (Hrap : Rap p' = mkVector (Fin (1 / 12)) (Fin 0)).
  { unfold p', Particle.Update, ship. simpl. rewrite Hg.
    unfold Add, Scl, Vector0. simpl. fin_calc. f_equal; f_equal; lra. }
  assert (Hvel : Vel p' = Vector0).
  { unfold p', Particle.Update, ship. simpl. unfold Vector0.
    apply SetMag_null. rewrite sqrt_x0 by lra. reflexivity. }
  assert (Hmap : ∃ vx, 0 < vx ∧
            velocity_of_rapidity (Fin 10) (Rap p') = mkVector (Fin vx) (Fin 0)).
  { rewrite Hrap. unfold velocity_of_rapidity.
    rewrite Mag_Fin, sqrt_x0 by lra. rewrite fdiv_Fin by lra.
    rewrite Tanh_Fin, fmul_Fin.
    rewrite SetMag_Fin by (rewrite sqrt_x0 by lra; lra). rewrite sqrt_x0 by lra.
    eexists. split; [| f_equal; try reflexivity; f_equal; ring].
    pose proof (tanh_pos (1 / 12 / 10)) as Ht.
    apply Rmult_lt_0_compat; [lra |]. apply Rdiv_lt_0_compat; [| lra].
    apply Rmult_lt_0_compat; [lra | apply Ht; lra]. }
  split; [exact Hrap |]. split; [exact Hvel |]. split; [exact Hmap |].
  destruct Hmap as (vx & Hvx & E). rewrite Hvel, E. unfold Vector0.
  intros [= H]. lra.
Qed.

(** ** Two fast particles side by side *)

Lemma fast_speed : Mag (Vel fastA) = Fin 24 ∧ Mag (Vel fastB) = Fin 24.
Proof. split; apply Mag_eq; lra. Qed.

(** Their gamma fields are the Lorentz factor of their speed. *)
Lemma fast_Gamma :
  Kinematics.Gamma (Mag (Sub (Vel fastA) Vector0)) (Fin 25) = Gamma fastA ∧
  Kinematics.Gamma (Mag (Sub (Vel fastB) Vector0)) (Fin 25) = Gamma fastB.
Proof.
  assert (H : Kinematics.Gamma (Fin 24) (Fin 25) = Fin (25 / 7)).
  { unfold Kinematics.Gamma. fin_calc.
    replace (1 - 24 * 24 / (25 * 25)) with ((7 / 25) * (7 / 25)) by lra.
    rewrite Sqrt_Fin by lra. rewrite sqrt_square by lra. fin_calc. f_equal. lra. }
  split.
  - unfold Sub, Vector0, fastA. simpl. fin_calc. rewrite (Mag_eq _ _ 24) by lra. exact H.
  - unfold Sub, Vector0, fastB. simpl. fin_calc. rewrite (Mag_eq _ _ 24) by lra. exact H.
Qed.

Lemma fast_collide : Particle.CheckCollision fastA fastB Vector0 = true.
Proof.
  unfold Particle.CheckCollision, Particle.ScaledRadius, physScale, Unit, Dot, Scl,
    Sub, Vector0, fastA, fastB.
  simpl. fin_calc.
  rewrite (Mag_eq _ _ (1 / 2)) by lra.
  rewrite !(Mag_eq _ _ 24) by lra.
  fin_calc. simpl. fin_calc. apply fltb_Fin_true. lra.
Qed.

Lemma fast_bounce_Vel :
  Vel (bounce fastA fastB (Fin 25)).1
  = mkVector (Fin (96 / 5)) (Fin (- (225000 / 6409))).
Proof.
  assert (HC : center_of_momentum fastA fastB = mkVector (Fin (96 / 5)) (Fin 0)).
  { unfold center_of_momentum, Particle.Momentum, Particle.MassRel, Add, Scl,
      fastA, fastB.
    simpl. fin_calc. f_equal; f_equal; lra. }
  assert (HT : to_frame (Vel fastA) (mkVector (Fin (96 / 5)) (Fin 0)) (Fin 25)
               = mkVector (Fin 0) (Fin (225000 / 6409))).
  { unfold to_frame, Dot, Sub, Scl, fastA. simpl. fin_calc. f_equal; f_equal; lra. }
  rewrite (proj1 (bounce_Vel fastA fastB (Fin 25))), HC, HT.
  unfold from_frame, Dot, Neg, Add, Scl. simpl. fin_calc. f_equal; f_equal; lra.
Qed.

(** C1 at two fast particles.  Both particles are slower than [c = 25]
    (speed 24, gamma 25/7) and collide; [SolveCollisions] leaves the first
    one with the velocity (96/5, -225000/6409), about (19.2, -35.1), whose
    magnitude is not below 25: the speed bound that the claim states is
    lost in the collision. *)
Lemma SolveCollisions_exceeds_c :
  let h : gmap nat Particle := <[0%nat := fastA]> (<[1%nat := fastB]> ∅) in
  (Mag (Vel fastA) <? Fin 25)%f64 = true ∧
  (Mag (Vel fastB) <? Fin 25)%f64 = true ∧
  Particle.CheckCollision fastA fastB Vector0 = true ∧
  ∃ h' a', SolveCollisions [Some 0%nat; Some 1%nat] Vector0 (Fin 25) h = Some h' ∧
           h' !! 0%nat = Some a' ∧
           (Mag (Vel a') <? Fin 25)%f64 = false.
Proof.
  intros h. destruct fast_speed as [SA SB].
  split; [rewrite SA; apply fltb_Fin_true; lra |].
  split; [rewrite SB; apply fltb_Fin_true; lra |].
  split; [exact fast_collide |].
  eexists. eexists. split.
  { apply (SolveCollisions_pair 0 1 fastA fastB); [lia | reflexivity | reflexivity]. }
  rewrite fast_collide. split.
  { rewrite lookup_insert_ne by lia. apply lookup_insert_eq. }
  rewrite fast_bounce_Vel, Mag_Fin. apply fltb_Fin_false.
  apply Rle_trans with (sqrt (25 * 25)).
  - rewrite sqrt_square by lra. lra.
  - apply sqrt_le_1_alt. lra.
Qed.

(** ** A moving particle next to one at rest *)

(** C3, counterexample.  Seen from the moving particle the pair does not
    collide (0.6 is not below 0.24 + 0.3); seen from the resting one it
    does (0.6 is below 0.3 + 0.36). *)
Lemma CheckCollision_not_symmetric :
  Particle.CheckCollision movingP restingQ Vector0 = false ∧
  Particle.CheckCollision restingQ movingP Vector0 = true.
Proof.
  split.
  - unfold Particle.CheckCollision, Particle.ScaledRadius, physScale, Unit, Dot,
      Scl, Sub, Vector0, movingP, restingQ.
    simpl. fin_calc.
    repeat first [ rewrite (Mag_eq _ _ (3 / 5)) by lra
                 | rewrite (Mag_eq _ _ 6) by lra
                 | rewrite (Mag_eq _ _ 0) by lra ].
    rewrite fdiv_zero. fin_calc. simpl. fin_calc.
    apply fltb_Fin_false. lra.
  - unfold Particle.CheckCollision, Particle.ScaledRadius, physScale, Unit, Dot,
      Scl, Sub, Vector0, movingP, restingQ.
    simpl. fin_calc.
    repeat first [ rewrite (Mag_eq _ _ (3 / 5)) by lra
                 | rewrite (Mag_eq _ _ 6) by lra
                 | rewrite (Mag_eq _ _ 0) by lra ].
    rewrite fdiv_zero. fin_calc. simpl. fin_calc.
    apply fltb_Fin_true. lra.
Qed.

End Examples.

(** C3 as amended.  For two particles whose gamma fields are both 1 (no
    contraction applies), at any positions and in any frame, the collision
    test gives the same answer in both orders. *)
Theorem CheckCollision_symmetric (p q : Particle) (frame : Vector) :
  Gamma p = Fin 1 → Gamma q = Fin 1 →
  Particle.CheckCollision p q frame = Particle.CheckCollision q p frame.
Proof.
  intros Hp Hq. rewrite !CheckCollision_eq.
  rewrite !effective_radius_Gamma_1 by assumption.
  rewrite (Mag_Sub_sym (Pos p) (Pos q)), (fadd_comm (Particle.ScaledRadius p)).
  reflexivity.
Qed.

Lemma CheckCollision_symmetric_witness :
  Particle.CheckCollision restingQ
    (newParticle (mkVector (Fin 1) (Fin 0)) Vector0 (Fin 0) (Fin 0) (Fin 1) (Fin 1))
    Vector0
  = Particle.CheckCollision
      (newParticle (mkVector (Fin 1) (Fin 0)) Vector0 (Fin 0) (Fin 0) (Fin 1) (Fin 1))
      restingQ Vector0.
Proof.
  apply CheckCollision_symmetric; reflexivity.
Defined.

(** ** Two particles meeting head-on *)

Section HeadOn.

Local Open Scope R_scope.

Lemma head_collide : Particle.CheckCollision headP headQ Vector0 = true.
Proof.
  unfold Particle.CheckCollision, Particle.ScaledRadius, physScale, Unit, Dot, Scl,
    Sub, Vector0, headP, headQ.
  simpl. fin_calc.
  repeat first [ rewrite (Mag_eq _ _ (4 / 5)) by lra
               | rewrite (Mag_eq _ _ 6) by lra ].
  fin_calc. simpl. fin_calc. apply fltb_Fin_true. lra.
Qed.

(** Their gamma fields are the Lorentz factor of their speed. *)
Lemma head_Gamma :
  Kinematics.Gamma (Mag (Sub (Vel headP) Vector0)) (Fin 10) = Gamma headP ∧
  Kinematics.Gamma (Mag (Sub (Vel headQ) Vector0)) (Fin 10) = Gamma headQ.
Proof.
  assert (H : Kinematics.Gamma (Fin 6) (Fin 10) = Fin (5 / 4)).
  { unfold Kinematics.Gamma. fin_calc.
    replace (1 - 6 * 6 / (10 * 10)) with ((4 / 5) * (4 / 5)) by lra.
    rewrite Sqrt_Fin by lra. rewrite sqrt_square by lra. fin_calc. f_equal. lra. }
  split.
  - unfold Sub, Vector0, headP. simpl. fin_calc. rewrite (Mag_eq _ _ 6) by lra. exact H.
  - unfold Sub, Vector0, headQ. simpl. fin_calc. rewrite (Mag_eq _ _ 6) by lra. exact H.
Qed.

Lemma head_bounce_Pos :
  Pos (bounce headP headQ (Fin 10)).1 = mkVector (Fin (17 / 20)) (Fin 0) ∧
  Pos (bounce headP headQ (Fin 10)).2 = mkVector (Fin (- (1 / 20))) (Fin 0).
Proof.
  destruct (bounce_fields headP headQ (Fin 10)) as (P1 & P2 & _).
  rewrite P1, P2.
  unfold Particle.ScaledRadius, physScale, Unit, Add, Scl, Sub, headP, headQ.
  simpl. fin_calc. rewrite (Mag_eq _ _ (4 / 5)) by lra. fin_calc.
  split; f_equal; f_equal; lra.
Qed.

Lemma head_bounce_Vel :
  Vel (bounce headP headQ (Fin 10)).1 = mkVector (Fin 6) (Fin 0) ∧
  Vel (bounce headP headQ (Fin 10)).2 = mkVector (Fin (- 6)) (Fin 0).
Proof.
  assert (HC : center_of_momentum headP headQ = mkVector (Fin 0) (Fin 0)).
  { unfold center_of_momentum, Particle.Momentum, Particle.MassRel, Add, Scl,
      headP, headQ.
    simpl. fin_calc. f_equal; f_equal; lra. }
  destruct (bounce_Vel headP headQ (Fin 10)) as [V1 V2]. rewrite V1, V2, HC.
  unfold from_frame, to_frame, Dot, Neg, Add, Sub, Scl, headP, headQ. simpl. fin_calc.
  split; f_equal; f_equal; lra.
Qed.

Lemma head_still_collide :
  Particle.CheckCollision (bounce headP headQ (Fin 10)).1
    (bounce headP headQ (Fin 10)).2 Vector0 = true.
Proof.
  destruct head_bounce_Pos as [Pa Pb]. destruct head_bounce_Vel as [Va Vb].
  unfold Particle.CheckCollision, Particle.ScaledRadius. rewrite Pa, Pb, Va, Vb.
  change (Gamma (bounce headP headQ (Fin 10)).1) with (Fin (5 / 4)).
  change (Gamma (bounce headP headQ (Fin 10)).2) with (Fin (5 / 4)).
  change (Radius (bounce headP headQ (Fin 10)).1) with (Fin 1).
  change (Radius (bounce headP headQ (Fin 10)).2) with (Fin 2).
  unfold physScale, Unit, Dot, Scl, Sub, Vector0. simpl. fin_calc.
  repeat first [ rewrite (Mag_eq _ _ (9 / 10)) by lra
               | rewrite (Mag_eq _ _ 6) by lra ].
  fin_calc. simpl. fin_calc. apply fltb_Fin_true. lra.
Qed.

(** C5 at the head-on pair.  The pair collides; after [SolveCollisions]
    the centres are 0.9 apart, the sum of the scaled radii 0.3 and 0.6
    without contraction, and the collision test on the pair in the same
    frame is still true: the effective radii that [CheckCollision] uses
    are now 0.24 and 0.72, together 0.96. *)
Lemma still_colliding_after_resolution :
  let h : gmap nat Particle := <[0%nat := headP]> (<[1%nat := headQ]> ∅) in
  Particle.CheckCollision headP headQ Vector0 = true ∧
  ∃ h' a' b',
    SolveCollisions [Some 0%nat; Some 1%nat] Vector0 (Fin 10) h = Some h' ∧
    h' !! 0%nat = Some a' ∧ h' !! 1%nat = Some b' ∧
    Mag (Sub (Pos a') (Pos b')) = Fin (9 / 10) ∧
    Particle.CheckCollision a' b' Vector0 = true.
Proof.
  intros h. split; [exact head_collide |].
  eexists. eexists. eexists. split.
  { apply (SolveCollisions_pair 0 1 headP headQ); [lia | reflexivity | reflexivity]. }
  rewrite head_collide.
  split; [rewrite lookup_insert_ne by lia; apply lookup_insert_eq |].
  split; [apply lookup_insert_eq |].
  split; [| exact head_still_collide].
  destruct head_bounce_Pos as [-> ->]. unfold Sub. simpl. fin_calc.
  apply Mag_eq; lra.
Qed.

(** C4 at the head-on pair.  After [SolveCollisions] the first particle has
    the velocity (6, 0), below [c = 10]; its stored rapidity is the tanh
    image of that velocity, so the velocity derived from the stored
    rapidity differs from (6, 0), and the next [Particle.Update] stores a
    different velocity although no force acts. *)
Lemma collision_rapidity_not_inverse :
  let h : gmap nat Particle := <[0%nat := headP]> (<[1%nat := headQ]> ∅) in
  ∃ h' a',
    SolveCollisions [Some 0%nat; Some 1%nat] Vector0 (Fin 10) h = Some h' ∧
    h' !! 0%nat = Some a' ∧
    Vel a' = mkVector (Fin 6) (Fin 0) ∧
    (Mag (Vel a') <? Fin 10)%f64 = true ∧
    Rap a' = velocity_of_rapidity (Fin 10) (Vel a') ∧
    velocity_of_rapidity (Fin 10) (Rap a') ≠ Vel a' ∧
    Vel (Particle.Update a' Vector0 Vector0 (Fin 10) (Fin (1 / 60))) ≠ Vel a'.
Proof.
  intros h. eexists. eexists. split.
  { apply (SolveCollisions_pair 0 1 headP headQ); [lia | reflexivity | reflexivity]. }
  rewrite head_collide.
  split; [rewrite lookup_insert_ne by lia; apply lookup_insert_eq |].
  destruct head_bounce_Vel as [Va _].
  assert (Hm : Mag (Vel (bounce headP headQ (Fin 10)).1) = Fin 6).
  { rewrite Va. apply Mag_eq; lra. }
  assert (Hne : velocity_of_rapidity (Fin 10)
                  (Rap (bounce headP headQ (Fin 10)).1)
                ≠ Vel (bounce headP headQ (Fin 10)).1).
  { change (Rap (bounce headP headQ (Fin 10)).1)
      with (velocity_of_rapidity (Fin 10) (Vel (bounce headP headQ (Fin 10)).1)).
    apply tanh_image_not_inverse.
    - apply fltb_Fin_true. lra.
    - rewrite Va. exists 6, 0. reflexivity.
    - rewrite Hm. intros [= H]. lra. }
  split; [exact Va |].
  split; [rewrite Hm; apply fltb_Fin_true; lra |].
  split; [reflexivity |].
  split; [exact Hne | exact Hne].
Qed.

End HeadOn.

(** * Further properties of the code *)

Arguments math.Cos : simpl never.
Arguments math.Sin : simpl never.
Arguments math.Acos : simpl never.

Section VectorGeometry.

Local Open Scope R_scope.

Lemma Cos_Fin (x : R) : math.Cos (Fin x) = Fin (cos x).
Proof. reflexivity. Qed.

Lemma Sin_Fin (x : R) : math.Sin (Fin x) = Fin (sin x).
Proof. reflexivity. Qed.

Lemma Acos_Fin (x : R) : -1 <= x <= 1 → math.Acos (Fin x) = Fin (acos x).
Proof.
  intros [H1 H2]. unfold math.Acos.
  destruct (Rlt_dec x (-1)); [lra |]. destruct (Rlt_dec 1 x); [lra | reflexivity].
Qed.

Lemma sin_cos_sq (t : R) : sin t * sin t + cos t * cos t = 1.
Proof. pose proof (sin2_cos2 t) as H. unfold Rsqr in H. exact H. Qed.

Lemma sqrt_sumsq_pos (x y : R) : x ≠ 0 ∨ y ≠ 0 → 0 < sqrt (x * x + y * y).
Proof. intros H. apply sqrt_lt_R0. destruct H; nra. Qed.

Lemma sqrt_sumsq_zero (x y : R) : sqrt (x * x + y * y) = 0 → x = 0 ∧ y = 0.
Proof.
  intros H. apply sqrt_eq_0 in H; [| apply sumsq_nonneg]. split; nra.
Qed.

Lemma Unit_Fin (x y : R) :
  x ≠ 0 ∨ y ≠ 0 →
  Unit (mkVector (Fin x) (Fin y))
  = mkVector (Fin (x * (1 / sqrt (x * x + y * y))))
             (Fin (y * (1 / sqrt (x * x + y * y)))).
Proof.
  intros H. pose proof (sqrt_sumsq_pos x y H) as Hm.
  unfold Unit, Scl. rewrite Mag_Fin. simpl.
  rewrite fdiv_Fin by lra. rewrite !fmul_Fin. reflexivity.
Qed.

Lemma Unit_Vector0 : Unit Vector0 = mkVector NaN NaN.
Proof. unfold Unit. rewrite Mag_Vector0, fdiv_zero. reflexivity. Qed.

(** X1.  [Unit] of a vector of numbers that is not the zero vector has
    magnitude exactly 1, and scaling it by the magnitude of the vector
    gives the vector back; [Unit] of the zero vector has both coordinates
    NaN. *)
Theorem Unit_has_magnitude_one (x y : R) :
  x ≠ 0 ∨ y ≠ 0 →
  let v := mkVector (Fin x) (Fin y) in
  Mag (Unit v) = Fin 1 ∧ Scl (Unit v) (Mag v) = v ∧
  Unit Vector0 = mkVector NaN NaN.
Proof.
  intros H v. unfold v. pose proof (sqrt_sumsq_pos x y H) as Hm.
  rewrite Unit_Fin by exact H. split; [| split].
  - rewrite Mag_Fin. f_equal. rewrite sqrt_scale.
    rewrite Rabs_pos_eq by (apply Rlt_le, Rdiv_lt_0_compat; lra).
    field. lra.
  - rewrite Mag_Fin. unfold Scl. simpl. rewrite !fmul_Fin.
    f_equal; f_equal; field; lra.
  - apply Unit_Vector0.
Qed.

Lemma Unit_has_magnitude_one_witness :
  Mag (Unit (mkVector (Fin 3) (Fin 4))) = Fin 1.
Proof.
  refine (proj1 (Unit_has_magnitude_one 3 4 _)). left. lra.
Defined.

Lemma Rotate_Fin (x y t : R) :
  Rotate (mkVector (Fin x) (Fin y)) (Fin t)
  = mkVector (Fin (x * cos t - y * sin t)) (Fin (x * sin t + y * cos t)).
Proof. unfold Rotate. simpl. rewrite Cos_Fin, Sin_Fin. fin_calc. reflexivity. Qed.

Lemma Rotate_NaN (v : Vector) (t : R) :
  (∀ x y, v ≠ mkVector (Fin x) (Fin y)) →
  Rotate v (Fin t) = mkVector NaN NaN.
Proof.
  destruct v as [[x|] [y|]]; intros H; try reflexivity.
  exfalso. apply (H x y). reflexivity.
Qed.

Lemma finite_dec (v : Vector) :
  (∃ x y, v = mkVector (Fin x) (Fin y)) ∨ (∀ x y, v ≠ mkVector (Fin x) (Fin y)).
Proof.
  destruct v as [[x|] [y|]]; [left; eauto | right; intros ? ?; discriminate ..].
Qed.

Lemma Mag_not_finite (v : Vector) :
  (∀ x y, v ≠ mkVector (Fin x) (Fin y)) → Mag v = NaN.
Proof.
  destruct v as [[x|] [y|]]; intros H; try reflexivity.
  exfalso. apply (H x y). reflexivity.
Qed.

(** X3.  [Rotate] by an angle that is a number keeps the magnitude of
    every vector, the dot product of two vectors and the distance between
    them (also when a coordinate is NaN: both sides are NaN then). *)
Theorem Rotate_preserves_lengths (v w : Vector) (t : R) :
  Mag (Rotate v (Fin t)) = Mag v ∧
  Dot (Rotate v (Fin t)) (Rotate w (Fin t)) = Dot v w ∧
  Dist (Rotate v (Fin t)) (Rotate w (Fin t)) = Dist v w.
Proof.
  pose proof (sin_cos_sq t) as Ht.
  split; [| split].
  - destruct (finite_dec v) as [(x & y & ->) | Hv].
    + rewrite Rotate_Fin, !Mag_Fin. f_equal. f_equal.
      replace ((x * cos t - y * sin t) * (x * cos t - y * sin t)
               + (x * sin t + y * cos t) * (x * sin t + y * cos t))
        with ((x * x + y * y) * (sin t * sin t + cos t * cos t)) by ring.
      rewrite Ht. ring.
    + rewrite Rotate_NaN by exact Hv. rewrite (Mag_not_finite v Hv). reflexivity.
  - destruct v as [[x|] [y|]], w as [[a|] [b|]]; try reflexivity.
    rewrite !Rotate_Fin. unfold Dot. simpl. fin_calc. f_equal.
    replace ((x * cos t - y * sin t) * (a * cos t - b * sin t)
             + (x * sin t + y * cos t) * (a * sin t + b * cos t))
      with ((x * a + y * b) * (sin t * sin t + cos t * cos t)) by ring.
    rewrite Ht. ring.
  - unfold Dist.
    destruct v as [[x|] [y|]], w as [[a|] [b|]]; try reflexivity.
    rewrite !Rotate_Fin. unfold Sub. simpl. fin_calc. rewrite !Mag_Fin.
    f_equal. f_equal.
    replace ((x * cos t - y * sin t - (a * cos t - b * sin t))
             * (x * cos t - y * sin t - (a * cos t - b * sin t))
             + (x * sin t + y * cos t - (a * sin t + b * cos t))
               * (x * sin t + y * cos t - (a * sin t + b * cos t)))
      with (((x - a) * (x - a) + (y - b) * (y - b))
            * (sin t * sin t + cos t * cos t)) by ring.
    rewrite Ht. ring.
Qed.

(** X4.  Rotating by [a] and then by [b] is rotating by [a + b]; on a
    vector of numbers the rotation by 0 is the identity, so that rotating
    by [-a] and then by [a], as [Particle.Draw] does around its scaling,
    gives the vector back. *)
Theorem Rotate_composes (v : Vector) (a b x y : R) :
  Rotate (Rotate v (Fin a)) (Fin b) = Rotate v (Fin (a + b)) ∧
  Rotate (mkVector (Fin x) (Fin y)) (Fin 0) = mkVector (Fin x) (Fin y) ∧
  Rotate (Rotate (mkVector (Fin x) (Fin y)) (Fin (- a))) (Fin a)
  = mkVector (Fin x) (Fin y).
Proof.
  assert (H0 : ∀ x y, Rotate (mkVector (Fin x) (Fin y)) (Fin 0)
                      = mkVector (Fin x) (Fin y)).
  { intros x0 y0. rewrite Rotate_Fin, cos_0, sin_0. f_equal; f_equal; ring. }
  assert (Hc : ∀ v a b, Rotate (Rotate v (Fin a)) (Fin b) = Rotate v (Fin (a + b))).
  { intros v0 a0 b0. destruct (finite_dec v0) as [(x0 & y0 & ->) | Hv].
    - rewrite !Rotate_Fin, cos_plus, sin_plus. f_equal; f_equal; ring.
    - rewrite !(Rotate_NaN v0) by exact Hv. reflexivity. }
  split; [apply Hc | split; [apply H0 |]].
  rewrite Hc. replace (- a + a) with 0 by ring. apply H0.
Qed.

(** X5.  For a draw [r] of [rand.Float64], [randUnit] is [Vector{1, 0}]
    rotated by [2*Pi*r]; it has magnitude 1, and scaled by [s] (the
    positions and rapidities of [newAsteroidPool]) magnitude [|s|]. *)
Theorem randUnit_is_unit (r s : R) :
  randUnit (Fin r) = Rotate (mkVector (Fin 1) (Fin 0)) (Fin (r * 2 * PI)) ∧
  Mag (randUnit (Fin r)) = Fin 1 ∧
  Mag (Scl (randUnit (Fin r)) (Fin s)) = Fin (Rabs s).
Proof.
  assert (E : randUnit (Fin r)
              = mkVector (Fin (cos (r * 2 * PI))) (Fin (sin (r * 2 * PI)))).
  { unfold randUnit, math.Pi. fin_calc. rewrite Cos_Fin, Sin_Fin. reflexivity. }
  pose proof (sin_cos_sq (r * 2 * PI)) as Ht.
  split; [| split].
  - rewrite E, Rotate_Fin. f_equal; f_equal; ring.
  - rewrite E. apply Mag_eq; [lra | nra].
  - rewrite E. unfold Scl. simpl. fin_calc. rewrite Mag_Fin, sqrt_scale.
    replace (cos (r * 2 * PI) * cos (r * 2 * PI) + sin (r * 2 * PI) * sin (r * 2 * PI))
      with 1 by lra.
    rewrite sqrt_1. f_equal. ring.
Qed.

End VectorGeometry.

Section Metric.

Local Open Scope R_scope.

Lemma Dist_Fin (x y a b : R) :
  Dist (mkVector (Fin x) (Fin y)) (mkVector (Fin a) (Fin b))
  = Fin (sqrt ((x - a) * (x - a) + (y - b) * (y - b))).
Proof. unfold Dist, Sub. simpl. fin_calc. apply Mag_Fin. Qed.

Lemma SqrDist_Fin (x y a b : R) :
  SqrDist (mkVector (Fin x) (Fin y)) (mkVector (Fin a) (Fin b))
  = Fin ((x - a) * (x - a) + (y - b) * (y - b)).
Proof. unfold SqrDist, SqrMag, Sub. simpl. fin_calc. reflexivity. Qed.

Lemma sqrt_triangle (a b c d : R) :
  sqrt ((a + c) * (a + c) + (b + d) * (b + d))
  <= sqrt (a * a + b * b) + sqrt (c * c + d * d).
Proof.
  pose proof (sqrt_pos (a * a + b * b)) as H1.
  pose proof (sqrt_pos (c * c + d * d)) as H2.
  pose proof (sqrt_sqrt _ (sumsq_nonneg a b)) as E1.
  pose proof (sqrt_sqrt _ (sumsq_nonneg c d)) as E2.
  apply Rsqr_incr_0_var; [| lra].
  unfold Rsqr. rewrite sqrt_sqrt by apply sumsq_nonneg.
  assert (CS : a * c + b * d <= sqrt (a * a + b * b) * sqrt (c * c + d * d)).
  { pose proof (Rmult_le_pos _ _ H1 H2) as H12.
    destruct (Rle_dec (a * c + b * d) 0) as [Hn | Hp]; [lra |].
    apply Rsqr_incr_0_var; [| lra]. unfold Rsqr.
    replace (sqrt (a * a + b * b) * sqrt (c * c + d * d)
             * (sqrt (a * a + b * b) * sqrt (c * c + d * d)))
      with ((sqrt (a * a + b * b) * sqrt (a * a + b * b))
            * (sqrt (c * c + d * d) * sqrt (c * c + d * d))) by ring.
    rewrite E1, E2.
    pose proof (Rle_0_sqr (a * d - b * c)) as Hsq. unfold Rsqr in Hsq. lra. }
  lra.
Qed.

(** X6.  [Dist] and [SqrDist] are symmetric for all arguments.  On
    vectors of numbers [Dist] is a number that is not negative, [SqrDist]
    is its square, the distance is 0 exactly between equal vectors, and
    the triangle inequality holds. *)
Theorem Dist_is_a_metric (u v w : Vector) (x y a b p q : R) :
  Dist v w = Dist w v ∧ SqrDist v w = SqrDist w v ∧
  (let A := mkVector (Fin x) (Fin y) in
   let B := mkVector (Fin a) (Fin b) in
   let C := mkVector (Fin p) (Fin q) in
   ∃ d : R, Dist A B = Fin d ∧ 0 <= d ∧ SqrDist A B = Fin (d * d) ∧
     (d = 0 ↔ A = B) ∧
     (Dist A B + Dist B C <? Dist A C)%f64 = false).
Proof.
  split; [| split].
  - apply Mag_Sub_sym.
  - destruct v as [[vx|] [vy|]], w as [[wx|] [wy|]]; try reflexivity.
    rewrite !SqrDist_Fin. f_equal. ring.
  - intros A B C. unfold A, B, C.
    exists (sqrt ((x - a) * (x - a) + (y - b) * (y - b))).
    split; [apply Dist_Fin |]. split; [apply sqrt_pos |].
    split; [rewrite SqrDist_Fin, sqrt_sqrt by apply sumsq_nonneg; reflexivity |].
    split.
    + split.
      * intros H. apply sqrt_sumsq_zero in H as [Hx Hy].
        f_equal; f_equal; lra.
      * intros H. injection H as -> ->.
        replace ((a - a) * (a - a) + (b - b) * (b - b)) with 0 by ring.
        apply sqrt_0.
    + rewrite !Dist_Fin, fadd_Fin. apply fltb_Fin_false.
      replace (x - p) with ((x - a) + (a - p)) by ring.
      replace (y - q) with ((y - b) + (b - q)) by ring.
      apply sqrt_triangle.
Qed.

Lemma div_bounds (u d : R) : 0 < d → - d <= u <= d → -1 <= u / d <= 1.
Proof.
  intros Hd Hu. assert (E : u = u / d * d) by (field; lra).
  set (q := u / d) in *. split; nra.
Qed.

Lemma leg_le_hypotenuse (s u : R) : Rabs u <= sqrt (s * s + u * u).
Proof.
  rewrite <- sqrt_Rsqr_abs. apply sqrt_le_1_alt. unfold Rsqr. nra.
Qed.

(** The angle [AngleBetween] returns for two different points. *)
Lemma AngleBetween_Fin (x y a b : R) :
  x ≠ a ∨ y ≠ b →
  let d := sqrt ((a - x) * (a - x) + (b - y) * (b - y)) in
  AngleBetween (mkVector (Fin x) (Fin y)) (mkVector (Fin a) (Fin b))
  = Fin (if Rlt_dec x a then - acos ((y - b) / d) else acos ((y - b) / d)) ∧
  0 < d ∧ -1 <= (y - b) / d <= 1.
Proof.
  intros Hne d.
  assert (Hn0 : a - x ≠ 0 ∨ b - y ≠ 0) by (destruct Hne; [left | right]; lra).
  pose proof (sqrt_sumsq_pos _ _ Hn0) as Hd. fold d in Hd.
  assert (Hu : -1 <= (y - b) / d <= 1).
  { apply div_bounds; [exact Hd |].
    pose proof (leg_le_hypotenuse (a - x) (b - y)) as Hl. fold d in Hl.
    unfold Rabs in Hl. destruct (Rcase_abs (b - y)); lra. }
  split; [| split; assumption].
  unfold AngleBetween. simpl.
  assert (ED : Dot (mkVector (Fin 0) (Fin (-1)))
                 (Unit (Sub (mkVector (Fin a) (Fin b)) (mkVector (Fin x) (Fin y))))
               = Fin ((y - b) / d)).
  { unfold Sub. simpl. fin_calc. rewrite Unit_Fin by exact Hn0. fold d.
    unfold Dot. simpl. fin_calc. f_equal. field. lra. }
  rewrite ED, Acos_Fin by exact Hu.
  destruct (Rlt_dec x a) as [Hlt | Hge].
  - rewrite fltb_Fin_true by exact Hlt. reflexivity.
  - rewrite fltb_Fin_false by lra. reflexivity.
Qed.

(** X7.  For two different points [v] and [w] with coordinates that
    are numbers, [v.AngleBetween(w)] is an angle [t] in [[-Pi, Pi]] with
    [(sin t, cos t)] the unit vector from [w] to [v]; it is not positive
    when [v.X < w.X] and not negative otherwise.  For [v = w] it is NaN. *)
Theorem AngleBetween_direction (x y a b : R) :
  x ≠ a ∨ y ≠ b →
  let v := mkVector (Fin x) (Fin y) in
  let w := mkVector (Fin a) (Fin b) in
  (∃ t : R, AngleBetween v w = Fin t ∧ - PI <= t <= PI ∧
     (x < a → t <= 0) ∧ (a <= x → 0 <= t) ∧
     Unit (Sub v w) = mkVector (Fin (sin t)) (Fin (cos t))) ∧
  AngleBetween v v = NaN.
Proof.
  intros Hne v w. unfold v, w. split.
  - destruct (AngleBetween_Fin x y a b Hne) as (E & Hd & Hu).
    set (d := sqrt ((a - x) * (a - x) + (b - y) * (b - y))) in *.
    set (u := (y - b) / d) in *.
    pose proof (acos_bound u) as Hb.
    assert (Hn0 : x - a ≠ 0 ∨ y - b ≠ 0) by (destruct Hne; [left | right]; lra).
    assert (Ed : sqrt ((x - a) * (x - a) + (y - b) * (y - b)) = d).
    { unfold d. f_equal. ring. }
    assert (EU : Unit (Sub (mkVector (Fin x) (Fin y)) (mkVector (Fin a) (Fin b)))
                 = mkVector (Fin ((x - a) / d)) (Fin u)).
    { unfold Sub. simpl. fin_calc. rewrite Unit_Fin by exact Hn0. rewrite Ed.
      unfold u. f_equal; f_equal; field; lra. }
    assert (Es : sin (acos u) = Rabs ((x - a) / d)).
    { rewrite sin_acos by exact Hu. rewrite <- sqrt_Rsqr_abs. f_equal.
      pose proof (sqrt_sqrt _ (sumsq_nonneg (a - x) (b - y))) as Hdd. fold d in Hdd.
      unfold u, Rsqr. field_simplify_eq; [| lra]. nra. }
    eexists. split; [exact E |].
    destruct (Rlt_dec x a) as [Hlt | Hge].
    + split; [lra |]. split; [intros _; lra |]. split; [intros; lra |].
      rewrite EU, sin_neg, cos_neg, cos_acos, Es by exact Hu.
      rewrite Rabs_left by (apply div_lt_l; lra).
      f_equal. f_equal. ring.
    + split; [lra |]. split; [intros; lra |]. split; [intros _; lra |].
      rewrite EU, cos_acos, Es by exact Hu.
      rewrite Rabs_pos_eq; [reflexivity |].
      apply Rmult_le_pos; [lra | apply Rlt_le, Rinv_0_lt_compat; lra].
  - unfold AngleBetween. rewrite Sub_self, Unit_Vector0. simpl.
    rewrite fltb_Fin_false by lra. reflexivity.
Qed.

Lemma AngleBetween_direction_witness :
  ∃ t : R,
    AngleBetween (mkVector (Fin 0) (Fin 0)) (mkVector (Fin 0) (Fin (-1))) = Fin t ∧
    - PI <= t <= PI.
Proof.
  assert (H : 0 ≠ 0 ∨ 0 ≠ -1) by (right; lra).
  destruct (AngleBetween_direction 0 0 0 (-1) H) as ((t & E & B & _) & _).
  exists t. split; assumption.
Defined.

End Metric.

Section LorentzFactor.

Local Open Scope R_scope.

Lemma sq_lt_abs (v c : R) : Rabs v < Rabs c ↔ v * v < c * c.
Proof.
  split; intros H.
  - apply Rsqr_lt_abs_1 in H. exact H.
  - apply Rsqr_lt_abs_0. exact H.
Qed.

Lemma Gamma_Fin (v c : R) :
  Rabs v < Rabs c →
  Kinematics.Gamma (Fin v) (Fin c) = Fin (1 / sqrt (1 - v * v / (c * c))) ∧
  0 < 1 - v * v / (c * c) <= 1.
Proof.
  intros H. apply sq_lt_abs in H.
  assert (Hc : 0 < c * c) by nra.
  assert (Hq : 0 <= v * v / (c * c) < 1).
  { split.
    - apply Rmult_le_pos; [nra | apply Rlt_le, Rinv_0_lt_compat; exact Hc].
    - apply div_lt_l; lra. }
  split; [| lra].
  unfold Kinematics.Gamma. fin_calc. rewrite Sqrt_Fin by lra.
  rewrite fdiv_Fin; [reflexivity |].
  apply Rgt_not_eq, sqrt_lt_R0. lra.
Qed.

(** Below the speed of light the Lorentz factor is a number, at least 1. *)
Lemma Gamma_at_least_1 (v c : R) :
  Rabs v < Rabs c →
  ∃ g : R, Kinematics.Gamma (Fin v) (Fin c) = Fin g ∧ 1 <= g ∧
    g * g * (1 - v * v / (c * c)) = 1.
Proof.
  intros H. destruct (Gamma_Fin v c H) as (E & Hq).
  set (q := 1 - v * v / (c * c)) in *.
  assert (Hs : 0 < sqrt q) by (apply sqrt_lt_R0; lra).
  assert (Hss : sqrt q * sqrt q = q) by (apply sqrt_sqrt; lra).
  assert (Hs1 : sqrt q <= 1).
  { rewrite <- sqrt_1. apply sqrt_le_1_alt. lra. }
  exists (1 / sqrt q). split; [exact E |].
  assert (Eg : 1 / sqrt q * sqrt q = 1) by (field; lra).
  set (g := 1 / sqrt q) in *.
  assert (Hg : 0 < g) by (unfold g; apply Rdiv_lt_0_compat; lra).
  split; [nra |].
  rewrite <- Hss. replace (g * g * (sqrt q * sqrt q)) with ((g * sqrt q) * (g * sqrt q)) by ring.
  rewrite Eg. ring.
Qed.

(** Above it the square root is taken of a negative number. *)
Lemma Gamma_NaN (v c : R) :
  Rabs c < Rabs v → Kinematics.Gamma (Fin v) (Fin c) = NaN.
Proof.
  intros H. unfold Kinematics.Gamma. rewrite !fmul_Fin.
  destruct (Req_dec_T (c * c) 0) as [E | N].
  - rewrite E, fdiv_zero. reflexivity.
  - rewrite fdiv_Fin by exact N. rewrite fsub_Fin.
    assert (Hc : 0 < c * c) by nra.
    assert (Hq : 1 < v * v / (c * c)).
    { apply Rsqr_lt_abs_1 in H. unfold Rsqr in H.
      apply Rmult_lt_reg_r with (c * c); [exact Hc |].
      replace (v * v / (c * c) * (c * c)) with (v * v)
        by (field; intros E0; apply N; rewrite E0; ring).
      lra. }
    unfold math.Sqrt. destruct (Rlt_dec (1 - v * v / (c * c)) 0); [reflexivity | lra].
Qed.

(** X8.  For [|v| < |c|], [Gamma(v, c)] is a number [g], at least 1,
    with [g^2 * (1 - v^2/c^2) = 1]; for [|v| > |c|] it is NaN, the square
    root being taken of a negative number. *)
Theorem Gamma_defined_below_c (v c : R) :
  (Rabs v < Rabs c →
   ∃ g : R, Kinematics.Gamma (Fin v) (Fin c) = Fin g ∧ 1 <= g ∧
     g * g * (1 - v * v / (c * c)) = 1) ∧
  (Rabs c < Rabs v → Kinematics.Gamma (Fin v) (Fin c) = NaN).
Proof.
  split; [apply Gamma_at_least_1 | apply Gamma_NaN].
Qed.

Lemma Gamma_defined_below_c_witness :
  ∃ g : R, Kinematics.Gamma (Fin 6) (Fin 10) = Fin g ∧ 1 <= g.
Proof.
  assert (H : Rabs 6 < Rabs 10).
  { rewrite !Rabs_pos_eq by lra. lra. }
  destruct (proj1 (Gamma_defined_below_c 6 10) H) as (g & E & Hg & _).
  exists g. split; assumption.
Defined.

End LorentzFactor.

Section Drag.

Local Open Scope R_scope.

(** X9.  [getDrag(v, k)] on a vector of numbers is [v] scaled by
    [-k*|v|]: its magnitude is [|k|*|v|^2], its dot product with [v] is
    [-k*|v|^3], so that it opposes [v] for [k > 0], and it is the zero
    vector at rest, with no division by zero. *)
Theorem getDrag_opposes_velocity (x y k : R) :
  let v := mkVector (Fin x) (Fin y) in
  let s := sqrt (x * x + y * y) in
  Kinematics.getDrag v (Fin k) = Scl v (Fin (- k * s)) ∧
  Mag (Kinematics.getDrag v (Fin k)) = Fin (Rabs k * (s * s)) ∧
  Dot (Kinematics.getDrag v (Fin k)) v = Fin (- k * (s * s * s)) ∧
  Kinematics.getDrag Vector0 (Fin k) = Vector0.
Proof.
  intros v s. unfold v.
  pose proof (sqrt_pos (x * x + y * y)) as Hs. fold s in Hs.
  pose proof (sqrt_sqrt _ (sumsq_nonneg x y)) as Hss. fold s in Hss.
  assert (E : Kinematics.getDrag (mkVector (Fin x) (Fin y)) (Fin k)
              = Scl (mkVector (Fin x) (Fin y)) (Fin (- k * s))).
  { unfold Kinematics.getDrag, SqrMag. simpl. fin_calc.
    destruct (Req_dec_T s 0) as [E0 | N0].
    - rewrite SetMag_null by exact E0.
      apply sqrt_sumsq_zero in E0 as [-> ->].
      unfold Scl. simpl. fin_calc. f_equal; f_equal; ring.
    - rewrite SetMag_Fin by exact N0. fold s. unfold Scl. simpl. fin_calc.
      rewrite <- Hss. f_equal; f_equal; field; exact N0. }
  split; [exact E |]. split; [| split].
  - rewrite E. unfold Scl. simpl. fin_calc. rewrite Mag_Fin, sqrt_scale. fold s.
    f_equal. rewrite Rabs_mult, Rabs_Ropp, (Rabs_pos_eq s) by exact Hs. ring.
  - rewrite E. unfold Scl, Dot. simpl. fin_calc. f_equal.
    replace (x * (- k * s) * x + y * (- k * s) * y)
      with (- k * s * (x * x + y * y)) by ring.
    rewrite <- Hss. ring.
  - unfold Kinematics.getDrag, SetMag. rewrite Mag_Vector0, feqb_Fin_true; reflexivity.
Qed.

End Drag.

Section Interpolation.

Local Open Scope R_scope.

Lemma mapRange_Fin (v a b p q : R) :
  a ≠ b →
  Kinematics.mapRange (Fin v) (Fin a) (Fin b) (Fin p) (Fin q)
  = Fin ((v - a) / (b - a) * (q - p) + p).
Proof.
  intros H. unfold Kinematics.mapRange. fin_calc. reflexivity.
Qed.

(** X10.  For [minIn < maxIn], [mapRange] sends [minIn] to [minOut]
    and [maxIn] to [maxOut], and a value between the two into the interval
    spanned by [minOut] and [maxOut], in either order. *)
Theorem mapRange_interpolates (v a b p q : R) :
  a < b →
  Kinematics.mapRange (Fin a) (Fin a) (Fin b) (Fin p) (Fin q) = Fin p ∧
  Kinematics.mapRange (Fin b) (Fin a) (Fin b) (Fin p) (Fin q) = Fin q ∧
  (a <= v <= b →
   ∃ r : R, Kinematics.mapRange (Fin v) (Fin a) (Fin b) (Fin p) (Fin q) = Fin r ∧
     Rmin p q <= r <= Rmax p q).
Proof.
  intros Hab. split; [| split].
  - rewrite mapRange_Fin by lra. f_equal. field. lra.
  - rewrite mapRange_Fin by lra. f_equal. field. lra.
  - intros Hv. rewrite mapRange_Fin by lra. eexists. split; [reflexivity |].
    assert (Ht : 0 <= (v - a) / (b - a) <= 1).
    { assert (E : v - a = (v - a) / (b - a) * (b - a)) by (field; lra).
      set (t := (v - a) / (b - a)) in *. split; nra. }
    set (t := (v - a) / (b - a)) in *.
    unfold Rmin, Rmax. destruct (Rle_dec p q); split; nra.
Qed.

Lemma mapRange_interpolates_witness :
  Kinematics.mapRange (Fin 0) (Fin 0) (Fin 2) (Fin 100) (Fin 10) = Fin 100 ∧
  Kinematics.mapRange (Fin 2) (Fin 0) (Fin 2) (Fin 100) (Fin 10) = Fin 10 ∧
  ∃ r : R, Kinematics.mapRange (Fin 1) (Fin 0) (Fin 2) (Fin 100) (Fin 10) = Fin r ∧
    Rmin 100 10 <= r <= Rmax 100 10.
Proof.
  assert (H : 0 < 2) by lra.
  destruct (mapRange_interpolates 1 0 2 100 10 H) as (E0 & E2 & Hin).
  split; [exact E0 |]. split; [exact E2 |]. apply Hin. lra.
Defined.

End Interpolation.

Section Integration.

Local Open Scope R_scope.

Lemma Mag_nonneg (v : Vector) (s : R) : Mag v = Fin s → 0 <= s.
Proof.
  intros H. apply Mag_Fin_inv in H as (x & y & _ & Hs & _). exact Hs.
Qed.

Lemma fmul_NaN_r (a : float64) : fmul a NaN = NaN.
Proof. destruct a; reflexivity. Qed.

Lemma fadd_NaN_r (a : float64) : fadd a NaN = NaN.
Proof. destruct a; reflexivity. Qed.

Lemma fdiv_NaN_r (a : float64) : fdiv a NaN = NaN.
Proof. destruct a; reflexivity. Qed.

Lemma fadd_NaN_l (a : float64) : fadd NaN a = NaN.
Proof. reflexivity. Qed.

Lemma Update_NaN (q : Particle) (force frame : Vector) (c dt : float64) :
  Pos q = mkVector NaN NaN → Rap q = mkVector NaN NaN →
  Pos (Particle.Update q force frame c dt) = mkVector NaN NaN ∧
  Rap (Particle.Update q force frame c dt) = mkVector NaN NaN ∧
  Vel (Particle.Update q force frame c dt) = mkVector NaN NaN.
Proof.
  intros HP HR. unfold Particle.Update. simpl. rewrite HP, HR. repeat split.
Qed.

(** X11.  When the speed of the particle relative to the frame is
    above [|c|] (as after the speed of light has been lowered below it, or
    after a collision has written such a velocity), [Particle.Update]
    stores NaN in the Lorentz factor, the clock, the orientation, the
    position and the rapidity; the velocity is still the tanh image of the
    previous rapidity.  Every later [Update], whatever its arguments,
    leaves position and rapidity NaN and makes the velocity NaN too. *)
Theorem Update_above_light_speed (p : Particle) (force frame : Vector)
  (dt : float64) (s c : R) :
  Mag (Sub (Vel p) frame) = Fin s → Rabs c < s →
  let p' := Particle.Update p force frame (Fin c) dt in
  Gamma p' = NaN ∧ Clock p' = NaN ∧ AngPos p' = NaN ∧
  Pos p' = mkVector NaN NaN ∧ Rap p' = mkVector NaN NaN ∧
  Vel p' = velocity_of_rapidity (Fin c) (Rap p) ∧
  ∀ force' frame' c' dt',
    let p'' := Particle.Update p' force' frame' c' dt' in
    Pos p'' = mkVector NaN NaN ∧ Rap p'' = mkVector NaN NaN ∧
    Vel p'' = mkVector NaN NaN.
Proof.
  intros Hs Hc p'.
  assert (Hg : Kinematics.Gamma (Mag (Sub (Vel p) frame)) (Fin c) = NaN).
  { rewrite Hs. apply Gamma_NaN. pose proof (Mag_nonneg _ _ Hs).
    rewrite (Rabs_pos_eq s); assumption. }
  assert (HP : Pos p' = mkVector NaN NaN).
  { unfold p', Particle.Update. simpl. rewrite Hg.
    rewrite !fmul_NaN_r. unfold Add, Scl. simpl.
    rewrite !fmul_NaN_r, !fadd_NaN_r. reflexivity. }
  assert (HR : Rap p' = mkVector NaN NaN).
  { unfold p', Particle.Update. simpl. rewrite Hg.
    rewrite !fmul_NaN_r. unfold Add, Scl. simpl.
    rewrite !fmul_NaN_r, !fadd_NaN_r. reflexivity. }
  split; [exact Hg |].
  split; [unfold p', Particle.Update; simpl; rewrite Hg, fmul_NaN_r, fadd_NaN_r; reflexivity |].
  split; [unfold p', Particle.Update; simpl;
          rewrite Hg, !fmul_NaN_r, fadd_NaN_r; reflexivity |].
  split; [exact HP |]. split; [exact HR |]. split; [reflexivity |].
  intros force' frame' c' dt' p''. apply Update_NaN; assumption.
Qed.

Lemma Update_above_light_speed_witness :
  Gamma (Particle.Update movingP Vector0 Vector0 (Fin 5) (Fin 1)) = NaN ∧
  Pos (Particle.Update movingP Vector0 Vector0 (Fin 5) (Fin 1)) = mkVector NaN NaN.
Proof.
  assert (Hs : Mag (Sub (Vel movingP) Vector0) = Fin 6).
  { unfold movingP, Sub, Vector0. simpl. fin_calc. apply Mag_eq; lra. }
  assert (Hc : Rabs 5 < 6) by (rewrite Rabs_pos_eq; lra).
  destruct (Update_above_light_speed movingP Vector0 Vector0 (Fin 1) 6 5 Hs Hc)
    as (Hg & _ & _ & HP & _).
  split; [exact Hg | exact HP].
Defined.

(** X12.  For a relative speed [s] below [|c|] and a time step
    [t >= 0], [Particle.Update] stores the Lorentz factor [g >= 1] of
    [s], advances the clock of the particle by [t*g], which is at least
    [t], turns the particle by [AngVel*t*g], and leaves [AngVel], [Mass]
    and [Radius] as they were. *)
Theorem Update_advances_clock (p : Particle) (force frame : Vector)
  (s c t k a w : R) :
  Mag (Sub (Vel p) frame) = Fin s → s < Rabs c → 0 <= t →
  Clock p = Fin k → AngPos p = Fin a → AngVel p = Fin w →
  let p' := Particle.Update p force frame (Fin c) (Fin t) in
  ∃ g : R,
    Gamma p' = Fin g ∧ 1 <= g ∧ g * g * (1 - s * s / (c * c)) = 1 ∧
    Clock p' = Fin (k + t * g) ∧ k + t <= k + t * g ∧
    AngPos p' = Fin (a + w * (t * g)) ∧
    AngVel p' = AngVel p ∧ Mass p' = Mass p ∧ Radius p' = Radius p.
Proof.
  intros Hs Hc Ht Hk Ha Hw p'.
  pose proof (Mag_nonneg _ _ Hs) as Hs0.
  assert (Hlt : Rabs s < Rabs c) by (rewrite (Rabs_pos_eq s); assumption).
  destruct (Gamma_at_least_1 s c Hlt) as (g & Eg & Hg1 & Hgg).
  exists g. unfold p', Particle.Update. simpl. rewrite Hs, Eg, Hk, Ha, Hw.
  fin_calc. repeat split; try assumption. nra.
Qed.

Lemma Update_advances_clock_witness :
  ∃ g : R,
    Gamma (Particle.Update movingP Vector0 Vector0 (Fin 10) (Fin 1)) = Fin g ∧
    1 <= g.
Proof.
  assert (Hs : Mag (Sub (Vel movingP) Vector0) = Fin 6).
  { unfold movingP, Sub, Vector0. simpl. fin_calc. apply Mag_eq; lra. }
  assert (Hc : 6 < Rabs 10) by (rewrite Rabs_pos_eq; lra).
  assert (Ht : 0 <= 1) by lra.
  destruct (Update_advances_clock movingP Vector0 Vector0 6 10 1 0 0 0
              Hs Hc Ht eq_refl eq_refl eq_refl) as (g & E & Hg & _).
  exists g. split; assumption.
Defined.

End Integration.

Section Drift.

Local Open Scope R_scope.










End Drift.

Section BatchProperties.

Variables (frame : Vector) (c dt : float64).

Lemma forM_id {A S : Type} (body : A → S → option S) (l : list A) (s : S) :
  (∀ x, x ∈ l → body x s = Some s) → forM body l s = Some s.
Proof.
  induction l as [| x l IH]; intros H; [reflexivity |].
  simpl. rewrite (H x) by left. simpl. apply IH. intros y Hy. apply H. right. exact Hy.
Qed.

Lemma same_but_motion_refl (x : Particle) : same_but_motion x x.
Proof. repeat split. Qed.

Lemma same_but_motion_trans (x y z : Particle) :
  same_but_motion x y → same_but_motion y z → same_but_motion x z.
Proof.
  unfold same_but_motion. intros (A1 & A2 & A3 & A4 & A5 & A6 & A7)
    (B1 & B2 & B3 & B4 & B5 & B6 & B7).
  repeat split; congruence.
Qed.

Lemma modify_same (q : option nat) (f : Particle → Particle)
  (h h1 h2 : gmap nat Particle) :
  modify q f h1 = Some h2 →
  (∀ x, same_but_motion x (f x)) →
  (∀ l, option_Forall2 same_but_motion (h !! l) (h1 !! l)) →
  ∀ l, option_Forall2 same_but_motion (h !! l) (h2 !! l).
Proof.
  intros E Hf H1 l. apply modify_Some in E as (l0 & x & -> & Hx & ->).
  destruct (decide (l = l0)) as [-> | Hne].
  - rewrite lookup_insert_eq. pose proof (H1 l0) as H. rewrite Hx in H.
    inversion H as [y x0 Hyx Ey Ex |]; subst. constructor.
    eapply same_but_motion_trans; [exact Hyx | apply Hf].
  - rewrite lookup_insert_ne by congruence. apply H1.
Qed.

Lemma resolve_same (a b : option nat) (h h1 h2 : gmap nat Particle) :
  (∀ l, option_Forall2 same_but_motion (h !! l) (h1 !! l)) →
  resolve a b frame c h1 = Some h2 →
  ∀ l, option_Forall2 same_but_motion (h !! l) (h2 !! l).
Proof.
  unfold resolve. intros H1 E.
  destruct (load a h1) as [x|]; simpl in E; [| discriminate].
  destruct (load b h1) as [y|]; simpl in E; [| discriminate].
  destruct (Particle.CheckCollision x y frame); [| injection E as <-; exact H1].
  repeat match type of E with
  | (mbind _ (modify ?q ?f ?h0)) = Some _ =>
      let h3 := fresh "h" in let E1 := fresh "E" in
      destruct (modify q f h0) as [h3|] eqn:E1; simpl in E; [| discriminate];
      let H := fresh "H" in
      assert (H : ∀ l, option_Forall2 same_but_motion (h !! l) (h3 !! l))
        by (apply (modify_same _ _ h _ _ E1); [intros ?; repeat split | assumption]);
      clear E1
  | (mbind _ (load ?q ?h0)) = Some _ =>
      destruct (load q h0); simpl in E; [| discriminate]
  end.
  apply (modify_same _ _ h _ _ E); [intros ?; repeat split | assumption].
Qed.

(** X15.  A call of [SolveCollisions] that returns keeps the set of
    records, writes only the position, rapidity and velocity of a record
    (the acceleration, the orientation, the angular velocity, the mass,
    the radius, the clock and also the stored Lorentz factor are as
    before), and does not touch a record that the slice does not list. *)
Theorem SolveCollisions_writes_motion_only (ps : list (option nat))
  (h h' : gmap nat Particle) :
  SolveCollisions ps frame c h = Some h' →
  dom h' = dom h ∧
  (∀ l x, h !! l = Some x →
     ∃ x', h' !! l = Some x' ∧
       Acc x' = Acc x ∧ AngPos x' = AngPos x ∧ AngVel x' = AngVel x ∧
       Mass x' = Mass x ∧ Radius x' = Radius x ∧ Gamma x' = Gamma x ∧
       Clock x' = Clock x) ∧
  (∀ l, Some l ∉ ps → h' !! l = h !! l).
Proof.
  intros E. split; [eapply SolveCollisions_dom; exact E |].
  split; [| intros l Hl; eapply SolveCollisions_frame; eassumption].
  assert (H : ∀ l, option_Forall2 same_but_motion (h !! l) (h' !! l)).
  { unfold SolveCollisions in E.
    refine (forM_preserves _
              (λ h1, ∀ l, option_Forall2 same_but_motion (h !! l) (h1 !! l))
              _ _ _ _ _ E).
    - intros i h1 h2 _ H1 E1.
      refine (forM_preserves _
                (λ h3, ∀ l, option_Forall2 same_but_motion (h !! l) (h3 !! l))
                _ _ _ _ H1 E1).
      intros j h3 h4 _ H3 E3.
      destruct (ps !! i) as [a|]; simpl in E3; [| discriminate].
      destruct (ps !! j) as [b|]; simpl in E3; [| discriminate].
      eapply resolve_same; eassumption.
    - intros l. destruct (h !! l); constructor. apply same_but_motion_refl. }
  intros l x Hx. pose proof (H l) as Hl. rewrite Hx in Hl.
  inversion Hl as [x0 x' Hs Ex Ex' |]; subst. exists x'. split; [reflexivity | exact Hs].
Qed.

(** X16.  When no pair [i < j] of the slice tests as colliding
    ([particles[i].CheckCollision(particles[j])], in that order),
    [SolveCollisions] returns the heap unchanged.  On a slice of one
    pointer, even nil, and on the empty slice it does nothing. *)
Theorem SolveCollisions_without_contact (ps : list (option nat))
  (h : gmap nat Particle) :
  Forall (valid_ptr h) ps →
  (∀ i j a b x y, i < j → ps !! i = Some (Some a) → ps !! j = Some (Some b) →
     h !! a = Some x → h !! b = Some y →
     Particle.CheckCollision x y frame = false) →
  SolveCollisions ps frame c h = Some h ∧
  (∀ q, SolveCollisions [q] frame c h = Some h) ∧
  SolveCollisions [] frame c h = Some h.
Proof.
  intros Hv Hno. split; [| split; reflexivity].
  unfold SolveCollisions. apply forM_id. intros i Hi.
  apply elem_of_seq in Hi. apply forM_id. intros j Hj. apply elem_of_seq in Hj.
  destruct (lookup_lt_is_Some_2 ps i) as [pi Ei]; [lia |].
  destruct (lookup_lt_is_Some_2 ps j) as [pj Ej]; [lia |].
  rewrite Ei, Ej. simpl.
  pose proof (proj1 (Forall_lookup _ _) Hv i pi Ei) as (a & -> & Ha).
  pose proof (proj1 (Forall_lookup _ _) Hv j pj Ej) as (b & -> & Hb).
  apply elem_of_dom in Ha as [x Hx]. apply elem_of_dom in Hb as [y Hy].
  unfold resolve, load. simpl. rewrite Hx, Hy. simpl.
  rewrite (Hno i j a b x y) by (try assumption; lia). reflexivity.
Qed.

End BatchProperties.

Section BatchExamples.

Local Open Scope R_scope.

Lemma moving_resting_apart :
  Particle.CheckCollision movingP restingQ Vector0 = false.
Proof.
  unfold Particle.CheckCollision, Particle.ScaledRadius, physScale, Unit, Dot,
    Scl, Sub, Vector0, movingP, restingQ.
  simpl. fin_calc.
  repeat first [ rewrite (Mag_eq _ _ (3 / 5)) by lra
               | rewrite (Mag_eq _ _ 6) by lra
               | rewrite (Mag_eq _ _ 0) by lra ].
  rewrite fdiv_zero. fin_calc. simpl. fin_calc.
  apply fltb_Fin_false. lra.
Qed.

Lemma SolveCollisions_writes_motion_only_witness :
  ∃ h' : gmap nat Particle,
    SolveCollisions [Some 0%nat; Some 1%nat] Vector0 (Fin 10)
      (<[0%nat := headP]> (<[1%nat := headQ]> ∅)) = Some h' ∧
    dom h' = dom (<[0%nat := headP]> (<[1%nat := headQ]> (∅ : gmap nat Particle))).
Proof.
  assert (H01 : 0%nat ≠ 1%nat) by lia.
  assert (H0 : (<[0%nat := headP]> (<[1%nat := headQ]> ∅) : gmap nat Particle) !! 0%nat
               = Some headP) by reflexivity.
  assert (H1 : (<[0%nat := headP]> (<[1%nat := headQ]> ∅) : gmap nat Particle) !! 1%nat
               = Some headQ) by reflexivity.
  pose proof (SolveCollisions_pair 0 1 headP headQ Vector0 (Fin 10) _ H01 H0 H1) as E.
  eexists. split; [exact E |].
  exact (proj1 (SolveCollisions_writes_motion_only Vector0 (Fin 10) _ _ _ E)).
Defined.

Lemma SolveCollisions_without_contact_witness :
  SolveCollisions [Some 0%nat; Some 1%nat] Vector0 (Fin 10)
    (<[0%nat := movingP]> (<[1%nat := restingQ]> ∅))
  = Some (<[0%nat := movingP]> (<[1%nat := restingQ]> ∅)).
Proof.
  refine (proj1 (SolveCollisions_without_contact Vector0 (Fin 10)
                   [Some 0%nat; Some 1%nat]
                   (<[0%nat := movingP]> (<[1%nat := restingQ]> ∅)) _ _)).
  - repeat constructor.
    + exists 0%nat. split; [reflexivity |]. apply elem_of_dom. exists movingP. reflexivity.
    + exists 1%nat. split; [reflexivity |]. apply elem_of_dom. exists restingQ. reflexivity.
  - intros i j a b x y Hij Ei Ej Hx Hy.
    destruct i as [| [| i]]; destruct j as [| [| j]]; simpl in Ei, Ej;
      try lia; try discriminate.
    injection Ei as <-. injection Ej as <-.
    assert (x = movingP) by (apply (inj Some); rewrite <- Hx; reflexivity).
    assert (y = restingQ) by (apply (inj Some); rewrite <- Hy; reflexivity).
    subst. apply moving_resting_apart.
Defined.

End BatchExamples.

Section Aliasing.

Variables (frame : Vector) (c dt : float64).

Local Open Scope R_scope.

Lemma CheckCollision_self (x : Particle) (px py r : R) :
  Pos x = mkVector (Fin px) (Fin py) → Radius x = Fin r → 0 < r →
  Particle.CheckCollision x x frame = true.
Proof.
  intros HP HR Hr. rewrite CheckCollision_eq.
  rewrite HP, Sub_self, Mag_Vector0, Unit_Vector0.
  assert (E : effective_radius x (mkVector NaN NaN) frame = Fin (r * (3 / 10))).
  { unfold effective_radius, Particle.ScaledRadius, Dot, physScale. simpl.
    rewrite !fmul_NaN_r. simpl. rewrite HR. reflexivity. }
  rewrite E, fadd_Fin. apply fltb_Fin_true. lra.
Qed.

(** X17.  A record with a position of numbers and a radius above 0
    tests as colliding with itself; [SolveCollisions] on a slice that
    lists it twice returns, leaves its position NaN in both coordinates
    and changes no other record. *)
Theorem SolveCollisions_of_a_record_listed_twice (a : nat) (x : Particle)
  (h : gmap nat Particle) (px py r : R) :
  h !! a = Some x →
  Pos x = mkVector (Fin px) (Fin py) → Radius x = Fin r → 0 < r →
  Particle.CheckCollision x x frame = true ∧
  ∃ h' x', SolveCollisions [Some a; Some a] frame c h = Some h' ∧
    h' !! a = Some x' ∧ Pos x' = mkVector NaN NaN ∧
    ∀ l, l ≠ a → h' !! l = h !! l.
Proof.
  intros Hx HP HR Hr.
  pose proof (CheckCollision_self x px py r HP HR Hr) as Hcol.
  split; [exact Hcol |].
  unfold SolveCollisions, resolve, load, modify. simpl. rewrite Hx. simpl.
  rewrite Hcol.
  repeat (first [ rewrite lookup_insert_eq | rewrite Hx ]; simpl).
  eexists. eexists. split; [reflexivity |].
  split; [apply lookup_insert_eq |]. split.
  - simpl. rewrite HP, Sub_self, Unit_Vector0. reflexivity.
  - intros l Hl. rewrite !lookup_insert_ne by congruence. reflexivity.
Qed.

(** X14.  Over pointers into the heap, [UpdatePositions]
    returns and has applied [Particle.Update] under zero force to every
    record as many times as the slice lists it, and to no other record.
    If the slice holds a nil or dangling pointer, it panics. *)
Theorem UpdatePositions_integrates_each_listing (ps : list (option nat))
  (h : gmap nat Particle) :
  (Forall (valid_ptr h) ps →
   ∃ h', UpdatePositions ps frame c dt h = Some h' ∧
     ∀ l, h' !! l
          = Nat.iter (listed l ps) (λ x, Particle.Update x Vector0 frame c dt)
              <$> h !! l) ∧
  (Exists (λ q, ¬ valid_ptr h q) ps → UpdatePositions ps frame c dt h = None).
Proof.
  split.
  - revert h. induction ps as [| q ps IH]; intros h Hv.
    + exists h. split; [reflexivity |]. intros l. simpl. destruct (h !! l); reflexivity.
    + apply Forall_cons in Hv as [(a & -> & Ha) Hv].
      apply elem_of_dom in Ha as [x Hx].
      unfold UpdatePositions. simpl. unfold modify at 1. simpl. rewrite Hx. simpl.
      set (h1 := <[a := Particle.Update x Vector0 frame c dt]> h).
      assert (Hv1 : Forall (valid_ptr h1) ps).
      { eapply Forall_impl; [exact Hv |]. intros q (b & -> & Hb).
        exists b. split; [reflexivity |]. unfold h1. rewrite dom_insert_L.
        apply elem_of_union. right. exact Hb. }
      destruct (IH h1 Hv1) as (h' & E & Hl). exists h'. split; [exact E |].
      intros l. rewrite Hl. unfold listed. rewrite filter_cons.
      destruct (decide (Some a = Some l)) as [[= ->] | Hne].
      * unfold h1. rewrite lookup_insert_eq, Hx. simpl.
        f_equal. symmetry.
        exact (Nat.iter_succ_r _ (λ z, Particle.Update z Vector0 frame c dt) x).
      * unfold h1. rewrite lookup_insert_ne by congruence. reflexivity.
  - intros Hex. revert h Hex. induction ps as [| q ps IH]; intros h Hex.
    + apply Exists_nil in Hex. contradiction.
    + unfold UpdatePositions. simpl.
      destruct (modify q (λ p, Particle.Update p Vector0 frame c dt) h)
        as [h1 |] eqn:E1; [| reflexivity].
      simpl. apply IH. apply Exists_cons in Hex as [Hq | Hex].
      * exfalso. apply Hq. apply modify_Some in E1 as (l & x & -> & Hx & _).
        exists l. split; [reflexivity |]. apply elem_of_dom. eauto.
      * eapply Exists_impl; [exact Hex |]. intros q' Hq' Hv. apply Hq'.
        eapply valid_ptr_dom; [| exact Hv]. rewrite (modify_dom _ _ _ _ E1). done.
Qed.

End Aliasing.

Lemma SolveCollisions_of_a_record_listed_twice_witness :
  Particle.CheckCollision restingQ restingQ Vector0 = true.
Proof.
  assert (Hx : (<[0 := restingQ]> ∅ : gmap nat Particle) !! 0 = Some restingQ)
    by reflexivity.
  assert (Hr : (0 < 1)%R) by lra.
  exact (proj1 (SolveCollisions_of_a_record_listed_twice Vector0 (Fin 10) 0 restingQ
                  _ 0 0 1 Hx eq_refl eq_refl Hr)).
Defined.

Lemma UpdatePositions_integrates_each_listing_witness :
  ∃ h', UpdatePositions [Some 0; Some 0] Vector0 (Fin 10) (Fin 1)
          (<[0 := restingQ]> ∅) = Some h' ∧
        h' !! 0
        = Nat.iter (listed 0 [Some 0; Some 0])
            (λ x, Particle.Update x Vector0 Vector0 (Fin 10) (Fin 1))
            <$> (<[0 := restingQ]> ∅ : gmap nat Particle) !! 0.
Proof.
  assert (Hv : Forall (valid_ptr (<[0 := restingQ]> ∅)) [Some 0; Some 0]).
  { repeat constructor; exists 0; (split; [reflexivity |]);
      apply elem_of_dom; exists restingQ; reflexivity. }
  destruct (proj1 (UpdatePositions_integrates_each_listing Vector0 (Fin 10) (Fin 1)
                     [Some 0; Some 0] (<[0 := restingQ]> ∅)) Hv) as (h' & E & Hl).
  exists h'. split; [exact E | apply Hl].
Defined.

Section ResetLoop.

Lemma same_slot_refl (q : Pool) (i : nat) : same_slot q q i.
Proof. repeat split. Qed.

Lemma Reset_step_eq (q : Pool) (i : nat) :
  same_length q → i < length (particles q) →
  ∃ q1, Pool.Reset_step i q = Some q1 ∧ same_length q1 ∧ same_policy q q1 ∧
        reset_slot_of q q1 i ∧ ∀ j, j ≠ i → same_slot q q1 j.
Proof.
  intros (La & Ll & Ls) Hi.
  destruct (lookup_lt_is_Some_2 (active q) i) as [b Eb]; [lia |].
  destruct (lookup_lt_is_Some_2 (particles q) i) as [x Ex]; [lia |].
  destruct (lookup_lt_is_Some_2 (lifetimes q) i) as [t Et]; [lia |].
  destruct (lookup_lt_is_Some_2 (sprites q) i) as [s Es]; [lia |].
  unfold Pool.Reset_step. rewrite Eb. simpl. destruct b.
  - rewrite (store_at_Some (particles q)) by lia. simpl.
    rewrite (store_at_Some (active q)) by lia. simpl.
    rewrite (store_at_Some (lifetimes q)) by lia. simpl.
    rewrite (store_at_Some (sprites q)) by lia. simpl.
    eexists. split; [reflexivity |].
    split; [unfold same_length; simpl; rewrite !length_insert; auto |].
    split; [unfold same_policy; simpl; rewrite length_insert; auto |].
    split.
    + unfold reset_slot_of, active_at. simpl.
      rewrite !list_lookup_insert_eq by lia. rewrite Eb, Ex, Et, Es. auto.
    + intros j Hj. unfold same_slot. simpl.
      rewrite !list_lookup_insert_ne by congruence. auto.
  - exists q. split; [reflexivity |].
    split; [unfold same_length; auto |]. split; [repeat split |].
    split; [| intros; apply same_slot_refl].
    unfold reset_slot_of, active_at. rewrite Eb, Ex, Et, Es. auto.
Qed.

Lemma Reset_loop (m : nat) : ∀ (a : nat) (q : Pool),
  same_length q → a + m ≤ length (particles q) →
  ∃ q', forM Pool.Reset_step (seq a m) q = Some q' ∧
        same_length q' ∧ same_policy q q' ∧
        ∀ i, (a ≤ i < a + m → reset_slot_of q q' i) ∧
             (¬ a ≤ i < a + m → same_slot q q' i).
Proof.
  induction m as [| m IH]; intros a q Hlen Ham.
  - exists q. split; [reflexivity |]. split; [exact Hlen |].
    split; [repeat split |]. intros i. split; [lia | intros _; apply same_slot_refl].
  - change (seq a (S m)) with (a :: seq (S a) m). cbn [forM].
    destruct (Reset_step_eq q a Hlen) as (q1 & E1 & Hlen1 & Hpol1 & Hat & Hoff); [lia |].
    rewrite E1. cbn [mbind option_bind].
    destruct Hpol1 as (P1 & P2 & P3 & P4 & P5).
    destruct (IH (S a) q1 Hlen1) as (q' & E & Hlen' & Hpol' & Hsl); [lia |].
    destruct Hpol' as (Q1 & Q2 & Q3 & Q4 & Q5).
    exists q'. split; [exact E |]. split; [exact Hlen' |].
    split; [unfold same_policy; repeat split; congruence |].
    intros i. split.
    + intros Hi. destruct (decide (i = a)) as [-> | Hne].
      * destruct (Hsl a) as [_ Hout].
        destruct Hout as (S1 & S2 & S3 & S4); [lia |].
        destruct Hat as (R1 & R2 & R3 & R4).
        unfold reset_slot_of. rewrite S1, S2, S3, S4. auto.
      * destruct (Hsl i) as [Hin _].
        destruct Hin as (S1 & S2 & S3 & S4); [lia |].
        destruct (Hoff i Hne) as (O1 & O2 & O3 & O4).
        unfold reset_slot_of. rewrite S1, S2, S3, S4.
        unfold active_at. rewrite O1, O2, O3, O4. auto.
    + intros Hi. destruct (Hsl i) as [_ Hout].
      destruct Hout as (S1 & S2 & S3 & S4); [lia |].
      destruct (Hoff i) as (O1 & O2 & O3 & O4); [lia |].
      unfold same_slot. rewrite S1, S2, S3, S4. auto.
Qed.

Lemma Reset_eq (p : Pool) :
  same_length p →
  ∃ p', Pool.Reset p = Some p' ∧ same_length p' ∧ same_policy p p' ∧
        ∀ i, reset_slot_of p p' i.
Proof.
  intros Hlen. pose proof Hlen as (La & Ll & Ls).
  destruct (Reset_loop (length (particles p)) 0 p Hlen) as (p' & E & Hlen' & Hpol & Hsl);
    [lia |].
  exists p'. split; [exact E |]. split; [exact Hlen' |]. split; [exact Hpol |].
  intros i. destruct (decide (i < length (particles p))) as [Hi | Hi].
  - apply Hsl. lia.
  - destruct (Hsl i) as [_ Hout]. destruct Hout as (S1 & S2 & S3 & S4); [lia |].
    unfold reset_slot_of. rewrite S1, S2, S3, S4.
    rewrite !lookup_ge_None_2 by lia. auto.
Qed.

End ResetLoop.

Section InactiveNil.

Lemma inactive_nil_NewPool (n : nat) : inactive_nil (NewPool n).
Proof.
  intros i Hi. simpl in *. apply lookup_replicate in Hi as [_ Hi].
  apply lookup_replicate. auto.
Qed.

Lemma inactive_nil_fill_slot (p : Pool) (k l : nat) (now sprite : Z) :
  same_length p → inactive_nil p → inactive_nil (fill_slot p k l now sprite).
Proof.
  intros (La & _) Hin i Hi. simpl in *.
  destruct (decide (i = k)) as [-> | Hne].
  - apply lookup_lt_Some in Hi as Hlt. rewrite length_insert in Hlt.
    rewrite list_lookup_insert_eq in Hi by exact Hlt. discriminate.
  - rewrite list_lookup_insert_ne in Hi by congruence.
    rewrite list_lookup_insert_ne by congruence. apply Hin. exact Hi.
Qed.

Lemma inactive_nil_grow_slot (p : Pool) (l : nat) (now sprite : Z) :
  same_length p → inactive_nil p → inactive_nil (grow_slot p l now sprite).
Proof.
  intros (La & _) Hin i Hi. simpl in *.
  destruct (decide (i < length (active p))) as [Hlt | Hge].
  - rewrite lookup_app_l in Hi by exact Hlt.
    rewrite lookup_app_l by lia. apply Hin. exact Hi.
  - rewrite lookup_app_r in Hi by lia.
    destruct (i - length (active p)) as [| k]; simpl in Hi; discriminate.
Qed.

Lemma inactive_nil_deact (p : Pool) (i : nat) :
  i < length (particles p) → inactive_nil p → inactive_nil (deact p i).
Proof.
  intros Hi Hin j Hj. simpl in *.
  destruct (decide (j = i)) as [-> | Hne].
  - apply list_lookup_insert_eq. exact Hi.
  - rewrite list_lookup_insert_ne in Hj by congruence.
    rewrite list_lookup_insert_ne by congruence. apply Hin. exact Hj.
Qed.

Lemma inactive_nil_expiry (p p' : Pool) (clock : nat → Z) :
  same_length p → inactive_nil p →
  expiry_of p clock 0 (length (particles p)) p' → inactive_nil p'.
Proof.
  intros (La & _) Hin (_ & _ & _ & _ & _ & _ & Hn & Hna & Hpt) i Hi.
  apply lookup_lt_Some in Hi as Hlt.
  destruct (Hpt i) as [Hrange _]. destruct Hrange as [Ea Ep]; [lia |].
  rewrite Ea in Hi. rewrite Ep.
  destruct (active p !! i) as [b |] eqn:Eb; simpl in Hi; [| discriminate].
  destruct (lookup_lt_is_Some_2 (particles p) i) as [x Ex]; [lia |].
  rewrite Ex. simpl. destruct (expired p clock i) eqn:Ee; [reflexivity |].
  rewrite andb_true_r in Hi. injection Hi as ->.
  rewrite (Hin i Eb) in Ex. injection Ex as <-. reflexivity.
Qed.

Lemma inactive_nil_Reset (p p' : Pool) :
  same_length p → inactive_nil p → Pool.Reset p = Some p' → inactive_nil p'.
Proof.
  intros Hlen Hin E. destruct (Reset_eq p Hlen) as (q & Eq & _ & _ & Hsl).
  rewrite Eq in E. injection E as <-.
  intros i Hi. destruct (Hsl i) as (S1 & S2 & _). rewrite S2.
  rewrite S1 in Hi. destruct (active p !! i) as [b |] eqn:Eb; [| discriminate].
  destruct Hlen as (La & _).
  destruct (lookup_lt_is_Some_2 (particles p) i) as [x Ex].
  { apply lookup_lt_Some in Eb. lia. }
  rewrite Ex. simpl. unfold active_at. rewrite Eb. simpl.
  destruct b; [reflexivity |].
  rewrite (Hin i Eb) in Ex. injection Ex as <-. reflexivity.
Qed.

Lemma step_inactive_nil (s s' : Pool * gmap nat Particle) :
  pool_ok s → inactive_nil s.1 → step s s' → inactive_nil s'.1.
Proof.
  intros Hok Hin Hstep. pose proof Hok as (Hlen & _).
  destruct Hstep; simpl in *.
  - destruct (lowest_inactive_or_full p Hlen) as [(k & Hk & Hlow) | Hfull].
    + rewrite (Activate_lowest _ _ _ _ _ _ _ _ p h k Hlen Hlow) in H.
      injection H as <- <-. apply inactive_nil_fill_slot; assumption.
    + rewrite (Activate_full _ _ _ _ _ _ _ _ p h Hfull) in H.
      injection H as <- <-. apply inactive_nil_grow_slot; assumption.
  - pose proof Hlen as (La & _).
    destruct (lookup_lt_is_Some_2 (active p) i) as [[|] Ea]; [lia | |].
    + rewrite (Deactivate_active p i H Ea) in H0. injection H0 as <- <-.
      apply (inactive_nil_deact p i H Hin).
    + rewrite (Deactivate_inactive p i Ea) in H0. injection H0 as <- <-. exact Hin.
  - destruct (select_eq clock p Hlen) as (p1 & Esel & Hexp).
    unfold Pool.Update in H. rewrite Esel in H. simpl in H.
    destruct (UpdatePositions _ frame c dt h) as [h1 |]; simpl in H; [| discriminate].
    destruct (if disableCollision p1 then Some h1 else _) as [h2 |];
      simpl in H; [| discriminate].
    injection H as <- <-. eapply inactive_nil_expiry; eassumption.
  - destruct (select_eq clock p Hlen) as (p1 & Esel & Hexp).
    unfold Pool.UpdateWith in H. rewrite Esel in H. simpl in H.
    destruct (UpdatePositions _ frame c dt h) as [h1 |]; simpl in H; [| discriminate].
    destruct (if disableCollision p1 then Some h1 else _) as [h2 |];
      simpl in H; [| discriminate].
    injection H as <- <-. eapply inactive_nil_expiry; eassumption.
  - eapply inactive_nil_Reset; eassumption.
  - exact Hin.
  - exact Hin.
  - exact Hin.
  - exact Hin.
Qed.

Lemma reachable_inactive_nil (s : Pool * gmap nat Particle) :
  reachable s → inactive_nil s.1.
Proof.
  induction 1 as [n h | s s' Hr IH Hstep].
  - apply inactive_nil_NewPool.
  - eapply step_inactive_nil; [apply reachable_ok; exact Hr | exact IH | exact Hstep].
Qed.

(** X18.  In every pool state reachable from [NewPool], a slot is
    either active with a pointer to a record of the heap or inactive with
    a nil pointer, and no two slots hold the same pointer. *)
Theorem slot_is_active_iff_it_holds_a_pointer (p : Pool) (h : gmap nat Particle) :
  reachable (p, h) →
  (∀ i, i < length (particles p) →
     (active p !! i = Some true ∧
      ∃ l, particles p !! i = Some (Some l) ∧ l ∈ dom h) ∨
     (active p !! i = Some false ∧ particles p !! i = Some None)) ∧
  (∀ i j l, particles p !! i = Some (Some l) → particles p !! j = Some (Some l) →
     i = j).
Proof.
  intros Hr. pose proof (reachable_ok _ Hr) as ((La & _) & Hnn & Hv).
  pose proof (reachable_inactive_nil _ Hr) as Hin.
  pose proof (reachable_distinct _ Hr) as Hd. simpl in *.
  split; [| exact Hd].
  intros i Hi. destruct (lookup_lt_is_Some_2 (active p) i) as [[|] Ea]; [lia | |].
  - left. split; [exact Ea |]. destruct (Hnn i Ea) as [l El].
    exists l. split; [exact El | eapply Hv; exact El].
  - right. split; [exact Ea | apply Hin; exact Ea].
Qed.

Lemma slot_is_active_iff_it_holds_a_pointer_witness :
  (active one_left.1 !! 1 = Some true ∧
   ∃ l, particles one_left.1 !! 1 = Some (Some l) ∧ l ∈ dom one_left.2) ∧
  (active one_left.1 !! 0 = Some false ∧ particles one_left.1 !! 0 = Some None).
Proof.
  destruct (slot_is_active_iff_it_holds_a_pointer one_left.1 one_left.2
              one_left_reachable) as (Hs & _).
  split.
  - destruct (Hs 1) as [H | (H & _)]; [simpl; lia | exact H | discriminate H].
  - destruct (Hs 0) as [(H & _) | H]; [simpl; lia | discriminate H | exact H].
Defined.

End InactiveNil.

Section Queries.

Lemma forM_append {A B : Type} (body : A → list B → option (list B))
  (g : A → list B) (l : list A) :
  (∀ x out, x ∈ l → body x out = Some (out ++ g x)) →
  ∀ out, forM body l out = Some (out ++ flat_map g l).
Proof.
  induction l as [| x l IH]; intros H out; simpl.
  - rewrite app_nil_r. reflexivity.
  - rewrite (H x out) by left. simpl.
    rewrite IH by (intros y o Hy; apply H; right; exact Hy).
    rewrite app_assoc. reflexivity.
Qed.

Lemma flat_map_filter {A : Type} (P : A → bool) (l : list A) :
  flat_map (λ x, if P x then [x] else []) l = filter (λ x, P x = true) l.
Proof.
  induction l as [| x l IH]; [reflexivity |].
  simpl. rewrite filter_cons, IH. destruct (P x); reflexivity.
Qed.

Lemma pool_ok_slot (p : Pool) (h : gmap nat Particle) (i : nat) :
  pool_ok (p, h) → i < length (particles p) →
  ∃ b, active p !! i = Some b ∧ active_at p i = b ∧
       ∃ q, particles p !! i = Some q ∧ ptr_at p i = q ∧
            (b = true → ∃ l x, q = Some l ∧ h !! l = Some x ∧ record_at p h i = Some x).
Proof.
  intros ((La & _) & Hnn & Hv) Hi. simpl in *.
  destruct (lookup_lt_is_Some_2 (active p) i) as [b Eb]; [lia |].
  destruct (lookup_lt_is_Some_2 (particles p) i) as [q Eq]; [lia |].
  exists b. split; [exact Eb |]. split; [unfold active_at; rewrite Eb; reflexivity |].
  exists q. split; [exact Eq |]. split; [unfold ptr_at; rewrite Eq; reflexivity |].
  intros ->. destruct (Hnn i Eb) as [l El]. rewrite El in Eq. injection Eq as <-.
  pose proof (Hv i l El) as Hl. apply elem_of_dom in Hl as [x Hx].
  exists l, x. split; [reflexivity |]. split; [exact Hx |].
  unfold record_at, ptr_at. rewrite El. simpl. exact Hx.
Qed.

Lemma Active_eq (p : Pool) :
  same_length p → Pool.Active p = Some (active_ptrs p).
Proof.
  intros (La & _). unfold Pool.Active, active_ptrs.
  rewrite (forM_append _ (λ i, if active_at p i then [ptr_at p i] else [])); [reflexivity |].
  intros i out Hi. apply elem_of_seq in Hi.
  destruct (lookup_lt_is_Some_2 (active p) i) as [b Eb]; [lia |].
  destruct (lookup_lt_is_Some_2 (particles p) i) as [q Eq]; [lia |].
  unfold Pool.Active_step, active_at, ptr_at. rewrite Eb. simpl.
  destruct b; [rewrite Eq; reflexivity | rewrite app_nil_r; reflexivity].
Qed.

Lemma Collisions_eq (p : Pool) (h : gmap nat Particle) (particle : option nat)
  (y : Particle) (frame : Vector) :
  pool_ok (p, h) → load particle h = Some y →
  Pool.Collisions p particle frame h
  = Some (filter (λ i, hits p h frame y i = true) (seq 0 (length (particles p)))).
Proof.
  intros Hok Hy. unfold Pool.Collisions.
  rewrite (forM_append _ (λ i, if hits p h frame y i then [i] else [])).
  - rewrite flat_map_filter. reflexivity.
  - intros i out Hi. apply elem_of_seq in Hi.
    destruct (pool_ok_slot p h i Hok) as (b & Eb & Ea & q & Eq & Ep & Hrec); [lia |].
    unfold Pool.Collisions_step, hits. rewrite Eb, Ea. simpl. destruct b.
    + destruct (Hrec eq_refl) as (l & x & -> & Hx & Er).
      rewrite Eq, Er. simpl. rewrite Hx. simpl. rewrite Hy. simpl.
      destruct (Particle.CheckCollision x y frame); [reflexivity |].
      rewrite app_nil_r. reflexivity.
    + rewrite app_nil_r. reflexivity.
Qed.

Lemma filter_pairs {A B : Type} (P : A * B → bool) (x : A) (l : list B) :
  filter (λ ij, P ij = true) (map (pair x) l)
  = flat_map (λ j, if P (x, j) then [(x, j)] else []) l.
Proof.
  induction l as [| j l IH]; [reflexivity |].
  simpl. rewrite filter_cons, IH. destruct (P (x, j)); reflexivity.
Qed.

Lemma filter_list_prod {A B : Type} (P : A * B → bool) (l1 : list A) (l2 : list B) :
  filter (λ ij, P ij = true) (list_prod l1 l2)
  = flat_map (λ i, flat_map (λ j, if P (i, j) then [(i, j)] else []) l2) l1.
Proof.
  induction l1 as [| x l1 IH]; [reflexivity |].
  simpl. rewrite filter_app, IH, filter_pairs. reflexivity.
Qed.

Lemma flat_map_nil {A B : Type} (g : A → list B) (l : list A) :
  (∀ x, x ∈ l → g x = []) → flat_map g l = [].
Proof.
  induction l as [| x l IH]; intros H; [reflexivity |].
  simpl. rewrite (H x) by left. apply IH. intros y Hy. apply H. right. exact Hy.
Qed.

Lemma PoolCollisions_eq (p other : Pool) (h : gmap nat Particle) (frame : Vector) :
  pool_ok (p, h) → pool_ok (other, h) →
  Pool.PoolCollisions p other frame h
  = Some (filter (λ ij, pool_hits p other h frame ij = true)
            (list_prod (seq 0 (length (particles p)))
                       (seq 0 (length (particles other))))).
Proof.
  intros Hp Ho. unfold Pool.PoolCollisions.
  rewrite filter_list_prod.
  rewrite (forM_append _
             (λ i, flat_map (λ j, if pool_hits p other h frame (i, j)
                                  then [(i, j)] else [])
                     (seq 0 (length (particles other))))); [reflexivity |].
  intros i out Hi. apply elem_of_seq in Hi.
  destruct (pool_ok_slot p h i Hp) as (b & Eb & Ea & q & Eq & Ep & Hrec); [lia |].
  rewrite Eb. simpl. destruct b.
  - destruct (Hrec eq_refl) as (l & x & -> & Hx & Er).
    apply forM_append. intros j out' Hj. apply elem_of_seq in Hj.
    destruct (pool_ok_slot other h j Ho) as (b' & Eb' & Ea' & q' & Eq' & Ep' & Hrec');
      [lia |].
    unfold Pool.PoolCollisions_step, pool_hits, hits. simpl.
    rewrite Eb', Ea', Ea, Er. simpl. destruct b'.
    + destruct (Hrec' eq_refl) as (l' & y & -> & Hy & Er').
      rewrite Eq, Eq', Er'. simpl. rewrite Hx, Hy. simpl.
      destruct (Particle.CheckCollision x y frame); [reflexivity |].
      rewrite app_nil_r. reflexivity.
    + rewrite app_nil_r. reflexivity.
  - rewrite flat_map_nil; [rewrite app_nil_r; reflexivity |].
    intros j _. unfold pool_hits, hits. simpl. rewrite Ea. simpl.
    destruct (active_at other j); destruct (record_at other h j); reflexivity.
Qed.

(** A loop over the indices [a, a+m) with an invariant that depends on
    the index reached. *)
Lemma forM_seq_inv {S : Type} (body : nat → S → option S) (Q : nat → S → Prop)
  (m : nat) : ∀ (a : nat) (s : S),
  (∀ i s, a ≤ i < a + m → Q i s → ∃ s', body i s = Some s' ∧ Q (Datatypes.S i) s') →
  Q a s → ∃ s', forM body (seq a m) s = Some s' ∧ Q (a + m) s'.
Proof.
  induction m as [| m IH]; intros a s Hbody HQ.
  - exists s. rewrite Nat.add_0_r. split; [reflexivity | exact HQ].
  - simpl. destruct (Hbody a s) as (s1 & E1 & HQ1); [lia | exact HQ |].
    rewrite E1. simpl.
    destruct (IH (Datatypes.S a) s1) as (s' & E & HQ'); [| exact HQ1 |].
    + intros i t Hi. apply Hbody. lia.
    + exists s'. split; [exact E |]. replace (a + Datatypes.S m) with (Datatypes.S a + m) by lia.
      exact HQ'.
Qed.

End Queries.

Section QueryProperties.

Lemma hits_true (p : Pool) (h : gmap nat Particle) (frame : Vector) (y : Particle)
  (i : nat) :
  pool_ok (p, h) →
  hits p h frame y i = true ↔
  active p !! i = Some true ∧
  ∃ l x, particles p !! i = Some (Some l) ∧ h !! l = Some x ∧
         Particle.CheckCollision x y frame = true.
Proof.
  intros (_ & Hnn & Hv). simpl in *. unfold hits, record_at, active_at, ptr_at. split.
  - intros H. apply andb_true_iff in H as [Ha Hc].
    destruct (active p !! i) as [[|] |] eqn:Ea; simpl in Ha; try discriminate.
    split; [reflexivity |]. destruct (Hnn i Ea) as [l El]. rewrite El in Hc. simpl in Hc.
    destruct (h !! l) as [x |] eqn:Ex; [| discriminate]. eauto.
  - intros (Ea & l & x & El & Ex & Hc). rewrite Ea, El. simpl. rewrite Ex. exact Hc.
Qed.

Lemma Collisions_nil (p : Pool) (h : gmap nat Particle) (particle : option nat)
  (frame : Vector) (m : nat) : ∀ (a : nat) (out : list nat),
  pool_ok (p, h) → load particle h = None → a + m ≤ length (particles p) →
  forM (Pool.Collisions_step p particle frame h) (seq a m) out
  = if existsb (active_at p) (seq a m) then None else Some out.
Proof.
  induction m as [| m IH]; intros a out Hok Hn Ham; [reflexivity |].
  change (seq a (S m)) with (a :: seq (S a) m). cbn [forM existsb].
  destruct (pool_ok_slot p h a Hok) as (b & Eb & Ea & q & Eq & Ep & Hrec); [lia |].
  assert (E : Pool.Collisions_step p particle frame h a out
              = if b then None else Some out).
  { unfold Pool.Collisions_step. rewrite Eb. simpl. destruct b; [| reflexivity].
    destruct (Hrec eq_refl) as (l & x & -> & Hx & _).
    rewrite Eq. simpl. rewrite Hx. simpl. rewrite Hn. reflexivity. }
  rewrite E, Ea. destruct b; [reflexivity |].
  simpl. apply IH; (assumption || lia).
Qed.

(** X22.  In a pool whose active slots point into the heap,
    [Collisions(particle)] returns, in increasing order and without
    repetition, the indices of the active slots whose particle tests as
    colliding with the given one.  With a nil or dangling [particle] it
    panics as soon as the pool has an active slot, and returns the empty
    slice when every slot is inactive. *)
Theorem Collisions_lists_the_hits (p : Pool) (h : gmap nat Particle)
  (particle : option nat) (frame : Vector) :
  pool_ok (p, h) →
  (∀ y, load particle h = Some y →
     ∃ out, Pool.Collisions p particle frame h = Some out ∧
       out = filter (λ i, hits p h frame y i = true) (seq 0 (length (particles p))) ∧
       NoDup out ∧
       ∀ i, i ∈ out ↔
            active p !! i = Some true ∧
            ∃ l x, particles p !! i = Some (Some l) ∧ h !! l = Some x ∧
                   Particle.CheckCollision x y frame = true) ∧
  (load particle h = None →
     (∀ i, active p !! i = Some true → Pool.Collisions p particle frame h = None) ∧
     ((∀ i, i < length (particles p) → active p !! i = Some false) →
      Pool.Collisions p particle frame h = Some [])).
Proof.
  intros Hok. split.
  - intros y Hy. eexists. split; [apply Collisions_eq; eassumption |].
    split; [reflexivity |]. split; [apply NoDup_filter, NoDup_seq |].
    intros i. rewrite list_elem_of_filter, elem_of_seq, (hits_true p h frame y i Hok).
    split; [tauto |]. intros (Ea & l & x & El & Ex & Hc).
    split; [eauto 10 |]. apply lookup_lt_Some in El. lia.
  - intros Hn.
    pose proof (Collisions_nil p h particle frame (length (particles p)) 0 [] Hok Hn) as E.
    unfold Pool.Collisions. rewrite E by lia. clear E. split.
    + intros i Ea.
      replace (existsb (active_at p) (seq 0 (length (particles p)))) with true;
        [reflexivity |].
      symmetry. apply existsb_exists. exists i. split.
      * apply in_seq. apply lookup_lt_Some in Ea.
        destruct Hok as ((La & _) & _). simpl in La. lia.
      * unfold active_at. rewrite Ea. reflexivity.
    + intros Hall.
      destruct (existsb (active_at p) (seq 0 (length (particles p)))) eqn:E;
        [| reflexivity].
      apply existsb_exists in E as (i & Hi & Ea). apply in_seq in Hi.
      unfold active_at in Ea. rewrite Hall in Ea by lia. discriminate.
Qed.

Lemma NoDup_list_prod {A B : Type} (l1 : list A) (l2 : list B) :
  NoDup l1 → NoDup l2 → NoDup (list_prod l1 l2).
Proof.
  intros H1 H2. induction H1 as [| x l1 Hx H1 IH]; simpl; [constructor |].
  apply NoDup_app. split; [| split; [| exact IH]].
  - clear -H2. induction H2 as [| y l2 Hy H2 IH]; simpl; constructor; [| exact IH].
    intros Hin. apply list_elem_of_In, in_map_iff in Hin as (z & [= ->] & Hz).
    apply Hy, list_elem_of_In, Hz.
  - intros [a b] Hab Hin. apply list_elem_of_In, in_map_iff in Hab as (z & [= <- <-] & _).
    apply list_elem_of_In, in_prod_iff in Hin as [Hin _].
    apply Hx, list_elem_of_In, Hin.
Qed.

(** X23.  For two pools whose active slots point into the heap,
    [p.PoolCollisions(other)] returns, in lexicographic order and without
    repetition, the pairs [(i, j)] of an active slot of [p] and an active
    slot of [other] whose particles test as colliding; [(i, j)] is in the
    result exactly when [j] is active in [other] and [i] is in
    [p.Collisions(other.particles[j])]. *)
Theorem PoolCollisions_lists_the_pairs (p other : Pool) (h : gmap nat Particle)
  (frame : Vector) :
  pool_ok (p, h) → pool_ok (other, h) →
  ∃ out, Pool.PoolCollisions p other frame h = Some out ∧
    out = filter (λ ij, pool_hits p other h frame ij = true)
            (list_prod (seq 0 (length (particles p)))
                       (seq 0 (length (particles other)))) ∧
    NoDup out ∧
    ∀ i j, (i, j) ∈ out ↔
      active other !! j = Some true ∧
      ∃ q ins, particles other !! j = Some q ∧
               Pool.Collisions p q frame h = Some ins ∧ i ∈ ins.
Proof.
  intros Hp Ho. eexists. split; [apply PoolCollisions_eq; assumption |].
  split; [reflexivity |].
  split.
  { apply NoDup_filter, NoDup_list_prod; apply NoDup_seq. }
  intros i j. rewrite list_elem_of_filter. unfold pool_hits. simpl. split.
  - intros [Hh Hin]. apply andb_true_iff in Hh as [Ha Hh].
    unfold active_at in Ha.
    destruct (active other !! j) as [[|] |] eqn:Ea; simpl in Ha; try discriminate.
    split; [reflexivity |].
    destruct (pool_ok_slot other h j Ho) as (b & Eb & _ & q & Eq & _ & Hrec).
    { apply lookup_lt_Some in Ea. destruct Ho as ((La & _) & _). simpl in La. lia. }
    assert (b = true) as -> by congruence.
    destruct (Hrec eq_refl) as (l & y & -> & Hy & Er). rewrite Er in Hh.
    exists (Some l). eexists. split; [exact Eq |].
    split; [apply (Collisions_eq p h (Some l) y frame Hp); exact Hy |].
    apply list_elem_of_filter. split; [exact Hh |].
    apply list_elem_of_In, in_prod_iff in Hin as [Hi _]. apply list_elem_of_In. exact Hi.
  - intros (Ea & q & ins & Eq & Ec & Hi).
    destruct (pool_ok_slot other h j Ho) as (b & Eb & Eat & q' & Eq' & _ & Hrec).
    { apply lookup_lt_Some in Eq. exact Eq. }
    assert (b = true) as -> by congruence.
    destruct (Hrec eq_refl) as (l & y & -> & Hy & Er).
    assert (q = Some l) as -> by congruence.
    rewrite (Collisions_eq p h (Some l) y frame Hp Hy) in Ec. injection Ec as <-.
    apply list_elem_of_filter in Hi as [Hh Hi].
    rewrite Eat, Er. simpl. split; [exact Hh |].
    apply list_elem_of_In, in_prod_iff. split; apply list_elem_of_In; [exact Hi |].
    apply elem_of_seq. apply lookup_lt_Some in Eq. lia.
Qed.

End QueryProperties.

Section ActiveSet.

Lemma flat_map_ext_in {A B : Type} (f g : A → list B) (l : list A) :
  (∀ x, x ∈ l → f x = g x) → flat_map f l = flat_map g l.
Proof.
  induction l as [| x l IH]; intros H; [reflexivity |].
  simpl. rewrite (H x) by left. rewrite IH; [reflexivity |].
  intros y Hy. apply H. right. exact Hy.
Qed.

Lemma working_set_after_expiry (p p' : Pool) (clock : nat → Z) :
  same_length p → expiry_of p clock 0 (length (particles p)) p' →
  active_ptrs p' = working_set p clock.
Proof.
  intros (La & _) (_ & _ & _ & _ & _ & _ & Hn & Hna & Hpt).
  unfold active_ptrs, working_set, working_set_from. rewrite Hn.
  apply flat_map_ext_in. intros i Hi. apply elem_of_seq in Hi.
  destruct (Hpt i) as [Hin _]. destruct Hin as [Ea Ep]; [lia |].
  destruct (lookup_lt_is_Some_2 (active p) i) as [b Eb]; [lia |].
  destruct (lookup_lt_is_Some_2 (particles p) i) as [q Eq]; [lia |].
  unfold kept, active_at, ptr_at. rewrite Ea, Ep, Eb, Eq. simpl.
  destruct b; simpl; [| reflexivity].
  destruct (expired p clock i); reflexivity.
Qed.

Lemma expired_not_enforced (p : Pool) (clock : nat → Z) (i : nat) :
  enforceLifetime p = false → expired p clock i = false.
Proof. intros H. unfold expired. rewrite H. reflexivity. Qed.

Lemma Pool_eq (p q : Pool) :
  particles p = particles q → active p = active q →
  lifetimes p = lifetimes q → sprites p = sprites q →
  maxLifetime p = maxLifetime q → enforceLifetime p = enforceLifetime q →
  fadeOverLifetime p = fadeOverLifetime q →
  disableCollision p = disableCollision q → p = q.
Proof. destruct p, q. simpl. intros. subst. reflexivity. Qed.

Lemma expiry_not_enforced (p p' : Pool) (clock : nat → Z) :
  same_length p → enforceLifetime p = false →
  expiry_of p clock 0 (length (particles p)) p' → p' = p.
Proof.
  intros (La & _) He (E1 & E2 & E3 & E4 & E5 & E6 & Hn & Hna & Hpt).
  apply Pool_eq; try assumption.
  - apply list_eq. intros i.
    destruct (decide (i < length (particles p))) as [Hi | Hi].
    + destruct (Hpt i) as [Hin _]. destruct Hin as [_ Ep]; [lia |].
      rewrite Ep, (expired_not_enforced p clock i He).
      destruct (particles p !! i); reflexivity.
    + destruct (Hpt i) as [_ Hout]. destruct Hout as [_ Ep]; [lia | exact Ep].
  - apply list_eq. intros i.
    destruct (decide (i < length (particles p))) as [Hi | Hi].
    + destruct (Hpt i) as [Hin _]. destruct Hin as [Ea _]; [lia |].
      rewrite Ea, (expired_not_enforced p clock i He).
      destruct (active p !! i) as [b |]; simpl; [rewrite andb_true_r |]; reflexivity.
    + destruct (Hpt i) as [_ Hout]. destruct Hout as [Ea _]; [lia | exact Ea].
Qed.

(** X20.  [Pool.Update] on a pool whose slices have one length
    returns a pool of the same capacity and has run its passes over
    exactly the slice that [Active] returns on that pool afterwards.
    Without lifetime enforcement the pool is returned unchanged and the
    slice is [Active] of the pool before the call. *)
Theorem Update_runs_over_the_active_slots (p : Pool) (frame : Vector)
  (c dt : float64) (clock : nat → Z) (h : gmap nat Particle) :
  same_length p →
  ∃ p' ws,
    Pool.Active p' = Some ws ∧
    Pool.Update p frame c dt clock h
    = (h1 ← UpdatePositions ws frame c dt h;
       h2 ← (if disableCollision p then Some h1
             else SolveCollisions ws frame c h1);
       Some (p', h2)) ∧
    same_length p' ∧ length (particles p') = length (particles p) ∧
    (enforceLifetime p = false → p' = p ∧ Pool.Active p = Some ws).
Proof.
  intros Hlen. destruct (select_eq clock p Hlen) as (p' & Esel & Hexp).
  pose proof (working_set_after_expiry p p' clock Hlen Hexp) as Ews.
  pose proof Hexp as (E1 & E2 & E3 & E4 & E5 & E6 & Hn & Hna & _).
  assert (Hlen' : same_length p').
  { destruct Hlen as (La & Ll & Ls). unfold same_length. rewrite E1, E2. lia. }
  exists p', (working_set p clock).
  split; [rewrite <- Ews; apply Active_eq; exact Hlen' |].
  split; [unfold Pool.Update; rewrite Esel; simpl; rewrite E6; reflexivity |].
  split; [exact Hlen' |]. split; [exact Hn |].
  intros He. pose proof (expiry_not_enforced p p' clock Hlen He Hexp) as ->.
  split; [reflexivity |]. rewrite <- Ews. apply Active_eq. exact Hlen.
Qed.

Lemma Update_runs_over_the_active_slots_witness :
  Pool.Active one_left.1 = Some [Some second_shot] ∧
  Pool.Update one_left.1 Vector0 (Fin 10) (Fin 1) (λ _, 0%Z) one_left.2
  = (h1 ← UpdatePositions [Some second_shot] Vector0 (Fin 10) (Fin 1) one_left.2;
     h2 ← SolveCollisions [Some second_shot] Vector0 (Fin 10) h1;
     Some (one_left.1, h2)).
Proof.
  assert (Hlen : same_length one_left.1) by (repeat split).
  destruct (Update_runs_over_the_active_slots one_left.1 Vector0 (Fin 10) (Fin 1)
              (λ _, 0%Z) one_left.2 Hlen) as (p' & ws & _ & Eu & _ & _ & He).
  destruct (He eq_refl) as (-> & Ea).
  assert (Ews : ws = [Some second_shot]).
  { assert (E : Pool.Active one_left.1 = Some [Some second_shot]) by reflexivity.
    congruence. }
  subst ws. split; [exact Ea | exact Eu].
Defined.

End ActiveSet.

Section ResetProperties.

Lemma Active_none (p : Pool) :
  same_length p → (∀ i, i < length (particles p) → active p !! i = Some false) →
  Pool.Active p = Some [].
Proof.
  intros Hlen Hall. rewrite (Active_eq p Hlen). f_equal. unfold active_ptrs.
  apply flat_map_nil. intros i Hi. apply elem_of_seq in Hi.
  unfold active_at. rewrite Hall by lia. reflexivity.
Qed.

(** X21.  From a reachable pool state [Reset] returns a pool of the
    same capacity in which every slot is inactive and nil; the stamp and
    the sprite tag of a slot are zeroed only if the slot was active, the
    policy fields are kept.  A second [Reset] changes nothing, and
    [Active] returns the empty slice. *)
Theorem Reset_clears_every_slot (p : Pool) (h : gmap nat Particle) :
  reachable (p, h) →
  ∃ p', Pool.Reset p = Some p' ∧
    active p' = replicate (length (particles p)) false ∧
    particles p' = replicate (length (particles p)) None ∧
    (∀ i t s, lifetimes p !! i = Some t → sprites p !! i = Some s →
       lifetimes p' !! i = Some (if active_at p i then ZeroTime else t) ∧
       sprites p' !! i = Some (if active_at p i then 0%Z else s)) ∧
    maxLifetime p' = maxLifetime p ∧ enforceLifetime p' = enforceLifetime p ∧
    fadeOverLifetime p' = fadeOverLifetime p ∧
    disableCollision p' = disableCollision p ∧
    Pool.Reset p' = Some p' ∧ Pool.Active p' = Some [].
Proof.
  intros Hr. pose proof (reachable_ok _ Hr) as (Hlen & _). simpl in Hlen.
  pose proof (reachable_inactive_nil _ Hr) as Hin. simpl in Hin.
  pose proof Hlen as (La & Ll & Ls).
  destruct (Reset_eq p Hlen) as (p' & E & Hlen' & (P1 & P2 & P3 & P4 & Hn) & Hsl).
  pose proof Hlen' as (La' & Ll' & Ls').
  assert (Hact : ∀ i, i < length (particles p') → active p' !! i = Some false).
  { intros i Hi. destruct (Hsl i) as (S1 & _). rewrite S1.
    destruct (lookup_lt_is_Some_2 (active p) i) as [b Eb]; [lia |].
    rewrite Eb. reflexivity. }
  assert (Hpt : ∀ i, i < length (particles p') → particles p' !! i = Some None).
  { intros i Hi. destruct (Hsl i) as (S1 & S2 & _). rewrite S2.
    destruct (lookup_lt_is_Some_2 (active p) i) as [b Eb]; [lia |].
    destruct (lookup_lt_is_Some_2 (particles p) i) as [q Eq]; [lia |].
    rewrite Eq. simpl. unfold active_at. rewrite Eb. simpl. destruct b; [reflexivity |].
    rewrite (Hin i Eb) in Eq. congruence. }
  exists p'. split; [exact E |].
  split.
  { apply list_eq. intros i. destruct (decide (i < length (particles p'))) as [Hi | Hi].
    - rewrite (Hact i Hi). symmetry. apply lookup_replicate. split; [reflexivity | lia].
    - rewrite !lookup_ge_None_2; [reflexivity | rewrite length_replicate; lia | lia]. }
  split.
  { apply list_eq. intros i. destruct (decide (i < length (particles p'))) as [Hi | Hi].
    - rewrite (Hpt i Hi). symmetry. apply lookup_replicate. split; [reflexivity | lia].
    - rewrite !lookup_ge_None_2; [reflexivity | rewrite length_replicate; lia | lia]. }
  split.
  { intros i t s Et Es. destruct (Hsl i) as (_ & _ & S3 & S4).
    rewrite S3, S4, Et, Es. split; reflexivity. }
  split; [exact P1 |]. split; [exact P2 |]. split; [exact P3 |]. split; [exact P4 |].
  split; [| apply Active_none; assumption].
  unfold Pool.Reset. apply forM_id. intros i Hi. apply elem_of_seq in Hi.
  unfold Pool.Reset_step. rewrite Hact by lia. reflexivity.
Qed.

Lemma Reset_clears_every_slot_witness :
  Pool.Active two_active.1 = Some [Some first_shot; Some second_shot] ∧
  ∃ p', Pool.Reset two_active.1 = Some p' ∧
    active p' = [false; false] ∧ particles p' = [None; None] ∧
    Pool.Active p' = Some [].
Proof.
  split; [reflexivity |].
  destruct (Reset_clears_every_slot two_active.1 two_active.2 two_active_reachable)
    as (p' & E & Ea & Ep & _ & _ & _ & _ & _ & _ & EA).
  exists p'. split; [exact E |]. split; [exact Ea |]. split; [exact Ep | exact EA].
Defined.

End ResetProperties.

Section ClosestParticle.

Lemma fltb_trans_false (a b c : float64) :
  fltb a b = false → fltb c b = true → fltb a c = false ∧ feqb a c = false.
Proof.
  intros Hab Hcb. apply fltb_true_inv in Hcb as (x & y & -> & -> & Hxy).
  destruct a as [r |]; [| split; reflexivity].
  unfold fltb in Hab. destruct (Rlt_dec r y) as [| Hn]; [discriminate |].
  split; [apply fltb_Fin_false | apply feqb_Fin_false]; lra.
Qed.

Lemma Closest_step_inv (p : Pool) (h : gmap nat Particle) (pos : Vector)
  (k : nat) (st : Vector * float64) :
  pool_ok (p, h) → k < length (particles p) → nearest_below p h pos k st →
  ∃ st', Pool.Closest_step p pos h k st = Some st' ∧
         nearest_below p h pos (S k) st'.
Proof.
  intros Hok Hk Hinv.
  destruct (pool_ok_slot p h k Hok Hk) as (b & Eb & Ea & q & Eq & Ep & Hrec).
  destruct st as [cPos m]. unfold Pool.Closest_step. rewrite Eb. simpl.
  destruct b.
  - destruct (Hrec eq_refl) as (l & x & -> & Hx & Er).
    rewrite Eq. simpl. rewrite Hx. simpl.
    assert (Ed : sqr_dist_at p h pos k = SqrDist (Pos x) pos).
    { unfold sqr_dist_at. rewrite Er. reflexivity. }
    rewrite <- Ed.
    destruct (sqr_dist_at p h pos k <? m)%f64 eqn:Elt.
    + eexists. split; [reflexivity |]. right. exists k, x.
      split; [lia |]. split; [exact Eb |]. split; [exact Er |].
      split; [reflexivity |].
      destruct Hinv as [([= -> ->] & Hall) | (i & xi & Hi & Eai & Eri & [= -> ->] & Hmax & Hmin & Hfirst)].
      * split; [exact Elt |]. split.
        -- intros j Hj Eaj. destruct (decide (j = k)) as [-> | Hne].
           ++ apply fltb_true_inv in Elt as (a & b & Ek & _ & _). rewrite Ek.
              apply fltb_Fin_false. lra.
           ++ apply (fltb_trans_false _ _ _ (Hall j ltac:(lia) Eaj) Elt).
        -- intros j Hj Eaj. apply (fltb_trans_false _ _ _ (Hall j ltac:(lia) Eaj) Elt).
      * split.
        { apply fltb_true_inv in Elt as (a & b & Ek & Ei & Hab).
          apply fltb_true_inv in Hmax as (b' & M & Ei' & EM & HbM).
          rewrite Ek, EM. apply fltb_Fin_true.
          rewrite Ei in Ei'. injection Ei' as <-. lra. }
        split.
        -- intros j Hj Eaj. destruct (decide (j = k)) as [-> | Hne].
           ++ apply fltb_true_inv in Elt as (a & b & Ek & _ & _). rewrite Ek.
              apply fltb_Fin_false. lra.
           ++ apply (fltb_trans_false _ _ _ (Hmin j ltac:(lia) Eaj) Elt).
        -- intros j Hj Eaj. apply (fltb_trans_false _ _ _ (Hmin j ltac:(lia) Eaj) Elt).
    + eexists. split; [reflexivity |].
      destruct Hinv as [([= -> ->] & Hall) | (i & xi & Hi & Eai & Eri & [= -> ->] & Hmax & Hmin & Hfirst)].
      * left. split; [reflexivity |]. intros j Hj Eaj.
        destruct (decide (j = k)) as [-> | Hne]; [exact Elt | apply Hall; [lia | exact Eaj]].
      * right. exists i, xi. split; [lia |]. split; [exact Eai |]. split; [exact Eri |].
        split; [reflexivity |]. split; [exact Hmax |]. split; [| exact Hfirst].
        intros j Hj Eaj.
        destruct (decide (j = k)) as [-> | Hne]; [exact Elt | apply Hmin; [lia | exact Eaj]].
  - eexists. split; [reflexivity |].
    destruct Hinv as [(Est & Hall) | (i & xi & Hi & Eai & Eri & Est & Hmax & Hmin & Hfirst)].
    + left. split; [exact Est |]. intros j Hj Eaj.
      destruct (decide (j = k)) as [-> | Hne]; [congruence | apply Hall; [lia | exact Eaj]].
    + right. exists i, xi. split; [lia |]. split; [exact Eai |]. split; [exact Eri |].
      split; [exact Est |]. split; [exact Hmax |]. split; [| exact Hfirst].
      intros j Hj Eaj.
      destruct (decide (j = k)) as [-> | Hne]; [congruence | apply Hmin; [lia | exact Eaj]].
Qed.

(** X24.  In a pool whose active slots point into the heap,
    [Closest(pos)] returns the zero vector when no active particle has a
    squared distance to [pos] below [math.MaxFloat64] (in particular when
    no slot is active or all distances are NaN); otherwise it returns the
    position of an active particle whose squared distance no active
    particle undercuts, the first such in slot order. *)
Theorem Closest_returns_the_first_nearest (p : Pool) (h : gmap nat Particle)
  (pos : Vector) :
  pool_ok (p, h) →
  ∃ v, Pool.Closest p pos h = Some v ∧
    ((v = Vector0 ∧
      ∀ j, active p !! j = Some true →
        (sqr_dist_at p h pos j <? math.MaxFloat64)%f64 = false) ∨
     (∃ i x, active p !! i = Some true ∧ record_at p h i = Some x ∧ v = Pos x ∧
        (SqrDist (Pos x) pos <? math.MaxFloat64)%f64 = true ∧
        (∀ j y, active p !! j = Some true → record_at p h j = Some y →
           (SqrDist (Pos y) pos <? SqrDist (Pos x) pos)%f64 = false) ∧
        (∀ j y, j < i → active p !! j = Some true → record_at p h j = Some y →
           (SqrDist (Pos y) pos =? SqrDist (Pos x) pos)%f64 = false))).
Proof.
  intros Hok. pose proof Hok as ((La & _) & _). simpl in La.
  destruct (forM_seq_inv (Pool.Closest_step p pos h) (nearest_below p h pos)
              (length (particles p)) 0 (Vector0, math.MaxFloat64))
    as (st & E & Hinv).
  - intros i s Hi. apply Closest_step_inv; [exact Hok | lia].
  - left. split; [reflexivity |]. intros j Hj. lia.
  - unfold Pool.Closest. rewrite E. simpl. exists st.1. split; [reflexivity |].
    assert (Hlt : ∀ j, active p !! j = Some true → (j < 0 + length (particles p))%nat).
    { intros j Ej. apply lookup_lt_Some in Ej. lia. }
    destruct Hinv as [(-> & Hall) | (i & x & Hi & Eai & Eri & -> & Hmax & Hmin & Hfirst)].
    + left. split; [reflexivity |]. intros j Ej. apply Hall; [apply Hlt |]; exact Ej.
    + right. exists i, x. simpl.
      assert (Ed : sqr_dist_at p h pos i = SqrDist (Pos x) pos).
      { unfold sqr_dist_at. rewrite Eri. reflexivity. }
      rewrite Ed in *.
      split; [exact Eai |]. split; [exact Eri |]. split; [reflexivity |].
      split; [exact Hmax |]. split.
      * intros j y Ej Ey. specialize (Hmin j (Hlt j Ej) Ej).
        unfold sqr_dist_at in Hmin. rewrite Ey in Hmin. exact Hmin.
      * intros j y Hj Ej Ey. specialize (Hfirst j Hj Ej).
        unfold sqr_dist_at in Hfirst. rewrite Ey in Hfirst. exact Hfirst.
Qed.

End ClosestParticle.

Section SpeedOfLight.

Local Open Scope R_scope.

Lemma Seconds_eq (d : Z) : Seconds d = Fin (IZR d / 1e9).
Proof.
  unfold Seconds, Second. rewrite fdiv_Fin by lra. rewrite fadd_Fin. f_equal.
  rewrite (Z.quot_rem' d 1000000000) at 3.
  rewrite plus_IZR, mult_IZR. field.
Qed.

Lemma Since_monotone (t0 now1 now2 : Z) :
  (t0 ≤ now1)%Z → (now1 ≤ now2)%Z →
  (0 ≤ Since now1 (At t0) ≤ Since now2 (At t0))%Z.
Proof. unfold Since, maxDuration, minDuration. lia. Qed.

Lemma interpolate_ok (g : Game.Game) (t now1 now2 : Z) :
  light_ok (g, t) → (t ≤ now1)%Z → (now1 ≤ now2)%Z →
  light_ok (Game.interpolate g now1 now2, now2).
Proof.
  intros (HT & (x & Ec & Hx) & Hl) H1 H2. simpl in *.
  unfold Game.interpolate. destruct (Game.cLerp g) eqn:El.
  - destruct (Hl eq_refl) as (t0 & a & b & Es & Ht0 & Ea & Eb & Ha & Hb).
    rewrite Es, HT, Ea, Eb, !Seconds_eq.
    destruct (Since_monotone t0 now1 now2) as [Hs0 Hs12]; [lia | lia |].
    apply IZR_le in Hs0, Hs12.
    set (e1 := IZR (Since now1 (At t0))) in *.
    set (e2 := IZR (Since now2 (At t0))) in *.
    replace (IZR (Second * 2) / 1e9) with 2 by (unfold Second; rewrite mult_IZR; field).
    destruct (Rlt_dec 2 (e2 / 1e9)) as [Hlt | Hge].
    + rewrite fltb_Fin_true by exact Hlt. unfold light_ok. simpl.
      split; [reflexivity |]. split.
      * exists b. split; [reflexivity | exact Hb].
      * discriminate.
    + rewrite fltb_Fin_false by lra. unfold light_ok. simpl.
      split; [reflexivity |]. split.
      * rewrite mapRange_Fin by lra. eexists. split; [reflexivity |].
        assert (Hq : 0 <= (e1 / 1e9 - 0) / (2 - 0) <= 1) by (split; lra).
        set (q := (e1 / 1e9 - 0) / (2 - 0)) in *.
        destruct (Rle_dec a b) as [Hab | Hab].
        -- assert (0 <= q * (b - a) <= b - a) by nra. split; lra.
        -- assert (b - a <= q * (b - a) <= 0) by nra. split; lra.
      * intros _. exists t0, a, b. repeat split; try assumption; try lia; lra.
  - unfold light_ok. simpl. split; [exact HT |].
    split; [exists x; split; assumption |]. rewrite El. discriminate.
Qed.

Lemma game_step_ok (s s' : Game.Game * Z) : light_ok s → game_step s s' → light_ok s'.
Proof.
  intros Hok Hstep. destruct Hstep.
  - destruct Hok as (HT & _ & Hl). simpl in *.
    split; [exact HT |]. split; [exists 299792458; split; [reflexivity | lra] |].
    exact Hl.
  - destruct Hok as (HT & (x & Ec & Hx) & _). simpl in *.
    split; [exact HT |]. split; [exists x; split; assumption |].
    intros _. exists now, x, (x / 8 + 10). simpl.
    rewrite Ec, fdiv_Fin by lra. rewrite fadd_Fin.
    repeat split; try lia; lra.
  - eapply interpolate_ok; eassumption.
Qed.

Lemma game_reachable_ok (s : Game.Game * Z) : game_reachable s → light_ok s.
Proof.
  induction 1 as [t | s s' _ IH Hstep].
  - split; [reflexivity |]. split; [exists 299792458; split; [reflexivity | lra] |].
    discriminate.
  - eapply game_step_ok; eassumption.
Qed.

(** X25.  In every state that [Init] on a new [Game], [startGame],
    the [beginCLerp(g.c/8 + 10)] of a hit and the interpolation of
    [gameUpdate] reach under a monotonic clock, the speed of light is a
    number in the interval (11, 299792458], so above 0; a hit leaves it as
    it is and sets a target [c/8 + 10] in the same interval, which is
    below the current speed of light as long as that is 12 or more. *)
Theorem speed_of_light_stays_positive (g : Game.Game) (t : Z) :
  game_reachable (g, t) →
  ∃ x : R, Game.c g = Fin x ∧ 11 < x <= 299792458 ∧
    (Fin 0 <? Game.c g)%f64 = true ∧
    ∀ now, ∃ y : R, Game.c (Game.hit g now) = Fin x ∧
      Game.cLerpTarget (Game.hit g now) = Fin y ∧ 11 < y <= 299792458 ∧
      (12 <= x → y < x).
Proof.
  intros Hr. destruct (game_reachable_ok _ Hr) as (_ & (x & Ec & Hx) & _).
  simpl in *. exists x. split; [exact Ec |]. split; [exact Hx |].
  split; [rewrite Ec; apply fltb_Fin_true; lra |].
  intros now. exists (x / 8 + 10). simpl. rewrite Ec, fdiv_Fin by lra.
  rewrite fadd_Fin. repeat split; intros; lra.
Qed.

Lemma speed_of_light_stays_positive_witness :
  ∃ x y : R, Game.c (Game.hit (Game.Init Game.zero) 5) = Fin x ∧
    11 < x <= 299792458 ∧
    Game.cLerpTarget (Game.hit (Game.hit (Game.Init Game.zero) 5) 6) = Fin y ∧
    11 < y <= 299792458.
Proof.
  assert (Hr : game_reachable (Game.hit (Game.Init Game.zero) 5, 5%Z)).
  { eapply game_next; [apply (game_Init 0) | apply game_hit; lia]. }
  destruct (speed_of_light_stays_positive _ _ Hr) as (x & E & Hx & _ & Hhit).
  destruct (Hhit 6%Z) as (y & _ & Ey & Hy & _).
  exists x, y. split; [exact E |]. split; [exact Hx |]. split; [exact Ey | exact Hy].
Defined.

End SpeedOfLight.

Section SetMagnitude.

Local Open Scope R_scope.

(** X2.  For a vector [v] of numbers that is not the zero vector,
    [v.SetMag(s)] has magnitude [|s|] and is [v.Unit().Scl(s)]; setting
    the magnitude back to that of [v] returns [v] for [s > 0], its
    negation for [s < 0], and stays at the zero vector for [s = 0].  The
    zero vector is returned unchanged whatever the magnitude asked for. *)
Theorem SetMag_sets_the_magnitude (x y s : R) :
  x ≠ 0 ∨ y ≠ 0 →
  let v := mkVector (Fin x) (Fin y) in
  Mag (SetMag v (Fin s)) = Fin (Rabs s) ∧
  SetMag v (Fin s) = Scl (Unit v) (Fin s) ∧
  SetMag (SetMag v (Fin s)) (Mag v)
  = (if Req_dec_T s 0 then Vector0 else if Rlt_dec s 0 then Neg v else v) ∧
  ∀ s', SetMag Vector0 s' = Vector0.
Proof.
  intros H v. unfold v. pose proof (sqrt_sumsq_pos x y H) as Hm.
  set (m := sqrt (x * x + y * y)) in *.
  assert (Hne : m ≠ 0) by lra.
  assert (E : SetMag (mkVector (Fin x) (Fin y)) (Fin s)
              = mkVector (Fin (x * (s / m))) (Fin (y * (s / m)))).
  { apply SetMag_Fin. exact Hne. }
  split; [apply Mag_SetMag; exact Hne |].
  split.
  { rewrite E, Unit_Fin by exact H. fold m. unfold Scl. simpl. fin_calc.
    f_equal; f_equal; field; exact Hne. }
  split.
  - rewrite Mag_Fin. fold m. destruct (Req_dec_T s 0) as [-> | Hs].
    + rewrite E. replace (x * (0 / m)) with 0 by (field; exact Hne).
      replace (y * (0 / m)) with 0 by (field; exact Hne).
      apply SetMag_null. rewrite Rmult_0_r, Rplus_0_r. apply sqrt_0.
    + rewrite E.
      assert (Em : sqrt (x * (s / m) * (x * (s / m)) + y * (s / m) * (y * (s / m)))
                   = Rabs s).
      { rewrite sqrt_scale. fold m. unfold Rdiv.
        rewrite Rabs_mult, Rabs_inv, (Rabs_pos_eq m) by lra. field. exact Hne. }
      rewrite SetMag_Fin by (rewrite Em; apply Rabs_no_R0; exact Hs).
      rewrite Em. destruct (Rlt_dec s 0) as [Hneg | Hpos].
      * rewrite Rabs_left by exact Hneg. unfold Neg. simpl. fin_calc.
        f_equal; f_equal; field; split; lra.
      * rewrite Rabs_pos_eq by lra. f_equal; f_equal; field; split; lra.
  - intros s'. unfold SetMag. rewrite Mag_Vector0, feqb_Fin_true; reflexivity.
Qed.

Lemma SetMag_sets_the_magnitude_witness :
  Mag (SetMag (mkVector (Fin 3) (Fin 4)) (Fin 10)) = Fin (Rabs 10).
Proof.
  refine (proj1 (SetMag_sets_the_magnitude 3 4 10 _)). left. lra.
Defined.

End SetMagnitude.

Section PoolExamples.

Lemma one_slot_ok : pool_ok (one_slot, <[0 := restingQ]> ∅).
Proof.
  split; [| split]; simpl.
  - repeat split.
  - intros [| i] H; simpl in H; [eauto | discriminate].
  - intros [| i] l H; simpl in H; [| discriminate].
    injection H as <-. apply elem_of_dom. exists restingQ. reflexivity.
Qed.

Lemma Collisions_lists_the_hits_witness :
  ∃ out, Pool.Collisions one_slot (Some 0) Vector0 (<[0 := restingQ]> ∅) = Some out ∧
         NoDup out.
Proof.
  destruct (proj1 (Collisions_lists_the_hits one_slot (<[0 := restingQ]> ∅) (Some 0)
                     Vector0 one_slot_ok) restingQ eq_refl) as (out & E & _ & Hn & _).
  exists out. split; assumption.
Defined.

Lemma PoolCollisions_lists_the_pairs_witness :
  ∃ out, Pool.PoolCollisions one_slot one_slot Vector0 (<[0 := restingQ]> ∅)
         = Some out ∧ NoDup out.
Proof.
  destruct (PoolCollisions_lists_the_pairs one_slot one_slot (<[0 := restingQ]> ∅)
              Vector0 one_slot_ok one_slot_ok) as (out & E & _ & Hn & _).
  exists out. split; assumption.
Defined.

Lemma Closest_returns_the_first_nearest_witness :
  ∃ v, Pool.Closest one_slot (mkVector (Fin 3) (Fin 4)) (<[0 := restingQ]> ∅) = Some v.
Proof.
  destruct (Closest_returns_the_first_nearest one_slot (<[0 := restingQ]> ∅)
              (mkVector (Fin 3) (Fin 4)) one_slot_ok) as (v & E & _).
  exists v. exact E.
Defined.

End PoolExamples.

Section Capacity.

(** X19.  No call shrinks a pool: after [Activate], [Deactivate],
    [Update], [UpdateWith], [Reset] or a configuration call the number of
    slots is the same or one more, and it is one more only after an
    [Activate] on a pool without inactive slot, which appends an active
    slot. *)
Theorem capacity_never_shrinks (s s' : Pool * gmap nat Particle) :
  pool_ok s → step s s' →
  length (particles s.1) ≤ length (particles s'.1) ≤ S (length (particles s.1)) ∧
  (length (particles s'.1) = S (length (particles s.1)) →
   full s.1 ∧ active s'.1 = active s.1 ++ [true]).
Proof.
  intros Hok Hstep. pose proof Hok as (Hlen & _).
  destruct Hstep; simpl in *.
  - destruct (lowest_inactive_or_full p Hlen) as [(k & Hk & Hlow) | Hfull].
    + rewrite (Activate_lowest _ _ _ _ _ _ _ _ p h k Hlen Hlow) in H.
      injection H as <- <-. simpl. rewrite length_insert. split; [lia |]. lia.
    + rewrite (Activate_full _ _ _ _ _ _ _ _ p h Hfull) in H.
      injection H as <- <-. simpl. rewrite length_app. simpl. split; [lia |].
      intros _. split; [exact Hfull | reflexivity].
  - pose proof Hlen as (La & _).
    destruct (lookup_lt_is_Some_2 (active p) i) as [[|] Ea]; [lia | |].
    + rewrite (Deactivate_active p i H Ea) in H0. injection H0 as <- <-.
      simpl. rewrite length_insert. split; lia.
    + rewrite (Deactivate_inactive p i Ea) in H0. injection H0 as <- <-. split; lia.
  - destruct (select_eq clock p Hlen) as (p1 & Esel & Hexp).
    destruct Hexp as (_ & _ & _ & _ & _ & _ & Hn & _).
    unfold Pool.Update in H. rewrite Esel in H. simpl in H.
    destruct (UpdatePositions _ frame c dt h) as [h1 |]; simpl in H; [| discriminate].
    destruct (if disableCollision p1 then Some h1 else _) as [h2 |];
      simpl in H; [| discriminate].
    injection H as <- <-. split; lia.
  - destruct (select_eq clock p Hlen) as (p1 & Esel & Hexp).
    destruct Hexp as (_ & _ & _ & _ & _ & _ & Hn & _).
    unfold Pool.UpdateWith in H. rewrite Esel in H. simpl in H.
    destruct (UpdatePositions _ frame c dt h) as [h1 |]; simpl in H; [| discriminate].
    destruct (if disableCollision p1 then Some h1 else _) as [h2 |];
      simpl in H; [| discriminate].
    injection H as <- <-. split; lia.
  - destruct (Reset_eq p Hlen) as (p1 & E & _ & (_ & _ & _ & _ & Hn) & _).
    rewrite E in H. injection H as <-. split; lia.
  - split; lia.
  - split; lia.
  - split; lia.
  - split; lia.
Qed.

End Capacity.

Lemma capacity_never_shrinks_witness :
  length (particles one_active.1) = 1 ∧ length (particles two_active.1) = 2 ∧
  full one_active.1 ∧ active two_active.1 = active one_active.1 ++ [true].
Proof.
  destruct (capacity_never_shrinks one_active two_active
              (reachable_ok _ one_active_reachable) two_active_step) as (_ & Hg).
  split; [reflexivity |]. split; [reflexivity |]. apply Hg. reflexivity.
Defined.
